(** * RAG pipeline: chunking, ingestion, search, reranking, deletion

    A shallow embedding of [search_utils.py] ([DocumentProcessor],
    [AdvancedRAGPipeline]) and [rag_text_utils.py]
    ([process_text_file_for_rag]).

    Python [str] values are sequences of Unicode code points, Python [int]
    values are [Z], Python [float] values are binary64 floats.  The
    embedding model, the ChromaDB collection, the clock and the UUID source
    are collaborators the pipeline calls; they are a record of operations
    over a state of their own (see [Backend]). *)

From Stdlib Require Import ZArith List String Ascii Floats Lia Sorted Permutation.
From stdpp Require Import gmap strings list fin_maps pretty.

Local Open Scope Z_scope.

(** ** Python strings *)

Module PyStr.

(** A code point. *)
Definition char : Type := N.
Definition str : Type := list char.

(** Decoding of a UTF-8 literal into code points: [acc] holds the bits
    read so far of a multi-byte sequence and [more] the number of
    continuation bytes still expected. *)
Fixpoint utf8_go (acc : N) (more : nat) (s : string) : str :=
  match s with
  | EmptyString => []
  | String a s' =>
      let b := N_of_ascii a in
      match more with
      | O =>
          if (b <? 128)%N then b :: utf8_go 0%N 0%nat s'
          else if (b <? 224)%N then utf8_go (N.land b 31) 1%nat s'
          else if (b <? 240)%N then utf8_go (N.land b 15) 2%nat s'
          else utf8_go (N.land b 7) 3%nat s'
      | S O => (acc * 64 + N.land b 63)%N :: utf8_go 0%N 0%nat s'
      | S m => utf8_go (acc * 64 + N.land b 63)%N m s'
      end
  end.

(** [u "..."] is the Python literal ["..."]. *)
Definition u (s : string) : str := utf8_go 0%N 0%nat s.

(** [str.isspace] on one code point (CPython's [_PyUnicode_IsWhitespace]). *)
Definition is_space (c : char) : bool :=
  ((9 <=? c) && (c <=? 13) || (28 <=? c) && (c <=? 32)
   || (c =? 133) || (c =? 160) || (c =? 5760)
   || (8192 <=? c) && (c <=? 8202)
   || (c =? 8232) || (c =? 8233) || (c =? 8239) || (c =? 8287)
   || (c =? 12288))%N.

(** [s.split()]: the maximal runs of non-whitespace code points.  [cur]
    is the token being read. *)
Fixpoint split_from (cur : str) (s : str) : list str :=
  match s with
  | [] => match cur with [] => [] | _ => [cur] end
  | c :: s' =>
      if is_space c then
        match cur with
        | [] => split_from [] s'
        | _ => cur :: split_from [] s'
        end
      else split_from (cur ++ [c]) s'
  end.

Definition split (s : str) : list str := split_from [] s.

(** [sep.join(ws)]. *)
Fixpoint join (sep : str) (ws : list str) : str :=
  match ws with
  | [] => []
  | [w] => w
  | w :: ws' => w ++ sep ++ join sep ws'
  end.

Fixpoint lstrip (s : str) : str :=
  match s with
  | [] => []
  | c :: s' => if is_space c then lstrip s' else s
  end.

(** [s.strip()]. *)
Definition strip (s : str) : str := rev (lstrip (rev (lstrip s))).

(** Truth value of a string or list: non-empty. *)
Definition truthy {A} (l : list A) : bool :=
  match l with [] => false | _ => true end.

(** [str(i)] for an [int]. *)
Definition str_of_int (i : Z) : str := u (pretty i).

End PyStr.
Import PyStr.

(** ** Exceptions and results *)

(** The exceptions the modelled code meets; all are subclasses of
    [Exception].  [BackendError] stands for whatever a collaborator
    raises. *)
Inductive exn : Type :=
| ValueError (msg : str)
| IndexError (msg : str)
| BackendError (msg : str).

(** [str(e)]. *)
Definition exn_message (e : exn) : str :=
  match e with
  | ValueError m | IndexError m | BackendError m => m
  end.

Inductive result (A : Type) : Type :=
| Ok (a : A)
| Raise (e : exn).
Arguments Ok {A} a.
Arguments Raise {A} e.

Definition is_ok {A} (r : result A) : bool :=
  match r with Ok _ => true | Raise _ => false end.

(** ** Python built-ins on lists and integers *)

Module Py.

(** [range(start, stop, step)], as the list of its elements. *)
Definition range_length (start stop step : Z) : Z :=
  if 0 <? step then
    if start <? stop then (stop - start - 1) / step + 1 else 0
  else
    if stop <? start then (start - stop - 1) / (- step) + 1 else 0.

Definition range (start stop step : Z) : result (list Z) :=
  if step =? 0 then Raise (ValueError (u "range() arg 3 must not be zero"))
  else Ok (map (fun k : nat => start + Z.of_nat k * step)
             (seq 0 (Z.to_nat (range_length start stop step)))).

(** A slice bound [i] of a list of length [n]: negative bounds count from
    the end, and every bound is clamped to [0, n]. *)
Definition slice_bound (n : nat) (i : Z) : nat :=
  if i <? 0 then Z.to_nat (Z.max 0 (i + Z.of_nat n))
  else Z.to_nat (Z.min i (Z.of_nat n)).

(** [l[lo:hi]]. *)
Definition slice {A} (l : list A) (lo hi : Z) : list A :=
  let a := slice_bound (length l) lo in
  let b := slice_bound (length l) hi in
  take (b - a) (drop a l).

(** [l[i]] for [i >= 0]. *)
Definition index {A} (l : list A) (i : nat) : result A :=
  match l !! i with
  | Some x => Ok x
  | None => Raise (IndexError (u "list index out of range"))
  end.

End Py.

(** ** DocumentProcessor *)

(** [DocumentProcessor.clean_text]. *)
Definition clean_text (text : str) : str :=
  let text := strip text in
  join (u " ") (split text).

(** One turn of the loop of [chunk_text]: the window starting at word [i]
    is appended when it is not blank. *)
Definition chunk_step (words : list str) (chunk_size : Z)
    (chunks : list str) (i : Z) : list str :=
  let chunk := join (u " ") (Py.slice words i (i + chunk_size)) in
  if truthy (strip chunk) then chunks ++ [chunk] else chunks.

(** [DocumentProcessor.chunk_text]. *)
Definition chunk_text (text : str) (chunk_size overlap : Z) : result (list str) :=
  let words := split text in
  match Py.range 0 (Z.of_nat (length words)) (chunk_size - overlap) with
  | Raise e => Raise e
  | Ok idx => Ok (fold_left (chunk_step words chunk_size) idx [])
  end.

(** The default [overlap] of [chunk_text]. *)
Definition default_overlap : Z := 50.

(** [DocumentProcessor.process_document]: [chunk_text] is called with two
    arguments, so [overlap] takes its default. *)
Definition process_document (content : str) (chunk_size : Z) : result (list str) :=
  let cleaned := clean_text content in
  chunk_text cleaned chunk_size default_overlap.

(** [process_text_file_for_rag] of [rag_text_utils.py].  [read] is the
    outcome of [file_path.read_text]; the chunk is kept when it is
    non-empty (no [strip] here); any exception becomes a one-element list
    holding a message. *)
Definition file_chunk_step (words : list str) (chunk_size : Z)
    (chunks : list str) (i : Z) : list str :=
  let chunk := join (u " ") (Py.slice words i (i + chunk_size)) in
  if truthy chunk then chunks ++ [chunk] else chunks.

Definition file_error_prefix : str :=
  u "[Ошибка обработки txt-файла для RAG]: ".

Definition process_text_file_for_rag (read : result str)
    (chunk_size overlap : Z) : list str :=
  let attempt :=
    match read with
    | Raise e => Raise e
    | Ok text =>
        let words := split text in
        match Py.range 0 (Z.of_nat (length words)) (chunk_size - overlap) with
        | Raise e => Raise e
        | Ok idx => Ok (fold_left (file_chunk_step words chunk_size) idx [])
        end
    end in
  match attempt with
  | Ok chunks => chunks
  | Raise e => [file_error_prefix ++ exn_message e]
  end.

(** A token: a non-empty run of non-whitespace code points. *)
Definition no_space (w : str) : Prop := Forall (fun c => is_space c = false) w.
Definition token (w : str) : Prop := w <> [] /\ no_space w.

(** The word sequence read back from a chunk sequence: the first chunk
    whole, every later chunk without its leading [overlap] words. *)
Definition deoverlap (overlap : nat) (chunks : list str) : list str :=
  match chunks with
  | [] => []
  | c :: rest => split c ++ concat (map (fun c' => drop overlap (split c')) rest)
  end.

(** The [k]-th window of [chunk_size] words at stride [stride]. *)
Definition window (words : list str) (chunk_size stride : Z) (k : nat) : str :=
  join (u " ")
    (Py.slice words (Z.of_nat k * stride) (Z.of_nat k * stride + chunk_size)).

(** What [chunk_text text chunk_size overlap] gives for
    [0 <= overlap < chunk_size]: as many windows as it takes to cover the
    words at stride [chunk_size - overlap], each the words of its window
    joined by single spaces, from which the words can be read back. *)
Record chunking_of (text : str) (chunk_size overlap : Z) (chunks : list str)
    : Prop := {
  chunks_cover :
    (Z.of_nat (length chunks) - 1) * (chunk_size - overlap)
      < Z.of_nat (length (split text))
      <= Z.of_nat (length chunks) * (chunk_size - overlap);
  chunks_windows : forall k, (k < length chunks)%nat ->
    chunks !! k = Some (window (split text) chunk_size (chunk_size - overlap) k);
  chunks_reconstruct : deoverlap (Z.to_nat overlap) chunks = split text;
  chunks_of_blank : split text = [] -> chunks = [];
  chunks_first_all : split text <> [] ->
    Z.of_nat (length (split text)) <= chunk_size ->
    head chunks = Some (join (u " ") (split text));
  chunks_single : split text <> [] ->
    Z.of_nat (length (split text)) <= chunk_size - overlap ->
    chunks = [join (u " ") (split text)]
}.

(** ** Data records *)

(** A metadata value. *)
Inductive scalar : Type :=
| VStr (s : str)
| VInt (i : Z)
| VFloat (f : float)
| VBool (b : bool).

Abbreviation metadata := (gmap str scalar).

Definition embedding : Type := list float.

Record Document : Type := mkDocument {
  doc_id : str;
  doc_content : str;
  doc_metadata : metadata;
  doc_timestamp : str
}.

Record QueryResult : Type := mkQueryResult {
  document_id : str;
  content : str;
  similarity_score : float;
  result_metadata : metadata
}.

(** Metadata keys written by [add_document]. *)
Definition k_parent_doc_id : str := u "parent_doc_id".
Definition k_chunk_index : str := u "chunk_index".
Definition k_chunk_count : str := u "chunk_count".
Definition k_timestamp : str := u "timestamp".

(** ** Collaborators *)

(** What [collection.query] returns: one inner list per query embedding;
    [qr_distances] is [None] when the key ['distances'] is absent. *)
Record QueryResponse : Type := mkQueryResponse {
  qr_ids : list (list str);
  qr_documents : list (list str);
  qr_metadatas : list (list metadata);
  qr_distances : option (list (list float))
}.

(** The services the pipeline calls, over their own state [S]: the
    sentence-embedding model, sklearn's [cosine_similarity], the ChromaDB
    collection, [datetime.now().isoformat()] and [uuid.uuid4()].
    [collection_get] gives the ['ids'] entry of the answer. *)
Record Backend (S : Type) : Type := mkBackend {
  model_encode : list str -> S -> result (list embedding) * S;
  cosine_similarity : embedding -> embedding -> result float;
  collection_add :
    list str -> list str -> list embedding -> list metadata ->
    S -> result unit * S;
  collection_query :
    embedding -> Z -> option metadata -> S -> result QueryResponse * S;
  collection_get : metadata -> S -> result (list str) * S;
  collection_delete : list str -> S -> result unit * S;
  now_isoformat : S -> str * S;
  uuid4 : S -> str * S
}.
Arguments model_encode {S} _ _ _.
Arguments cosine_similarity {S} _ _ _.
Arguments collection_add {S} _ _ _ _ _ _.
Arguments collection_query {S} _ _ _ _ _.
Arguments collection_get {S} _ _ _.
Arguments collection_delete {S} _ _ _.
Arguments now_isoformat {S} _ _.
Arguments uuid4 {S} _ _.

(** A call made to the embedding model or to the collection. *)
Inductive call : Type :=
| CallEncode (texts : list str)
| CallAdd (ids documents : list str) (embeddings : list embedding)
    (metadatas : list metadata)
| CallQuery (query_embedding : embedding) (n_results : Z)
    (where_clause : option metadata)
| CallGet (where_clause : metadata)
| CallDelete (ids : list str).

Definition is_store_call (c : call) : bool :=
  match c with CallEncode _ => false | _ => true end.

(** The state a pipeline method runs in: the collaborators' state and the
    calls made so far, oldest first. *)
Record world (S : Type) : Type := mkWorld {
  env : S;
  calls : list call
}.
Arguments mkWorld {S} _ _.
Arguments env {S} _.
Arguments calls {S} _.

(** Sequencing of pure computations that may raise. *)
Definition rbind {A B} (r : result A) (k : A -> result B) : result B :=
  match r with
  | Ok a => k a
  | Raise e => Raise e
  end.

Notation "'let?' x ':=' r 'in' k" := (rbind r (fun x => k))
  (at level 10, x pattern, r at level 100, k at level 200).

(** [[f x for x in l]], stopping at the first exception. *)
Fixpoint traverse {A B} (f : A -> result B) (l : list A) : result (list B) :=
  match l with
  | [] => Ok []
  | x :: l' =>
      let? y := f x in
      let? ys := traverse f l' in
      Ok (y :: ys)
  end.

(** ** The monad of pipeline methods: state and exceptions *)

Definition M (S A : Type) : Type := world S -> result A * world S.

Definition ret {S A} (a : A) : M S A := fun w => (Ok a, w).

Definition bind {S A B} (m : M S A) (k : A -> M S B) : M S B :=
  fun w =>
    match m w with
    | (Ok a, w') => k a w'
    | (Raise e, w') => (Raise e, w')
    end.

Notation "'let*' x ':=' m 'in' k" := (bind m (fun x => k))
  (at level 10, x pattern, m at level 100, k at level 200).

(** A pure computation that may raise. *)
Definition lift {S A} (r : result A) : M S A := fun w => (r, w).

(** [try: m  except Exception as e: h e]. *)
Definition try_except {S A} (m : M S A) (h : exn -> M S A) : M S A :=
  fun w =>
    match m w with
    | (Ok a, w') => (Ok a, w')
    | (Raise e, w') => h e w'
    end.

(** [for x in l: acc = body acc x]. *)
Fixpoint for_each {S A B} (l : list A) (body : B -> A -> M S B) (acc : B) : M S B :=
  match l with
  | [] => ret acc
  | x :: l' => let* acc' := body acc x in for_each l' body acc'
  end.

(** [enumerate(l)], counting from [i]. *)
Fixpoint enumerate_from {A} (i : nat) (l : list A) : list (nat * A) :=
  match l with
  | [] => []
  | x :: l' => (i, x) :: enumerate_from (S i) l'
  end.

(** [zip(xs, ys)]: as long as the shorter argument. *)
Fixpoint py_zip {A B} (xs : list A) (ys : list B) : list (A * B) :=
  match xs, ys with
  | x :: xs', y :: ys' => (x, y) :: py_zip xs' ys'
  | _, _ => []
  end.

(** ** [list.sort]

    [list.sort] compares with [<] only.  What follows is the sort of
    CPython 3.11 ([listobject.c]), function by function.  [count_run] finds
    the run the list starts with, ascending ([not (x[i+1] < x[i])]
    throughout) or strictly descending; a descending run is reversed; a run
    shorter than [minrun] is made [minrun] long by [binarysort], which
    inserts the next elements one after the other, each at the place a
    binary search gives.  The runs wait on a stack, and runs that follow
    each other are merged, by [merge_lo] from the left or [merge_hi] from
    the right, both of which gallop ([gallop_left], [gallop_right]) once
    one run has won [min_gallop] times in a row; which runs are merged
    when is decided by their powers ([powerloop]), and
    [merge_force_collapse] merges what is left at the end.  A list of fewer
    than 64 elements has [minrun] elements and is one run.  With
    [reverse=True] the list is reversed before and after, which keeps the
    sort stable.

    Loops are written with fuel: each turn of a search shortens its
    interval, each turn of a merge takes an element, each turn of the main
    loop takes a run, and the fuel given is the length concerned, never
    used up. *)

Section ListSort.

Context {A : Type} (lt : A -> A -> bool).

(** *** Runs and [binarysort] *)

(** How far the run goes on behind [prev]. *)
Fixpoint run_tail (descending : bool) (prev : A) (l : list A) : nat :=
  match l with
  | [] => 0%nat
  | x :: l' =>
      if Bool.eqb (lt x prev) descending then S (run_tail descending x l')
      else 0%nat
  end.

(** [count_run]: the length of the run the list starts with, and whether
    it is descending; the second element decides: descending when it is
    smaller than the first. *)
Definition count_run (l : list A) : nat * bool :=
  match l with
  | [] => (0%nat, false)
  | [x] => (1%nat, false)
  | x :: y :: l' =>
      let descending := lt y x in
      ((2 + run_tail descending y l')%nat, descending)
  end.

(** The search of [binarysort] for the place of [pivot] among the sorted
    elements from [l] up to [r]: right of the elements equal to it. *)
Fixpoint binary_search (fuel : nat) (sorted : list A) (pivot : A)
    (l r : nat) : nat :=
  match fuel with
  | O => l
  | S fuel' =>
      let p := (l + (r - l) / 2)%nat in
      match sorted !! p with
      | None => l
      | Some x =>
          if lt pivot x then
            if (l <? p)%nat then binary_search fuel' sorted pivot l p else l
          else
            if (S p <? r)%nat then binary_search fuel' sorted pivot (S p) r
            else S p
      end
  end.

(** One turn of [binarysort]: [pivot], the element behind the sorted
    ones, is put where the search says. *)
Definition binary_insert (sorted : list A) (pivot : A) : list A :=
  let k := binary_search (length sorted) sorted pivot 0 (length sorted) in
  take k sorted ++ pivot :: drop k sorted.

(** [binarysort]: [run] is sorted already, the elements of [rest] are
    inserted one after the other. *)
Definition binarysort (run rest : list A) : list A :=
  fold_left binary_insert rest run.

(** *** Galloping *)

(** [MIN_GALLOP]. *)
Definition MIN_GALLOP : nat := 7.

(** The first loop of [gallop_left] and [gallop_right]: the offset from
    the hint grows, 1, 3, 7, ..., as long as it is below [maxofs] and the
    element at it tells to go on. *)
Fixpoint gallop_ofs (fuel : nat) (go_on : nat -> bool)
    (maxofs lastofs ofs : nat) : nat * nat :=
  match fuel with
  | O => (lastofs, ofs)
  | S fuel' =>
      if (ofs <? maxofs)%nat && go_on ofs
      then gallop_ofs fuel' go_on maxofs ofs (2 * ofs + 1)%nat
      else (lastofs, ofs)
  end.

(** Their second loop, a binary search between [lastofs] and [ofs]. *)
Fixpoint gallop_bisect (fuel : nat) (right : nat -> bool)
    (lastofs ofs : nat) : nat :=
  match fuel with
  | O => ofs
  | S fuel' =>
      if (lastofs <? ofs)%nat then
        let m := (lastofs + (ofs - lastofs) / 2)%nat in
        if right m then gallop_bisect fuel' right (S m) ofs
        else gallop_bisect fuel' right lastofs m
      else ofs
  end.

(** The two loops, from the element at [hint], of which [right_of] tells
    whether the place looked for is to its right. *)
Definition gallop_from (right_of : nat -> bool) (n hint : nat) : nat :=
  if right_of hint then
    let maxofs := (n - hint)%nat in
    let '(lastofs, ofs) :=
      gallop_ofs n (fun o => right_of (hint + o)%nat) maxofs 0 1 in
    let ofs := Nat.min ofs maxofs in
    gallop_bisect n right_of (S (lastofs + hint)) (ofs + hint)%nat
  else
    let maxofs := S hint in
    let '(lastofs, ofs) :=
      gallop_ofs n (fun o => negb (right_of (hint - o)%nat)) maxofs 0 1 in
    let ofs := Nat.min ofs maxofs in
    gallop_bisect n right_of (S hint - ofs)%nat (hint - lastofs)%nat.

(** [right x] tells that the place looked for is to the right of [x]. *)
Definition gallop (right : A -> bool) (a : list A) (hint : nat) : nat :=
  gallop_from
    (fun i => match a !! i with Some x => right x | None => false end)
    (length a) hint.

(** [gallop_left]: where [key] belongs in [a], left of equal elements. *)
Definition gallop_left (key : A) (a : list A) (hint : nat) : nat :=
  gallop (fun x => lt x key) a hint.

(** [gallop_right]: where [key] belongs in [a], right of equal elements. *)
Definition gallop_right (key : A) (a : list A) (hint : nat) : nat :=
  gallop (fun x => negb (lt key x)) a hint.

(** *** Merging *)

(** [min_gallop -= min_gallop > 1]. *)
Definition shrink (min_gallop : nat) : nat :=
  if (1 <? min_gallop)%nat then pred min_gallop else min_gallop.

(** The loop of [merge_lo], from the left.  [acc] is the merged part, [ra]
    and [rb] are what is left of the two runs; [ms] is
    [ms->min_gallop]. *)
Fixpoint merge_lo_loop (fuel : nat) (galloping : bool) (acc ra rb : list A)
    (min_gallop ms acount bcount : nat) : list A * nat :=
  match fuel with
  | O => (acc ++ ra ++ rb, ms)
  | S fuel' =>
      match ra, rb with
      | a0 :: ra', b0 :: rb' =>
          if galloping then
            let min_gallop := shrink min_gallop in
            let k := gallop_right b0 ra 0 in
            let acc := acc ++ take k ra in
            let ra := drop k ra in
            if negb (k =? 0)%nat && (length ra =? 1)%nat
            then (acc ++ rb ++ ra, min_gallop)
            else if negb (k =? 0)%nat && (length ra =? 0)%nat
            then (acc ++ rb, min_gallop)
            else
              let acc := acc ++ [b0] in
              match rb', ra with
              | [], _ => (acc ++ ra, min_gallop)
              | _, [] => (acc ++ rb', min_gallop)
              | _, a0 :: ra' =>
                  let k2 := gallop_left a0 rb' 0 in
                  let acc := acc ++ take k2 rb' in
                  let rb := drop k2 rb' in
                  if negb (k2 =? 0)%nat && (length rb =? 0)%nat
                  then (acc ++ ra, min_gallop)
                  else
                    let acc := acc ++ [a0] in
                    if (length ra' =? 1)%nat
                    then (acc ++ rb ++ ra', min_gallop)
                    else if (MIN_GALLOP <=? k)%nat || (MIN_GALLOP <=? k2)%nat
                    then merge_lo_loop fuel' true acc ra' rb
                           min_gallop min_gallop 0 0
                    else merge_lo_loop fuel' false acc ra' rb
                           (S min_gallop) (S min_gallop) 0 0
              end
          else if lt b0 a0 then
            let acc := acc ++ [b0] in
            match rb' with
            | [] => (acc ++ ra, ms)
            | _ =>
                if (min_gallop <=? S bcount)%nat
                then merge_lo_loop fuel' true acc ra rb' (S min_gallop) ms 0 0
                else merge_lo_loop fuel' false acc ra rb' min_gallop ms
                       0 (S bcount)
            end
          else
            let acc := acc ++ [a0] in
            if (length ra' =? 1)%nat then (acc ++ rb ++ ra', ms)
            else if (min_gallop <=? S acount)%nat
            then merge_lo_loop fuel' true acc ra' rb (S min_gallop) ms 0 0
            else merge_lo_loop fuel' false acc ra' rb min_gallop ms
                   (S acount) 0
      | _, _ => (acc ++ ra ++ rb, ms)
      end
  end.

(** [merge_lo]: the first element of [b] goes first. *)
Definition merge_lo (a b : list A) (ms : nat) : list A * nat :=
  match b with
  | [] => (a, ms)
  | b0 :: rb =>
      match rb with
      | [] => (b0 :: a, ms)
      | _ =>
          if (length a =? 1)%nat then (b0 :: rb ++ a, ms)
          else merge_lo_loop (length a + length b) false [b0] a rb ms ms 0 0
      end
  end.

(** A list without its last element, and that element. *)
Definition unsnoc (l : list A) : option (list A * A) :=
  match rev l with
  | [] => None
  | x :: r => Some (rev r, x)
  end.

(** The loop of [merge_hi], from the right: [acc] is the merged part, the
    right end of the result. *)
Fixpoint merge_hi_loop (fuel : nat) (galloping : bool) (acc ra rb : list A)
    (min_gallop ms acount bcount : nat) : list A * nat :=
  match fuel with
  | O => (ra ++ rb ++ acc, ms)
  | S fuel' =>
      match unsnoc ra, unsnoc rb with
      | Some (ra', a1), Some (rb', b1) =>
          if galloping then
            let min_gallop := shrink min_gallop in
            let na := length ra in
            let k := (na - gallop_right b1 ra (na - 1))%nat in
            let acc := drop (na - k) ra ++ acc in
            let ra := take (na - k) ra in
            if negb (k =? 0)%nat && (length ra =? 0)%nat
            then (rb ++ acc, min_gallop)
            else
              let acc := b1 :: acc in
              if (length rb' =? 1)%nat then (rb' ++ ra ++ acc, min_gallop)
              else
                match unsnoc ra with
                | None => (rb' ++ acc, min_gallop)
                | Some (ra', a1) =>
                    let nb := length rb' in
                    let k2 := (nb - gallop_left a1 rb' (nb - 1))%nat in
                    let acc := drop (nb - k2) rb' ++ acc in
                    let rb := take (nb - k2) rb' in
                    if negb (k2 =? 0)%nat && (length rb =? 1)%nat
                    then (rb ++ ra ++ acc, min_gallop)
                    else if negb (k2 =? 0)%nat && (length rb =? 0)%nat
                    then (ra ++ acc, min_gallop)
                    else
                      let acc := a1 :: acc in
                      match ra' with
                      | [] => (rb ++ acc, min_gallop)
                      | _ =>
                          if (MIN_GALLOP <=? k)%nat || (MIN_GALLOP <=? k2)%nat
                          then merge_hi_loop fuel' true acc ra' rb
                                 min_gallop min_gallop 0 0
                          else merge_hi_loop fuel' false acc ra' rb
                                 (S min_gallop) (S min_gallop) 0 0
                      end
                end
          else if lt b1 a1 then
            let acc := a1 :: acc in
            match ra' with
            | [] => (rb ++ acc, ms)
            | _ =>
                if (min_gallop <=? S acount)%nat
                then merge_hi_loop fuel' true acc ra' rb (S min_gallop) ms 0 0
                else merge_hi_loop fuel' false acc ra' rb min_gallop ms
                       (S acount) 0
            end
          else
            let acc := b1 :: acc in
            if (length rb' =? 1)%nat then (rb' ++ ra ++ acc, ms)
            else if (min_gallop <=? S bcount)%nat
            then merge_hi_loop fuel' true acc ra rb' (S min_gallop) ms 0 0
            else merge_hi_loop fuel' false acc ra rb' min_gallop ms
                   0 (S bcount)
      | _, _ => (ra ++ rb ++ acc, ms)
      end
  end.

(** [merge_hi]: the last element of [a] goes last. *)
Definition merge_hi (a b : list A) (ms : nat) : list A * nat :=
  match unsnoc a with
  | None => (b, ms)
  | Some (ra, a1) =>
      match ra with
      | [] => (b ++ [a1], ms)
      | _ =>
          if (length b =? 1)%nat then (b ++ ra ++ [a1], ms)
          else merge_hi_loop (length a + length b) false [a1] ra b ms ms 0 0
      end
  end.

(** [merge_at] on two runs that follow each other: the elements of [a]
    that stay in front and the elements of [b] that stay behind are left
    out of the merge. *)
Definition merge_runs (a b : list A) (ms : nat) : list A * nat :=
  match b, unsnoc a with
  | b0 :: _, Some _ =>
      let k := gallop_right b0 a 0 in
      let a2 := drop k a in
      match unsnoc a2 with
      | None => (a ++ b, ms)
      | Some (_, a1) =>
          let nb := gallop_left a1 b (length b - 1) in
          if (nb =? 0)%nat then (a ++ b, ms)
          else
            let '(m, ms) :=
              if (length a2 <=? nb)%nat then merge_lo a2 (take nb b) ms
              else merge_hi a2 (take nb b) ms in
            (take k a ++ m ++ drop nb b, ms)
      end
  | _, _ => (a ++ b, ms)
  end.

(** *** The runs waiting to be merged *)

(** [powerloop]. *)
Fixpoint powerloop (fuel a b n result : nat) : nat :=
  match fuel with
  | O => result
  | S fuel' =>
      if (n <=? a)%nat
      then powerloop fuel' (2 * (a - n))%nat (2 * (b - n))%nat n (S result)
      else if (n <=? b)%nat then S result
      else powerloop fuel' (2 * a)%nat (2 * b)%nat n (S result)
  end.

Definition power_of (s1 n1 n2 n : nat) : nat :=
  let a := (2 * s1 + n1)%nat in
  powerloop (S (S n)) a (a + n1 + n2)%nat n 0.

(** A run with its power; the last run is the head of the list. *)
Definition pending : Type := list (list A * nat).

(** The loop of [found_new_run]: the two last runs are merged as long as
    the power of the second last is greater than [power]. *)
Fixpoint merge_pending (fuel power : nat) (p : pending) (ms : nat)
    : pending * nat :=
  match fuel with
  | O => (p, ms)
  | S fuel' =>
      match p with
      | (rb, _) :: (ra, pa) :: rest =>
          if (power <? pa)%nat then
            let '(m, ms) := merge_runs ra rb ms in
            merge_pending fuel' power ((m, pa) :: rest) ms
          else (p, ms)
      | _ => (p, ms)
      end
  end.

Definition found_new_run (p : pending) (n2 listlen ms : nat)
    : pending * nat :=
  match p with
  | [] => (p, ms)
  | (r, _) :: rest =>
      let s1 := length (concat (map fst rest)) in
      let power := power_of s1 (length r) n2 listlen in
      let '(p, ms) := merge_pending (length p) power p ms in
      match p with
      | [] => (p, ms)
      | (r, _) :: rest => ((r, power) :: rest, ms)
      end
  end.

(** [merge_force_collapse]. *)
Fixpoint merge_force_collapse (fuel : nat) (p : pending) (ms : nat)
    : pending :=
  match fuel with
  | O => p
  | S fuel' =>
      match p with
      | (r2, p2) :: (r1, p1) :: rest =>
          match rest with
          | (r0, p0) :: rest' =>
              if (length r0 <? length r2)%nat then
                let '(m, ms) := merge_runs r0 r1 ms in
                merge_force_collapse fuel' ((r2, p2) :: (m, p0) :: rest') ms
              else
                let '(m, ms) := merge_runs r1 r2 ms in
                merge_force_collapse fuel' ((m, p1) :: rest) ms
          | [] =>
              let '(m, ms) := merge_runs r1 r2 ms in
              merge_force_collapse fuel' ((m, p1) :: rest) ms
          end
      | _ => p
      end
  end.

(** [merge_compute_minrun]. *)
Fixpoint minrun_loop (fuel n r : nat) : nat :=
  match fuel with
  | O => (n + r)%nat
  | S fuel' =>
      if (64 <=? n)%nat
      then minrun_loop fuel' (n / 2)%nat (Nat.lor r (n mod 2))
      else (n + r)%nat
  end.

Definition merge_compute_minrun (n : nat) : nat := minrun_loop n n 0.

(** The main loop of [list.sort]: the next run is counted, reversed when
    descending, made [minrun] long by [binarysort] when shorter, and put
    on the pending runs. *)
Fixpoint runs_loop (fuel minrun listlen : nat) (rem : list A) (p : pending)
    (ms : nat) : pending * nat :=
  match fuel with
  | O => ((rem, 0%nat) :: p, ms)
  | S fuel' =>
      match rem with
      | [] => (p, ms)
      | _ =>
          let '(n, descending) := count_run rem in
          let run := take n rem in
          let run := if descending then rev run else run in
          let force := Nat.min minrun (length rem) in
          let '(run, n) :=
            if (n <? minrun)%nat
            then (binarysort run (take (force - n) (drop n rem)), force)
            else (run, n) in
          let '(p, ms) := found_new_run p n listlen ms in
          runs_loop fuel' minrun listlen (drop n rem) ((run, 0%nat) :: p) ms
      end
  end.

Definition list_sort_with (minrun : nat) (l : list A) : list A :=
  if (length l <? 2)%nat then l
  else
    let '(p, ms) :=
      runs_loop (S (length l)) minrun (length l) l [] MIN_GALLOP in
    concat (rev (map fst (merge_force_collapse (length p) p ms))).

Definition list_sort (l : list A) : list A :=
  list_sort_with (merge_compute_minrun (length l)) l.

End ListSort.

(** [l.sort(key=key, reverse=True)] for float keys: the list is reversed,
    sorted by [<] on the keys, and reversed again. *)
Definition sort_desc {A} (key : A -> float) (l : list A) : list A :=
  rev (list_sort (fun a b => PrimFloat.ltb (key a) (key b)) (rev l)).

(** The stable descending sort written out, by insertion from the right:
    an element moves in front of another only when its key is strictly
    greater.  [insert_desc x l] puts [x], which came before all of [l],
    into the sorted [l]. *)
Fixpoint insert_desc {A} (key : A -> float) (x : A) (l : list A) : list A :=
  match l with
  | [] => [x]
  | y :: l' =>
      if PrimFloat.ltb (key x) (key y) then y :: insert_desc key x l'
      else x :: y :: l'
  end.

Definition insertion_sort_desc {A} (key : A -> float) (l : list A) : list A :=
  fold_right (insert_desc key) [] l.

(** The same for any [<], ascending, as [list.sort] is to be compared
    with before it is reversed. *)
Section StableSort.

Context {A : Type} (lt : A -> A -> bool).

(** [insert_asc s y] puts [y], which came behind all of [s], into the
    sorted [s]: in front of the first element greater than it. *)
Fixpoint insert_asc (s : list A) (y : A) : list A :=
  match s with
  | [] => [y]
  | x :: s' => if lt y x then y :: x :: s' else x :: insert_asc s' y
  end.

Definition insertion_sort_asc (l : list A) : list A :=
  fold_left insert_asc l [].

(** The stable merge of two sorted lists, the elements of [a] having come
    before those of [b]: an element of [b] goes first only when it is
    smaller. *)
Fixpoint stable_merge (a : list A) : list A -> list A :=
  match a with
  | [] => fun b => b
  | x :: a' =>
      fix inner (b : list A) : list A :=
        match b with
        | [] => x :: a'
        | y :: b' =>
            if lt y x then y :: inner b' else x :: stable_merge a' b
        end
  end.

(** [s] is sorted, no element smaller than one before it, and all its
    elements are among those [<] orders ([P]: the key is no NaN). *)
Definition ascending (P : A -> Prop) (s : list A) : Prop :=
  StronglySorted (fun a b => lt b a = false) s /\ Forall P s.

(** The elements of the pending runs, in the order of the list. *)
Definition flat (p : pending) : list A := concat (rev (map fst p)).

Definition runs_ascending (P : A -> Prop) (p : pending) : Prop :=
  Forall (fun r : list A * nat => ascending P r.1) p.

End StableSort.

(** ** AdvancedRAGPipeline *)

(** The four lists [add_document] fills and hands to [collection.add]. *)
Record batch : Type := mkBatch {
  chunk_ids : list str;
  chunk_documents : list str;
  chunk_embeddings : list embedding;
  chunk_metadata : list metadata
}.

Definition empty_batch : batch := mkBatch [] [] [] [].

(** [f"{doc_id}_chunk_{i}"]. *)
Definition chunk_id_of (doc_id : str) (i : nat) : str :=
  doc_id ++ u "_chunk_" ++ str_of_int (Z.of_nat i).

(** [{**metadata, "parent_doc_id": ..., "chunk_index": ..., "chunk_count":
    ..., "timestamp": ...}]: later keys win. *)
Definition chunk_meta_of (meta : metadata) (doc_id : str) (i n : nat)
    (timestamp : str) : metadata :=
  <[k_timestamp := VStr timestamp]>
    (<[k_chunk_count := VInt (Z.of_nat n)]>
       (<[k_chunk_index := VInt (Z.of_nat i)]>
          (<[k_parent_doc_id := VStr doc_id]> meta))).

(** [filter_metadata if filter_metadata else None]: an empty filter counts
    as no filter. *)
Definition where_clause_of (filter_metadata : option metadata)
    : option metadata :=
  match filter_metadata with
  | Some m => if decide (m = ∅) then None else Some m
  | None => None
  end.

(** [1 - distance if distance is not None else 0.0]. *)
Definition score_of (distance : option float) : float :=
  match distance with
  | Some d => PrimFloat.sub 1 d
  | None => 0%float
  end.

(** What one turn of the loop of [search] reads from the answer of
    [collection.query]: id, document, metadata and distance at position
    [i] of the first inner lists, and the score made of the distance. *)
Definition hit_at (results : QueryResponse) (i : nat) : result QueryResult :=
  let? ids0 := Py.index (qr_ids results) 0 in
  let? doc_id := Py.index ids0 i in
  let? docs0 := Py.index (qr_documents results) 0 in
  let? content := Py.index docs0 i in
  let? metas0 := Py.index (qr_metadatas results) 0 in
  let? meta := Py.index metas0 i in
  let? distance :=
    match qr_distances results with
    | Some ds =>
        let? ds0 := Py.index ds 0 in
        let? d := Py.index ds0 i in
        Ok (Some d)
    | None => Ok None
    end in
  Ok (mkQueryResult doc_id content (score_of distance) meta).

Section Pipeline.

Context {S : Type} (B : Backend S).

(** *** Calls to the collaborators, recorded in [calls] *)

Definition record_call {A} (c : call) (op : S -> result A * S) : M S A :=
  fun w =>
    let '(r, s') := op (env w) in
    (r, mkWorld s' (calls w ++ [c])).

Definition encode (texts : list str) : M S (list embedding) :=
  record_call (CallEncode texts) (model_encode B texts).

Definition compute_similarity (e1 e2 : embedding) : M S float :=
  lift (cosine_similarity B e1 e2).

Definition coll_add (b : batch) : M S unit :=
  record_call
    (CallAdd (chunk_ids b) (chunk_documents b) (chunk_embeddings b)
       (chunk_metadata b))
    (collection_add B (chunk_ids b) (chunk_documents b) (chunk_embeddings b)
       (chunk_metadata b)).

Definition coll_query (e : embedding) (n : Z) (wh : option metadata)
    : M S QueryResponse :=
  record_call (CallQuery e n wh) (collection_query B e n wh).

Definition coll_get (wh : metadata) : M S (list str) :=
  record_call (CallGet wh) (collection_get B wh).

Definition coll_delete (ids : list str) : M S unit :=
  record_call (CallDelete ids) (collection_delete B ids).

Definition now : M S str :=
  fun w => let '(t, s') := now_isoformat B (env w) in (Ok t, mkWorld s' (calls w)).

Definition fresh_uuid : M S str :=
  fun w => let '(t, s') := uuid4 B (env w) in (Ok t, mkWorld s' (calls w)).

(** *** add_document *)

(** The body of the loop over [enumerate(zip(chunks, embeddings))]. *)
Definition add_document_step (doc_id : str) (meta : metadata) (n : nat)
    (b : batch) (item : nat * (str * embedding)) : M S batch :=
  let '(i, (chunk, emb)) := item in
  let chunk_id := chunk_id_of doc_id i in
  let* timestamp := now in
  ret (mkBatch (chunk_ids b ++ [chunk_id])
         (chunk_documents b ++ [chunk])
         (chunk_embeddings b ++ [emb])
         (chunk_metadata b ++ [chunk_meta_of meta doc_id i n timestamp])).

Definition add_document (content : str) (doc_id : option str)
    (meta : option metadata) (chunk_size : Z) : M S (list str) :=
  let* doc_id :=
    match doc_id with
    | None => fresh_uuid
    | Some d => ret d
    end in
  let meta := match meta with None => ∅ | Some m => m end in
  let* chunks := lift (process_document content chunk_size) in
  let* embeddings := encode chunks in
  let* b :=
    for_each (enumerate_from 0 (py_zip chunks embeddings))
      (add_document_step doc_id meta (length chunks)) empty_batch in
  let* _ := coll_add b in
  ret (chunk_ids b).

(** *** add_documents_batch *)

(** The body of the loop over the documents of one batch. *)
Definition batch_step (chunk_size : Z) (batch_ids : list str)
    (doc : Document) : M S (list str) :=
  let* ids :=
    add_document (doc_content doc) (Some (doc_id doc))
      (Some (doc_metadata doc)) chunk_size in
  ret (batch_ids ++ ids).

(** The body of the loop over [range(0, len(documents), batch_size)]. *)
Definition batches_step (documents : list Document)
    (chunk_size batch_size : Z) (all_chunk_ids : list str) (i : Z)
    : M S (list str) :=
  let batch := Py.slice documents i (i + batch_size) in
  let* batch_ids := for_each batch (batch_step chunk_size) [] in
  ret (all_chunk_ids ++ batch_ids).

Definition add_documents_batch (documents : list Document)
    (chunk_size batch_size : Z) : M S (list str) :=
  let* starts :=
    lift (Py.range 0 (Z.of_nat (length documents)) batch_size) in
  for_each starts (batches_step documents chunk_size batch_size) [].

(** *** search *)

(** The body of the loop over [range(len(results['ids'][0]))]: the hit
    at position [i] is read and scored, and appended when its score
    reaches [min_similarity]. *)
Definition search_step (results : QueryResponse) (min_similarity : float)
    (query_results : list QueryResult) (i : nat) : M S (list QueryResult) :=
  let* hit := lift (hit_at results i) in
  if PrimFloat.leb min_similarity (similarity_score hit) then
    ret (query_results ++ [hit])
  else ret query_results.

Definition search (query : str) (n_results : Z)
    (filter_metadata : option metadata) (min_similarity : float)
    : M S (list QueryResult) :=
  let* embs := encode [query] in
  let* query_embedding := lift (Py.index embs 0) in
  let where_clause := where_clause_of filter_metadata in
  let* results := coll_query query_embedding n_results where_clause in
  let* ids0 := lift (Py.index (qr_ids results) 0) in
  for_each (seq 0 (length ids0)) (search_step results min_similarity) [].

(** *** delete_document and update_document *)

Definition delete_document (doc_id : str) : M S bool :=
  try_except
    (let* ids := coll_get {[ k_parent_doc_id := VStr doc_id ]} in
     if truthy ids then
       let* _ := coll_delete ids in
       ret true
     else ret false)
    (fun _ => ret false).

Definition update_document (doc_id : str) (new_content : str)
    (new_metadata : option metadata) (chunk_size : Z) : M S (list str) :=
  let* _ := delete_document doc_id in
  add_document new_content (Some doc_id) new_metadata chunk_size.

(** *** semantic_search_with_reranking *)

Definition with_score (r : QueryResult) (s : float) : QueryResult :=
  mkQueryResult (document_id r) (content r) s (result_metadata r).

Definition rerank_step (query_embedding : embedding)
    (reranked : list QueryResult) (r : QueryResult) : M S (list QueryResult) :=
  let* embs := encode [content r] in
  let* doc_embedding := lift (Py.index embs 0) in
  let* similarity := compute_similarity query_embedding doc_embedding in
  ret (reranked ++ [with_score r similarity]).

Definition semantic_search_with_reranking (query : str)
    (n_results rerank_top_k : Z) : M S (list QueryResult) :=
  let* initial_results := search query n_results None 0%float in
  if truthy initial_results then
    let* embs := encode [query] in
    let* query_embedding := lift (Py.index embs 0) in
    let* reranked :=
      for_each initial_results (rerank_step query_embedding) [] in
    ret (Py.slice (sort_desc similarity_score reranked) 0 rerank_top_k)
  else ret [].

End Pipeline.

(** ** Vocabulary of the statements *)

(** The metadata [add_document] builds for the chunks numbered from [i],
    given the timestamps the clock produced. *)
Definition metas_of (meta : metadata) (d : str) (n i : nat) (stamps : list str)
    : list metadata :=
  map (fun kt : nat * str => chunk_meta_of meta d (fst kt) n (snd kt))
    (enumerate_from i stamps).


(** The document id [add_document] works with: the one given, or a fresh
    UUID. *)
Definition resolved_id {S} (B : Backend S) (doc_id : option str) (w : world S)
    : str :=
  match doc_id with
  | Some d => d
  | None => fst (uuid4 B (env w))
  end.

(** The state in which [add_document] starts chunking: a UUID has been
    drawn when no id was given. *)
Definition after_id {S} (B : Backend S) (doc_id : option str) (w : world S)
    : world S :=
  match doc_id with
  | Some _ => w
  | None => mkWorld (snd (uuid4 B (env w))) (calls w)
  end.

Definition meta_or_empty (meta : option metadata) : metadata :=
  match meta with None => ∅ | Some m => m end.

(** The batch [add_document] hands to [collection.add]. *)
Definition batch_of (d : str) (meta : metadata) (chunks : list str)
    (embs : list embedding) (stamps : list str) : batch :=
  mkBatch
    (map (chunk_id_of d) (seq 0 (length (py_zip chunks embs))))
    (map fst (py_zip chunks embs))
    (map snd (py_zip chunks embs))
    (metas_of meta d (length chunks) 0 stamps).

(** [a] comes before an occurrence of [b] in a list. *)
Inductive precedes {A} (a b : A) : list A -> Prop :=
| precedes_here l : In b l -> precedes a b (a :: l)
| precedes_later x l : precedes a b l -> precedes a b (x :: l).

(** [b] may follow [a] in a descending order: its key is not strictly
    greater. *)
Definition no_ascent {A} (key : A -> float) (a b : A) : Prop :=
  PrimFloat.ltb (key a) (key b) = false.

(** No key of [l] is a NaN. *)
Definition numeric {A} (key : A -> float) (l : list A) : Prop :=
  Forall (fun a => PrimFloat.is_nan (key a) = false) l.

(** [out] is [l] sorted by descending float key, stably.  It holds the
    same elements; and when no key is a NaN, no element is followed by one
    with a strictly greater key, an element that came before another one
    and has no smaller key still comes before it, so that equal keys keep
    their order, and every element has a key at least as great as all that
    follow.  Every comparison with a NaN is false: with a NaN among the
    keys [<] orders nothing, and [out] is only said to hold the same
    elements. *)
Record stable_desc_sort {A} (key : A -> float) (l out : list A) : Prop := {
  sort_same_elements : Permutation out l;
  sort_no_ascent : numeric key l -> Sorted (no_ascent key) out;
  sort_stable : numeric key l ->
    forall a b,
      precedes a b l -> PrimFloat.ltb (key a) (key b) = false ->
      precedes a b out;
  sort_descending :
    numeric key l ->
    StronglySorted (fun a b => PrimFloat.leb (key b) (key a) = true) out
}.

(** [r'] is the candidate [r] with its score recomputed: the cosine
    similarity of the query embedding [qe] and the embedding the model
    gives for the text of [r]. *)
Definition rescored_from {S} (B : Backend S) (qe : embedding)
    (r r' : QueryResult) : Prop :=
  exists s s' embs de sim,
    model_encode B [content r] s = (Ok embs, s') /\
    embs !! 0%nat = Some de /\
    cosine_similarity B qe de = Ok sim /\
    r' = with_score r sim.

(** [qe] is an embedding the model gives for [query]. *)
Definition embedding_of {S} (B : Backend S) (query : str) (qe : embedding)
    : Prop :=
  exists s s' embs,
    model_encode B [query] s = (Ok embs, s') /\ embs !! 0%nat = Some qe.

(** Python's [<] on strings: lexicographic by code point. *)
Fixpoint str_ltb (a b : str) : bool :=
  match a, b with
  | [], [] => false
  | [], _ :: _ => true
  | _ :: _, [] => false
  | x :: a', y :: b' => (x <? y)%N || ((x =? y)%N && str_ltb a' b')
  end.

(** The order C6 of the specification asks of two consecutive results:
    descending score, and ascending chunk id among equal scores. *)
Definition score_then_id_order (a b : QueryResult) : Prop :=
  PrimFloat.ltb (similarity_score b) (similarity_score a) = true \/
  (PrimFloat.eqb (similarity_score a) (similarity_score b) = true /\
   str_ltb (document_id b) (document_id a) = false).

(** ** What the pipeline expects of its collaborators *)

(** Whether a record's metadata names [d] as its parent document: the
    filter [where={"parent_doc_id": d}]. *)
Definition has_parent (d : str) (m : metadata) : bool :=
  match m !! k_parent_doc_id with
  | Some (VStr p) => bool_decide (p = d)
  | _ => false
  end.

(** A record kept by the collection. *)
Record stored : Type := mkStored {
  rec_id : str;
  rec_document : str;
  rec_embedding : embedding;
  rec_metadata : metadata
}.

Section Contracts.

Context {S : Type} (B : Backend S).

(** The model gives one vector per text. *)
Definition encode_one_per_text : Prop :=
  forall texts s vs s',
    model_encode B texts s = (Ok vs, s') -> length vs = length texts.

(** [collection.query] gives at most [n_results] hits. *)
Definition query_bounded : Prop :=
  forall e n wh s r s' ids0,
    collection_query B e n wh s = (Ok r, s') ->
    qr_ids r !! 0%nat = Some ids0 ->
    Z.of_nat (length ids0) <= n.

(** [contents] reads the records of a collection state.  [get] with a
    parent filter lists the ids of the matching records and changes
    nothing; [delete] removes the records with the given ids. *)
Record store_contract (contents : S -> list stored) : Prop := {
  get_by_parent : forall d s ids s',
    collection_get B {[ k_parent_doc_id := VStr d ]} s = (Ok ids, s') ->
    contents s' = contents s /\
    ids = map rec_id
            (List.filter (fun r => has_parent d (rec_metadata r)) (contents s));
  delete_by_ids : forall ids s s',
    collection_delete B ids s = (Ok tt, s') ->
    contents s' =
      List.filter (fun r => negb (bool_decide (rec_id r ∈ ids))) (contents s)
}.

(** The collection answers [get] and [delete] without raising. *)
Definition store_available : Prop :=
  (forall wh s, is_ok (fst (collection_get B wh s)) = true) /\
  (forall ids s, is_ok (fst (collection_delete B ids s)) = true).

End Contracts.

(** ** A reference backend: an in-memory collection and a toy model *)

Module Ref.

Record state : Type := mkState {
  records : list stored;
  clock : nat;
  issued : nat
}.

Definition init : state := mkState [] 0 0.

(** The toy model: a text becomes the one-dimensional vector of its
    length plus one; texts listed in [down] make the model raise. *)
Definition embed (t : str) : embedding :=
  [PrimFloat.of_uint63 (Uint63.of_Z (Z.of_nat (length t) + 1))].

Definition encode (down : list str) (texts : list str) (s : state)
    : result (list embedding) * state :=
  if existsb (fun t => bool_decide (t ∈ down)) texts
  then (Raise (BackendError (u "model unavailable")), s)
  else (Ok (map embed texts), s).

Definition dot (a b : embedding) : float :=
  fold_left (fun acc '(x, y) => PrimFloat.add acc (PrimFloat.mul x y))
    (py_zip a b) 0%float.

Definition cosine (a b : embedding) : result float :=
  if negb (Nat.eqb (length a) (length b))
  then Raise (ValueError (u "Incompatible dimension"))
  else
    let na := PrimFloat.sqrt (dot a a) in
    let nb := PrimFloat.sqrt (dot b b) in
    if PrimFloat.eqb (PrimFloat.mul na nb) 0%float then Ok 0%float
    else Ok (PrimFloat.div (dot a b) (PrimFloat.mul na nb)).

Definition scalar_eqb (a b : scalar) : bool :=
  match a, b with
  | VStr x, VStr y => bool_decide (x = y)
  | VInt x, VInt y => Z.eqb x y
  | VFloat x, VFloat y => PrimFloat.eqb x y
  | VBool x, VBool y => Bool.eqb x y
  | _, _ => false
  end.

(** A [where] filter: every key of the filter is in the record's
    metadata with an equal value. *)
Definition where_matches (wh m : metadata) : bool :=
  forallb
    (fun kv : str * scalar =>
       match m !! fst kv with
       | Some v' => scalar_eqb v' (snd kv)
       | None => false
       end)
    (map_to_list wh).

Definition matches (wh : option metadata) (r : stored) : bool :=
  match wh with
  | None => true
  | Some f => where_matches f (rec_metadata r)
  end.

Fixpoint zip4 (ids docs : list str) (embs : list embedding)
    (metas : list metadata) : list stored :=
  match ids, docs, embs, metas with
  | i :: ids', d :: docs', e :: embs', m :: metas' =>
      mkStored i d e m :: zip4 ids' docs' embs' metas'
  | _, _, _, _ => []
  end.

Definition add (ids docs : list str) (embs : list embedding)
    (metas : list metadata) (s : state) : result unit * state :=
  (Ok tt, mkState (records s ++ zip4 ids docs embs metas) (clock s) (issued s)).

Definition similarity_to (q : embedding) (r : stored) : float :=
  match cosine q (rec_embedding r) with
  | Ok c => c
  | Raise _ => 0%float
  end.

Definition query (q : embedding) (n : Z) (wh : option metadata) (s : state)
    : result QueryResponse * state :=
  if n <=? 0 then (Raise (BackendError (u "n_results must be positive")), s)
  else
    let hits :=
      take (Z.to_nat n)
        (sort_desc (similarity_to q) (List.filter (matches wh) (records s))) in
    (Ok (mkQueryResponse
           [map rec_id hits]
           [map rec_document hits]
           [map rec_metadata hits]
           (Some [map (fun r => PrimFloat.sub 1 (similarity_to q r)) hits])),
     s).

Definition get (wh : metadata) (s : state) : result (list str) * state :=
  (Ok (map rec_id (List.filter (matches (Some wh)) (records s))), s).

Definition delete (ids : list str) (s : state) : result unit * state :=
  (Ok tt,
   mkState
     (List.filter (fun r => negb (bool_decide (rec_id r ∈ ids))) (records s))
     (clock s) (issued s)).

Definition now_isoformat (s : state) : str * state :=
  (u "t" ++ str_of_int (Z.of_nat (clock s)),
   mkState (records s) (Datatypes.S (clock s)) (issued s)).

Definition uuid4 (s : state) : str * state :=
  (u "uuid-" ++ str_of_int (Z.of_nat (issued s)),
   mkState (records s) (clock s) (Datatypes.S (issued s))).

(** The backend whose model is down for the texts in [down]. *)
Definition backend (down : list str) : Backend state :=
  mkBackend state (encode down) cosine add query get delete
    now_isoformat uuid4.

Definition start : world state := mkWorld init [].

End Ref.


(** ** Sample data *)

Module Sample.

Definition d1 : Document :=
  mkDocument (u "d1") (u "alpha beta gamma delta") ∅ (u "2024-01-01T00:00:00").
Definition bad : Document :=
  mkDocument (u "d2") (u "bad") ∅ (u "2024-01-01T00:00:00").
Definition d3 : Document :=
  mkDocument (u "d3") (u "epsilon") ∅ (u "2024-01-01T00:00:00").

(** The reference world after [d1] was ingested with [chunk_size = 52],
    which gives the two chunks [d1_chunk_0] and [d1_chunk_1]. *)
Definition with_d1 : world Ref.state :=
  snd (add_document (Ref.backend []) (doc_content d1) (Some (doc_id d1))
         (Some (doc_metadata d1)) 52 Ref.start).

(** What a search for ["alpha"] finds in [with_d1]. *)
Definition found : list QueryResult :=
  match fst (search (Ref.backend []) (u "alpha") 2 None 0%float with_d1) with
  | Ok rs => rs
  | Raise _ => []
  end.

Definition doc_b : Document :=
  mkDocument (u "b") (u "x y") ∅ (u "2024-01-01T00:00:00").
Definition doc_a : Document :=
  mkDocument (u "a") (u "x z") ∅ (u "2024-01-01T00:00:00").

(** The reference world after [doc_b], then [doc_a], were ingested. *)
Definition with_b_a : world Ref.state :=
  snd (add_documents_batch (Ref.backend []) [doc_b; doc_a] 500 100 Ref.start).

(** What reranking the two best hits for ["x"] returns in [with_b_a]. *)
Definition reranked : list QueryResult :=
  match fst (semantic_search_with_reranking (Ref.backend []) (u "x") 2 2
               with_b_a) with
  | Ok rs => rs
  | Raise _ => []
  end.

End Sample.

(** ** Proof automation *)

(** Case analysis on every comparison of integers or positives in sight. *)
Ltac cmp_cases :=
  repeat match goal with
         | H : context [Pos.compare_cont Eq ?a ?b] |- _ =>
             change (Pos.compare_cont Eq a b) with (Pos.compare a b) in H;
             destruct (Pos.compare_spec a b)
         | |- context [Pos.compare_cont Eq ?a ?b] =>
             change (Pos.compare_cont Eq a b) with (Pos.compare a b);
             destruct (Pos.compare_spec a b)
         | H : context [Z.compare ?a ?b] |- _ => destruct (Z.compare_spec a b)
         | |- context [Z.compare ?a ?b] => destruct (Z.compare_spec a b)
         end.


(** ** Vocabulary of the further properties *)

(** A blank string: nothing but whitespace. *)
Definition blank (s : str) : Prop := Forall (fun c => is_space c = true) s.

(** The metadata keys [add_document] writes into every chunk. *)
Definition lineage_keys : list str :=
  [k_parent_doc_id; k_chunk_index; k_chunk_count; k_timestamp].

(** A decimal digit. *)
Definition is_digit (c : char) : Prop := (48 <= c <= 57)%N.
Definition digit_char (a : ascii) : Prop := (48 <= N_of_ascii a <= 57)%N.

(** A variant of the reference backend whose model gives back one vector
    only, however many texts it is given. *)
Definition lossy_backend : Backend Ref.state :=
  mkBackend Ref.state
    (fun texts s => (Ok (take 1 (map Ref.embed texts)), s))
    Ref.cosine Ref.add Ref.query Ref.get Ref.delete
    Ref.now_isoformat Ref.uuid4.

(** The ids [add_documents_batch] returns for one document: one per chunk
    of its content. *)
Definition expected_ids (chunk_size : Z) (doc : Document) : list str :=
  match process_document (doc_content doc) chunk_size with
  | Ok chunks => map (chunk_id_of (doc_id doc)) (seq 0 (length chunks))
  | Raise _ => []
  end.

(** The records made of the four lists handed to [collection.add]. *)
Definition records_of_batch (ids docs : list str) (embs : list embedding)
    (metas : list metadata) : list stored :=
  Ref.zip4 ids docs embs metas.

(** The ids of the records whose parent document is [d]. *)
Definition matching_ids (d : str) (rs : list stored) : list str :=
  map rec_id (List.filter (fun r => has_parent d (rec_metadata r)) rs).

Section MoreContracts.

Context {S : Type} (B : Backend S).

(** What ingestion expects of the collaborators, [contents] reading the
    records of a state: a returning [add] appends the records of its
    batch, and neither the model, nor the clock, nor the UUID source
    touches the records. *)
Record ingest_contract (contents : S -> list stored) : Prop := {
  add_appends : forall ids docs embs metas s s',
    collection_add B ids docs embs metas s = (Ok tt, s') ->
    contents s' = contents s ++ records_of_batch ids docs embs metas;
  encode_keeps : forall texts s,
    contents (snd (model_encode B texts s)) = contents s;
  now_keeps : forall s, contents (snd (now_isoformat B s)) = contents s;
  uuid_keeps : forall s, contents (snd (uuid4 B s)) = contents s
}.

(** [collection.query] answers without the key ['distances']. *)
Definition no_distances : Prop :=
  forall e n wh s r s',
    collection_query B e n wh s = (Ok r, s') -> qr_distances r = None.

End MoreContracts.

(** A variant of the reference backend whose [query] leaves the distances
    out of its answer. *)
Definition bare_query (q : embedding) (n : Z) (wh : option metadata)
    (s : Ref.state) : result QueryResponse * Ref.state :=
  match Ref.query q n wh s with
  | (Ok r, s') =>
      (Ok (mkQueryResponse (qr_ids r) (qr_documents r) (qr_metadatas r) None), s')
  | (Raise e, s') => (Raise e, s')
  end.

Definition bare_backend : Backend Ref.state :=
  mkBackend Ref.state (Ref.encode []) Ref.cosine Ref.add bare_query Ref.get
    Ref.delete Ref.now_isoformat Ref.uuid4.

(** A variant of the reference backend whose [get] raises and leaves the
    state alone. *)
Definition failing_get (wh : metadata) (s : Ref.state)
    : result (list str) * Ref.state :=
  (Raise (BackendError (u "store unavailable")), s).

Definition failing_get_backend : Backend Ref.state :=
  mkBackend Ref.state (Ref.encode []) Ref.cosine Ref.add Ref.query failing_get
    Ref.delete Ref.now_isoformat Ref.uuid4.

(** A result without its score. *)
Definition unscored (r : QueryResult) : str * str * metadata :=
  (document_id r, content r, result_metadata r).
(** ** Facts about the string primitives *)

Section StringFacts.

Lemma split_from_tokens s : forall cur,
  no_space cur -> Forall token (split_from cur s).
Proof.
  induction s as [|c s IH]; intros cur Hcur; simpl.
  - destruct cur; constructor; [split; [discriminate | assumption] | constructor].
  - destruct (is_space c) eqn:Hc.
    + destruct cur.
      * apply IH. constructor.
      * constructor; [split; [discriminate | assumption] |].
        apply IH. constructor.
    + apply IH. apply Forall_app. split; [assumption |].
      constructor; [assumption | constructor].
Qed.

Lemma split_tokens s : Forall token (split s).
Proof. apply split_from_tokens. constructor. Qed.

(** Reading a space-free run extends the current token. *)
Lemma split_from_run w : forall cur s,
  no_space w -> split_from cur (w ++ s) = split_from (cur ++ w) s.
Proof.
  induction w as [|c w IH]; intros cur s Hw; simpl.
  - by rewrite app_nil_r.
  - inversion Hw as [|? ? Hc Hw']; subst. rewrite Hc.
    rewrite IH by assumption. by rewrite <- app_assoc.
Qed.

Lemma split_join ws : Forall token ws -> split (join (u " ") ws) = ws.
Proof.
  unfold split. induction ws as [|w ws IH]; intros Hws; [reflexivity |].
  inversion Hws as [|? ? [Hne Hw] Hws']; subst.
  destruct ws as [|w' ws].
  - simpl. rewrite <- (app_nil_r w) at 1.
    rewrite split_from_run by assumption. simpl.
    destruct w; [contradiction | reflexivity].
  - change (join (u " ") (w :: w' :: ws))
      with (w ++ u " " ++ join (u " ") (w' :: ws)).
    rewrite split_from_run by assumption. simpl.
    destruct w; [contradiction |]. simpl. f_equal. by apply IH.
Qed.

Lemma lstrip_blank s : lstrip s = [] <-> Forall (fun c => is_space c = true) s.
Proof.
  induction s as [|c s IH]; simpl.
  - split; [constructor | reflexivity].
  - destruct (is_space c) eqn:Hc.
    + rewrite IH. split; [by constructor | by inversion 1].
    + split; [discriminate |]. inversion 1; congruence.
Qed.

Lemma lstrip_suffix s : exists p,
  s = p ++ lstrip s /\ Forall (fun c => is_space c = true) p.
Proof.
  induction s as [|c s [p [Hs Hp]]]; simpl.
  - by exists [].
  - destruct (is_space c) eqn:Hc.
    + exists (c :: p). split; [simpl; congruence | by constructor].
    + by exists [].
Qed.

(** [s.strip()] is empty exactly when [s] is blank. *)
Lemma strip_blank s : strip s = [] <-> Forall (fun c => is_space c = true) s.
Proof.
  unfold strip. destruct (lstrip_suffix s) as [p [Hs Hp]].
  split.
  - intros H. apply (f_equal (@rev char)) in H.
    rewrite rev_involutive in H. simpl in H.
    apply lstrip_blank in H. apply Forall_rev in H.
    rewrite rev_involutive in H.
    rewrite Hs. apply Forall_app. by split.
  - intros H. apply lstrip_blank in H. by rewrite H.
Qed.

Lemma join_in sep w ws : In w ws -> forall c, In c w -> In c (join sep ws).
Proof.
  induction ws as [|w' ws IH]; [contradiction |].
  intros [-> | Hin] c Hc.
  - destruct ws; [assumption |].
    change (In c (w ++ sep ++ join sep (l :: ws))). apply in_or_app. by left.
  - destruct ws; [contradiction |].
    change (In c (w' ++ sep ++ join sep (l :: ws))).
    apply in_or_app. right. apply in_or_app. right. by apply IH.
Qed.

(** A window holding at least one token is kept by the [strip] test. *)
Lemma join_tokens_truthy ws :
  Forall token ws -> ws <> [] -> truthy (strip (join (u " ") ws)) = true.
Proof.
  intros Hws Hne. destruct (strip (join (u " ") ws)) eqn:Hs; [| reflexivity].
  exfalso. apply strip_blank in Hs.
  destruct ws as [|w ws]; [contradiction |].
  inversion Hws as [|? ? [Hw Hsp] _]; subst.
  destruct w as [|c w]; [contradiction |].
  inversion Hsp as [|? ? Hc _]; subst.
  rewrite Forall_forall in Hs.
  assert (Hin : In c (join (u " ") ((c :: w) :: ws))).
  { apply (join_in _ (c :: w)); by left. }
  apply list_elem_of_In in Hin. apply Hs in Hin. congruence.
Qed.

Lemma join_tokens_nonempty ws :
  Forall token ws -> ws <> [] -> truthy (join (u " ") ws) = true.
Proof.
  intros Hws Hne. destruct ws as [|w ws]; [contradiction |].
  inversion Hws as [|? ? [Hw _] _]; subst.
  destruct w; [contradiction |]. by destruct ws.
Qed.

End StringFacts.

(** ** Facts about ranges, slices and windows *)

Section ListFacts.

Context {A : Type}.
Implicit Types l : list A.

Lemma slice_take_drop l lo hi :
  0 <= lo <= hi ->
  Py.slice l lo hi = take (Z.to_nat hi - Z.to_nat lo) (drop (Z.to_nat lo) l).
Proof.
  intros H. unfold Py.slice, Py.slice_bound.
  destruct (Z.ltb_spec lo 0) as [?|_]; [lia |].
  destruct (Z.ltb_spec hi 0) as [?|_]; [lia |].
  destruct (Z.le_gt_cases lo (Z.of_nat (length l))) as [Hlo | Hlo].
  - rewrite (Z.min_l lo) by lia.
    destruct (Z.le_gt_cases hi (Z.of_nat (length l))) as [Hhi | Hhi].
    + by rewrite (Z.min_l hi) by lia.
    + rewrite (Z.min_r hi) by lia. rewrite Nat2Z.id.
      rewrite !take_ge; [reflexivity | |]; rewrite length_drop; lia.
  - rewrite !Z.min_r by lia. rewrite Nat2Z.id, Nat.sub_diag.
    rewrite (drop_ge l (Z.to_nat lo)) by lia. by rewrite take_nil.
Qed.

Lemma take_plus l : forall i j, take (i + j) l = take i l ++ take j (drop i l).
Proof.
  induction l as [|x l IH]; intros i j.
  - by rewrite !take_nil, drop_nil, take_nil.
  - destruct i; [reflexivity |]. simpl. by rewrite IH.
Qed.

(** Consecutive windows of [s] elements, read from position [a] on,
    make up the next [m * s] elements. *)
Lemma concat_windows l (s : nat) : forall (m a : nat),
  concat (map (fun k => take s (drop (a + k * s) l)) (seq 0 m))
  = take (m * s) (drop a l).
Proof.
  induction m as [|m IH]; intros a; [reflexivity |].
  rewrite <- cons_seq, <- seq_shift. simpl. rewrite map_map.
  rewrite Nat.add_0_r, take_plus, drop_drop. f_equal.
  rewrite <- IH. f_equal. apply map_ext. intros k. do 2 f_equal. lia.
Qed.

End ListFacts.

Lemma range_length_forward n step :
  0 < step -> 0 <= n ->
  let m := Py.range_length 0 n step in
  0 <= m /\ (m - 1) * step < n <= m * step /\ (n = 0 -> m = 0).
Proof.
  intros Hs Hn. unfold Py.range_length.
  destruct (Z.ltb_spec 0 step) as [_|?]; [| lia].
  destruct (Z.ltb_spec 0 n) as [Hpos|?]; [| simpl; lia].
  simpl. rewrite Z.sub_0_r.
  pose proof (Z.div_mod (n - 1) step ltac:(lia)) as Hdm.
  pose proof (Z.mod_pos_bound (n - 1) step Hs) as Hb.
  pose proof (Z.div_pos (n - 1) step ltac:(lia) Hs) as Hq.
  nia.
Qed.

Lemma range_forward n step :
  0 < step ->
  Py.range 0 n step
  = Ok (map (fun k : nat => Z.of_nat k * step)
          (seq 0 (Z.to_nat (Py.range_length 0 n step)))).
Proof.
  intros Hs. unfold Py.range.
  destruct (Z.eqb_spec step 0) as [?|_]; [lia |]. reflexivity.
Qed.

(** A backward or empty range has no element. *)
Lemma range_backward n step :
  step < 0 -> 0 <= n -> Py.range 0 n step = Ok [].
Proof.
  intros Hs Hn. unfold Py.range, Py.range_length.
  destruct (Z.eqb_spec step 0) as [?|_]; [lia |].
  destruct (Z.ltb_spec 0 step) as [?|_]; [lia |].
  destruct (Z.ltb_spec n 0) as [?|_]; [lia |]. reflexivity.
Qed.

Lemma range_zero_step start stop :
  Py.range start stop 0
  = Raise (ValueError (u "range() arg 3 must not be zero")).
Proof. reflexivity. Qed.

(** ** Facts about [chunk_text] *)

Section ChunkFacts.

Variable words : list str.
Hypothesis words_tokens : Forall token words.

Lemma Forall_token_take_drop (a b : nat) :
  Forall token (take a (drop b words)).
Proof. apply Forall_take, Forall_drop, words_tokens. Qed.

(** The loop of [chunk_text] keeps every window that holds a word. *)
Lemma chunk_loop_all chunk_size idx : forall acc,
  0 <= chunk_size ->
  Forall (fun i => 0 <= i /\
            take (Z.to_nat chunk_size) (drop (Z.to_nat i) words) <> []) idx ->
  fold_left (chunk_step words chunk_size) idx acc
  = acc ++ map (fun i => join (u " ")
                   (take (Z.to_nat chunk_size) (drop (Z.to_nat i) words))) idx.
Proof.
  induction idx as [|i idx IH]; intros acc Hc Hidx; simpl.
  - by rewrite app_nil_r.
  - inversion Hidx as [|? ? [Hi Hne] Hidx']; subst.
    rewrite IH by assumption. unfold chunk_step.
    rewrite slice_take_drop by lia.
    replace (Z.to_nat (i + chunk_size) - Z.to_nat i)%nat
      with (Z.to_nat chunk_size) by lia.
    rewrite join_tokens_truthy;
      [| apply Forall_token_take_drop | assumption].
    by rewrite <- app_assoc.
Qed.

(** The same for the loop of [process_text_file_for_rag]. *)
Lemma file_loop_all chunk_size idx : forall acc,
  0 <= chunk_size ->
  Forall (fun i => 0 <= i /\
            take (Z.to_nat chunk_size) (drop (Z.to_nat i) words) <> []) idx ->
  fold_left (file_chunk_step words chunk_size) idx acc
  = acc ++ map (fun i => join (u " ")
                   (take (Z.to_nat chunk_size) (drop (Z.to_nat i) words))) idx.
Proof.
  induction idx as [|i idx IH]; intros acc Hc Hidx; simpl.
  - by rewrite app_nil_r.
  - inversion Hidx as [|? ? [Hi Hne] Hidx']; subst.
    rewrite IH by assumption. unfold file_chunk_step.
    rewrite slice_take_drop by lia.
    replace (Z.to_nat (i + chunk_size) - Z.to_nat i)%nat
      with (Z.to_nat chunk_size) by lia.
    rewrite join_tokens_nonempty;
      [| apply Forall_token_take_drop | assumption].
    by rewrite <- app_assoc.
Qed.

Lemma window_nonempty (c i : nat) :
  (0 < c)%nat -> (i < length words)%nat -> take c (drop i words) <> [].
Proof.
  intros Hc Hi Hnil. apply (f_equal (@length str)) in Hnil.
  rewrite length_take, length_drop in Hnil. simpl in Hnil. lia.
Qed.

(** Windows of [s + o] words at stride [s], the later ones without their
    first [o] words, give the words back. *)
Lemma deoverlap_windows (s o m : nat) :
  (0 < s)%nat ->
  (length words <= m * s)%nat ->
  (length words = 0 -> m = 0)%nat ->
  deoverlap o
    (map (fun k => join (u " ") (take (s + o) (drop (k * s) words))) (seq 0 m))
  = words.
Proof.
  intros Hs Hcover Hzero. destruct m as [|m].
  - simpl. destruct words; [reflexivity | simpl in Hcover; lia].
  - rewrite <- cons_seq, <- seq_shift. simpl.
    rewrite split_join by (apply Forall_take, words_tokens).
    rewrite !map_map.
    rewrite (map_ext _ (fun k => take s (drop ((s + o) + k * s) words))).
    + rewrite concat_windows, <- take_plus. apply take_ge. lia.
    + intros k. rewrite split_join by apply Forall_token_take_drop.
      rewrite (Nat.add_comm s o) at 1.
      rewrite <- take_drop_commute, drop_drop. do 2 f_equal. lia.
Qed.

End ChunkFacts.

(** With a positive window and a positive stride, [chunk_text] gives the
    windows at the multiples of the stride below the number of words. *)
Lemma chunk_text_forward text chunk_size overlap :
  0 < chunk_size -> overlap < chunk_size ->
  chunk_text text chunk_size overlap
  = Ok (map (fun k : nat =>
               join (u " ")
                 (take (Z.to_nat chunk_size)
                    (drop (k * Z.to_nat (chunk_size - overlap)) (split text))))
          (seq 0 (Z.to_nat
                    (Py.range_length 0 (Z.of_nat (length (split text)))
                       (chunk_size - overlap))))).
Proof.
  intros Hc Ho. unfold chunk_text.
  rewrite range_forward by lia.
  pose proof (range_length_forward (Z.of_nat (length (split text)))
                (chunk_size - overlap) ltac:(lia) ltac:(lia)) as (Hm & Hcov & _).
  rewrite (chunk_loop_all _ (split_tokens text)); [| lia |].
  - simpl. rewrite map_map. f_equal. apply map_ext. intros k.
    do 3 f_equal. rewrite Z2Nat.inj_mul, Nat2Z.id; lia.
  - apply Forall_forall. intros i Hi.
    apply list_elem_of_In, in_map_iff in Hi. destruct Hi as (k & <- & Hk).
    apply in_seq in Hk.
    assert (Z.of_nat k <= Py.range_length 0 (Z.of_nat (length (split text)))
                            (chunk_size - overlap) - 1) as Hk' by lia.
    assert (0 <= Z.of_nat k * (chunk_size - overlap)
            < Z.of_nat (length (split text))) as Hi by nia.
    split; [lia |].
    apply window_nonempty; lia.
Qed.

Lemma chunk_text_zero_stride text chunk_size :
  chunk_text text chunk_size chunk_size
  = Raise (ValueError (u "range() arg 3 must not be zero")).
Proof. unfold chunk_text. by rewrite Z.sub_diag. Qed.

Lemma chunk_text_backward text chunk_size overlap :
  chunk_size < overlap -> chunk_text text chunk_size overlap = Ok [].
Proof.
  intros H. unfold chunk_text. by rewrite range_backward by lia.
Qed.

Lemma chunking_of_windows text chunk_size overlap (m : Z) :
  0 <= overlap < chunk_size ->
  0 <= m ->
  (m - 1) * (chunk_size - overlap) < Z.of_nat (length (split text))
    <= m * (chunk_size - overlap) ->
  chunking_of text chunk_size overlap
    (map (fun k : nat =>
            join (u " ")
              (take (Z.to_nat chunk_size)
                 (drop (k * Z.to_nat (chunk_size - overlap)) (split text))))
       (seq 0 (Z.to_nat m))).
Proof.
  intros [Ho Hc] Hm Hcov.
  assert (Hlen : forall f : nat -> str,
             length (map f (seq 0 (Z.to_nat m))) = Z.to_nat m).
  { intros f. by rewrite length_map, length_seq. }
  split.
  - rewrite Hlen. rewrite Z2Nat.id by lia. exact Hcov.
  - intros k Hk. rewrite Hlen in Hk.
    rewrite list_lookup_fmap, lookup_seq_lt by assumption. simpl.
    assert (0 <= Z.of_nat k * (chunk_size - overlap)) as Hk0 by nia.
    unfold window. rewrite slice_take_drop by lia.
    rewrite Z2Nat.inj_mul, Nat2Z.id by lia. do 3 f_equal. lia.
  - replace (Z.to_nat chunk_size)
      with (Z.to_nat (chunk_size - overlap) + Z.to_nat overlap)%nat by lia.
    apply deoverlap_windows; [apply split_tokens | lia | | ].
    + rewrite <- Z2Nat.inj_mul by lia. lia.
    + nia.
  - intros Hw. rewrite Hw in Hcov. simpl in Hcov.
    replace m with 0 by nia. reflexivity.
  - intros Hw Hshort.
    assert (0 < Z.of_nat (length (split text)))
      by (destruct (split text); [contradiction | simpl; lia]).
    assert (0 < m) by nia.
    replace (Z.to_nat m) with (S (Z.to_nat (m - 1))) by lia.
    simpl. f_equal. f_equal. rewrite drop_0. apply take_ge. lia.
  - intros Hw Hshort.
    assert (0 < Z.of_nat (length (split text)))
      by (destruct (split text); [contradiction | simpl; lia]).
    assert (m = 1) as -> by nia.
    simpl. do 2 f_equal. rewrite drop_0. apply take_ge. lia.
Qed.

(** C1, as amended.  For every text and every [0 <= overlap < chunk_size],
    [chunk_text] succeeds and gives the windows of [chunk_size] words at
    stride [chunk_size - overlap] over the whitespace-split words, as many
    as cover the words; the first chunk followed by the later chunks
    without their leading [overlap] words is the word sequence again; a
    text without words gives no chunk; a text of at most [chunk_size]
    words gives a first chunk with all its words, and that chunk is the
    only one when the text has at most [chunk_size - overlap] words. *)
Theorem chunk_text_windows_reconstruct text chunk_size overlap :
  0 <= overlap < chunk_size ->
  exists chunks,
    chunk_text text chunk_size overlap = Ok chunks /\
    chunking_of text chunk_size overlap chunks.
Proof.
  intros [Ho Hc]. eexists. split; [apply chunk_text_forward; lia |].
  pose proof (range_length_forward (Z.of_nat (length (split text)))
                (chunk_size - overlap) ltac:(lia) ltac:(lia)) as (Hm & Hcov & _).
  apply chunking_of_windows; [lia | exact Hm | exact Hcov].
Qed.

Lemma chunk_text_windows_reconstruct_witness :
  exists chunks,
    chunk_text (u "alpha beta gamma delta") 2 0 = Ok chunks /\
    chunking_of (u "alpha beta gamma delta") 2 0 chunks.
Proof.
  apply (chunk_text_windows_reconstruct (u "alpha beta gamma delta") 2 0).
  lia.
Defined.

(** C1, counterexample.  A text of three words is shorter than
    [chunk_size = 4], yet with [overlap = 2] it gives two chunks, not the
    single chunk of all its words. *)
Lemma chunk_text_short_text_two_chunks :
  0 <= 2 < 4 /\
  (length (split (u "a b c")) < 4)%nat /\
  chunk_text (u "a b c") 4 2 = Ok [u "a b c"; u "c"] /\
  chunk_text (u "a b c") 4 2 <> Ok [join (u " ") (split (u "a b c"))].
Proof.
  split; [lia |]. split; [vm_compute; lia |].
  split; [reflexivity |]. vm_compute. discriminate.
Qed.

(** C3, as amended.  Parameters outside [0 <= overlap < chunk_size] meet no
    validation.  With [overlap = chunk_size], [chunk_text] raises the
    [ValueError] of [range] at once, and [process_text_file_for_rag] turns
    it into a one-element list holding the message; with
    [overlap > chunk_size] both return the empty list without an error;
    with [overlap < 0 < chunk_size], [chunk_text] returns chunks without an
    error.  Being total functions, none of them loops. *)
Theorem chunk_text_invalid_parameters text chunk_size overlap :
  (overlap = chunk_size ->
     chunk_text text chunk_size overlap
       = Raise (ValueError (u "range() arg 3 must not be zero")) /\
     process_text_file_for_rag (Ok text) chunk_size overlap
       = [file_error_prefix ++ u "range() arg 3 must not be zero"]) /\
  (chunk_size < overlap ->
     chunk_text text chunk_size overlap = Ok [] /\
     process_text_file_for_rag (Ok text) chunk_size overlap = []) /\
  (overlap < 0 < chunk_size ->
     is_ok (chunk_text text chunk_size overlap) = true).
Proof.
  split; [| split].
  - intros ->. split; [apply chunk_text_zero_stride |].
    unfold process_text_file_for_rag. by rewrite Z.sub_diag.
  - intros H. split; [by apply chunk_text_backward |].
    unfold process_text_file_for_rag. by rewrite range_backward by lia.
  - intros [Ho Hc]. by rewrite chunk_text_forward by lia.
Qed.

(** C3, counterexample.  With [overlap > chunk_size] the chunking of a
    three-word text returns normally, with no chunk at all; with
    [overlap = chunk_size] the file variant returns a list holding an error
    message. *)
Lemma chunk_text_overlap_too_large_returns :
  chunk_text (u "a b c") 2 3 = Ok [] /\
  process_text_file_for_rag (Ok (u "a b c")) 2 3 = [] /\
  process_text_file_for_rag (Ok (u "a b c")) 2 2
    = [file_error_prefix ++ u "range() arg 3 must not be zero"].
Proof. repeat split; reflexivity. Qed.

(** With a positive window and a positive stride,
    [process_text_file_for_rag] returns what [chunk_text] gives on the
    text of the file. *)
Lemma process_text_file_forward text chunk_size overlap :
  0 < chunk_size -> overlap < chunk_size ->
  Ok (process_text_file_for_rag (Ok text) chunk_size overlap)
  = chunk_text text chunk_size overlap.
Proof.
  intros Hc Ho. rewrite chunk_text_forward by assumption.
  unfold process_text_file_for_rag. rewrite range_forward by lia.
  pose proof (range_length_forward (Z.of_nat (length (split text)))
                (chunk_size - overlap) ltac:(lia) ltac:(lia)) as (Hm & Hcov & _).
  rewrite (file_loop_all _ (split_tokens text)); [| lia |].
  - simpl. rewrite map_map. f_equal. apply map_ext. intros k.
    do 3 f_equal. rewrite Z2Nat.inj_mul, Nat2Z.id; lia.
  - apply Forall_forall. intros i Hi.
    apply list_elem_of_In, in_map_iff in Hi. destruct Hi as (k & <- & Hk).
    apply in_seq in Hk.
    assert (Z.of_nat k <= Py.range_length 0 (Z.of_nat (length (split text)))
                            (chunk_size - overlap) - 1) as Hk' by lia.
    assert (0 <= Z.of_nat k * (chunk_size - overlap)
            < Z.of_nat (length (split text))) as Hi by nia.
    split; [lia |].
    apply window_nonempty; lia.
Qed.

(** ** Facts about [process_document] *)

Lemma process_document_overlap content chunk_size :
  process_document content chunk_size
  = chunk_text (clean_text content) chunk_size 50.
Proof. reflexivity. Qed.

Lemma process_document_50 content :
  process_document content 50
  = Raise (ValueError (u "range() arg 3 must not be zero")).
Proof. apply chunk_text_zero_stride. Qed.

Lemma process_document_below_50 content chunk_size :
  chunk_size < 50 -> process_document content chunk_size = Ok [].
Proof. intros H. by apply chunk_text_backward. Qed.

(** ** Facts about the monad and the recorded calls *)

Section MonadFacts.

Context {S : Type} (B : Backend S).

Lemma record_call_run {A} c (op : S -> result A * S) w :
  record_call c op w
  = (fst (op (env w)), mkWorld (snd (op (env w))) (calls w ++ [c])).
Proof. unfold record_call. by destruct (op (env w)). Qed.

Lemma for_each_app {X Y} (l1 l2 : list X) (body : Y -> X -> M S Y) : forall acc w,
  for_each (l1 ++ l2) body acc w
  = bind (for_each l1 body acc) (for_each l2 body) w.
Proof.
  induction l1 as [|x l1 IH]; intros acc w; simpl.
  - reflexivity.
  - unfold bind in *.
    destruct (body acc x w) as [[a | e] w1]; [apply IH | reflexivity].
Qed.

Lemma add_document_step_run d meta n b i chunk emb w :
  add_document_step B d meta n b (i, (chunk, emb)) w
  = (Ok (mkBatch (chunk_ids b ++ [chunk_id_of d i])
           (chunk_documents b ++ [chunk])
           (chunk_embeddings b ++ [emb])
           (chunk_metadata b
              ++ [chunk_meta_of meta d i n (fst (now_isoformat B (env w)))])),
     mkWorld (snd (now_isoformat B (env w))) (calls w)).
Proof.
  unfold add_document_step, bind, now.
  by destruct (now_isoformat B (env w)).
Qed.

(** The loop of [add_document] cannot raise, makes no call, and appends
    one entry per pair to each of the four lists. *)
Lemma add_document_loop d meta n pairs : forall i b w,
  exists stamps w',
    for_each (enumerate_from i pairs) (add_document_step B d meta n) b w
    = (Ok (mkBatch
             (chunk_ids b ++ map (chunk_id_of d) (seq i (length pairs)))
             (chunk_documents b ++ map fst pairs)
             (chunk_embeddings b ++ map snd pairs)
             (chunk_metadata b ++ metas_of meta d n i stamps)),
       w') /\
    calls w' = calls w /\
    length stamps = length pairs.
Proof.
  induction pairs as [|[chunk emb] pairs IH]; intros i b w.
  - exists [], w. simpl. rewrite !app_nil_r. by destruct b.
  - cbn [for_each enumerate_from length seq map].
    unfold bind at 1. rewrite add_document_step_run.
    match goal with
    | |- context [for_each _ _ ?b1 ?w1] =>
        destruct (IH (Datatypes.S i) b1 w1) as (stamps & w' & Hrun & Hcalls & Hlen)
    end.
    exists (fst (now_isoformat B (env w)) :: stamps), w'. rewrite Hrun. simpl.
    rewrite <- !app_assoc. simpl. split; [reflexivity |].
    split; [assumption | by rewrite Hlen].
Qed.

Lemma length_py_zip {X Y} (xs : list X) : forall (ys : list Y),
  length xs = length ys ->
  length (py_zip xs ys) = length xs /\ map fst (py_zip xs ys) = xs /\
  map snd (py_zip xs ys) = ys.
Proof.
  induction xs as [|x xs IH]; intros [|y ys] Hlen; simpl in *;
    try discriminate; [done |].
  destruct (IH ys) as (H1 & H2 & H3); [lia |]. by rewrite H1, H2, H3.
Qed.


Lemma length_metas_of meta d n stamps : forall i,
  length (metas_of meta d n i stamps) = length stamps.
Proof.
  unfold metas_of. induction stamps as [|t stamps IH]; intros i; simpl;
    [reflexivity | by rewrite IH].
Qed.

Lemma chunk_meta_of_lineage meta d i n t :
  chunk_meta_of meta d i n t !! k_parent_doc_id = Some (VStr d) /\
  chunk_meta_of meta d i n t !! k_chunk_index = Some (VInt (Z.of_nat i)) /\
  chunk_meta_of meta d i n t !! k_chunk_count = Some (VInt (Z.of_nat n)).
Proof.
  unfold chunk_meta_of.
  repeat split;
    repeat (first [ rewrite lookup_insert_eq; reflexivity
                  | rewrite lookup_insert_ne by (vm_compute; discriminate) ]).
Qed.

End MonadFacts.

(** ** Facts about [add_document] *)

Section AddDocumentFacts.

Context {S : Type} (B : Backend S).

(** Every run of [add_document], stage by stage. *)
Lemma add_document_inv content doc_id meta chunk_size w r w' :
  add_document B content doc_id meta chunk_size w = (r, w') ->
  match process_document content chunk_size with
  | Raise e => r = Raise e /\ w' = after_id B doc_id w
  | Ok chunks =>
      match model_encode B chunks (env (after_id B doc_id w)) with
      | (Raise e, s1) =>
          r = Raise e /\
          w' = mkWorld s1 (calls w ++ [CallEncode chunks])
      | (Ok embs, s1) =>
          exists stamps s2,
            let b := batch_of (resolved_id B doc_id w) (meta_or_empty meta)
                       chunks embs stamps in
            let add_call := CallAdd (chunk_ids b) (chunk_documents b)
                              (chunk_embeddings b) (chunk_metadata b) in
            length stamps = length (py_zip chunks embs) /\
            w' = mkWorld
                   (snd (collection_add B (chunk_ids b) (chunk_documents b)
                           (chunk_embeddings b) (chunk_metadata b) s2))
                   (calls w ++ [CallEncode chunks; add_call]) /\
            r = match fst (collection_add B (chunk_ids b) (chunk_documents b)
                             (chunk_embeddings b) (chunk_metadata b) s2) with
                | Ok _ => Ok (chunk_ids b)
                | Raise e => Raise e
                end
      end
  end.
Proof.
  unfold add_document. intros Hrun.
  assert (Hid :
    (match doc_id with None => fresh_uuid B | Some d => ret d end) w
    = (Ok (resolved_id B doc_id w), after_id B doc_id w)).
  { destruct doc_id; simpl; [reflexivity |].
    unfold fresh_uuid. by destruct (uuid4 B (env w)). }
  assert (Hcalls0 : calls (after_id B doc_id w) = calls w)
    by (by destruct doc_id).
  unfold bind at 1 in Hrun. rewrite Hid in Hrun.
  unfold bind at 1 in Hrun. unfold lift at 1 in Hrun.
  destruct (process_document content chunk_size) as [chunks | e].
  2: { by inversion Hrun. }
  unfold bind at 1 in Hrun. unfold encode in Hrun.
  rewrite record_call_run in Hrun. rewrite Hcalls0 in Hrun.
  destruct (model_encode B chunks (env (after_id B doc_id w))) as [[embs | e] s1].
  2: { simpl in Hrun. by inversion Hrun. }
  simpl fst in Hrun. simpl snd in Hrun. cbv iota beta in Hrun.
  unfold bind at 1 in Hrun.
  destruct (add_document_loop B (resolved_id B doc_id w)
              (match meta with None => ∅ | Some m => m end)
              (length chunks) (py_zip chunks embs) 0 empty_batch
              (mkWorld s1 (calls w ++ [CallEncode chunks])))
    as (stamps & w2 & Hloop & Hcalls2 & Hlen).
  rewrite Hloop in Hrun. simpl app in Hrun.
  unfold bind at 1 in Hrun. unfold coll_add in Hrun.
  rewrite record_call_run in Hrun. cbn [chunk_ids chunk_documents
    chunk_embeddings chunk_metadata] in Hrun.
  exists stamps, (env w2). cbn zeta. unfold batch_of, meta_or_empty.
  cbn [chunk_ids chunk_documents chunk_embeddings chunk_metadata].
  split; [exact Hlen |].
  rewrite Hcalls2 in Hrun. simpl calls in Hrun.
  rewrite <- app_assoc in Hrun. simpl app in Hrun.
  match type of Hrun with
  | context [collection_add B ?a ?b ?c ?d ?s] =>
      destruct (collection_add B a b c d s) as [[[] | e] s3]
  end; simpl in Hrun |- *; inversion Hrun; subst; split; reflexivity.
Qed.

End AddDocumentFacts.

(** With no chunk, [add_document] still calls the model and the
    collection, each with empty arguments. *)
Lemma no_chunks_run {S} (B : Backend S) content doc_id meta
    chunk_size w :
  process_document content chunk_size = Ok [] ->
  add_document B content doc_id meta chunk_size w
  = match model_encode B [] (env (after_id B doc_id w)) with
    | (Raise e, s1) => (Raise e, mkWorld s1 (calls w ++ [CallEncode []]))
    | (Ok _, s1) =>
        (match fst (collection_add B [] [] [] [] s1) with
         | Ok _ => Ok []
         | Raise e => Raise e
         end,
         mkWorld (snd (collection_add B [] [] [] [] s1))
           (calls w ++ [CallEncode []; CallAdd [] [] [] []]))
    end.
Proof.
  intros Hchunks. unfold add_document.
  assert (Hid :
    (match doc_id with None => fresh_uuid B | Some d => ret d end) w
    = (Ok (resolved_id B doc_id w), after_id B doc_id w)).
  { destruct doc_id; simpl; [reflexivity |].
    unfold fresh_uuid. by destruct (uuid4 B (env w)). }
  assert (Hcalls0 : calls (after_id B doc_id w) = calls w)
    by (by destruct doc_id).
  unfold bind at 1. rewrite Hid.
  unfold bind at 1. unfold lift at 1. rewrite Hchunks.
  unfold bind at 1. unfold encode. rewrite record_call_run, Hcalls0.
  destruct (model_encode B [] (env (after_id B doc_id w))) as [[embs | e] s1];
    [| reflexivity].
  simpl. unfold bind, ret, coll_add. rewrite record_call_run. simpl.
  rewrite <- app_assoc. simpl.
  by destruct (collection_add B [] [] [] [] s1) as [[[] | e] s2].
Qed.

(** The toy model of the reference backend gives one vector per text. *)
Lemma ref_encode_one_per_text down : encode_one_per_text (Ref.backend down).
Proof.
  intros texts s vs s' H. simpl in H. unfold Ref.encode in H.
  destruct (existsb _ texts); inversion H. apply length_map.
Qed.



(** C5, as amended.  When the content yields no chunk, [add_document] calls
    the model with no text and then, unless the model raised, calls
    [collection.add] once with four empty lists; it returns the empty id
    sequence when that call returns, and raises what the call raised
    otherwise; the collaborators are left in the state that call leaves. *)
Theorem add_document_no_chunks {S} (B : Backend S) content doc_id meta
    chunk_size w r w' :
  process_document content chunk_size = Ok [] ->
  add_document B content doc_id meta chunk_size w = (r, w') ->
  match model_encode B [] (env (after_id B doc_id w)) with
  | (Raise e, s1) =>
      r = Raise e /\ w' = mkWorld s1 (calls w ++ [CallEncode []])
  | (Ok _, s1) =>
      calls w' = calls w ++ [CallEncode []; CallAdd [] [] [] []] /\
      env w' = snd (collection_add B [] [] [] [] s1) /\
      (is_ok (fst (collection_add B [] [] [] [] s1)) = true -> r = Ok []) /\
      (forall e, fst (collection_add B [] [] [] [] s1) = Raise e -> r = Raise e)
  end.
Proof.
  intros Hnone Hrun. rewrite (no_chunks_run B _ _ _ _ _ Hnone) in Hrun.
  destruct (model_encode B [] (env (after_id B doc_id w))) as [[embs | e] s1].
  - inversion Hrun; subst. cbn [calls env].
    split; [reflexivity |]. split; [reflexivity |].
    destruct (fst (collection_add B [] [] [] [] s1)) as [[] | e]; simpl.
    + split; [reflexivity | discriminate].
    + split; [discriminate |]. intros e' He'. by inversion He'.
  - by inversion Hrun.
Qed.

Lemma add_document_no_chunks_witness :
  calls (snd (add_document (Ref.backend []) (u "  ") (Some (u "d1")) None 500
                Ref.start))
    = calls Ref.start ++ [CallEncode []; CallAdd [] [] [] []] /\
  env (snd (add_document (Ref.backend []) (u "  ") (Some (u "d1")) None 500
              Ref.start))
    = snd (collection_add (Ref.backend []) [] [] [] [] Ref.init) /\
  (is_ok (fst (collection_add (Ref.backend []) [] [] [] [] Ref.init)) = true ->
   fst (add_document (Ref.backend []) (u "  ") (Some (u "d1")) None 500
          Ref.start) = Ok []) /\
  (forall e,
      fst (collection_add (Ref.backend []) [] [] [] [] Ref.init) = Raise e ->
      fst (add_document (Ref.backend []) (u "  ") (Some (u "d1")) None 500
             Ref.start) = Raise e).
Proof.
  apply (add_document_no_chunks (Ref.backend []) (u "  ") (Some (u "d1")) None
           500 Ref.start); reflexivity.
Defined.

(** C5, counterexample.  Ingesting a document with empty content makes a
    call to the collection: [collection.add] with empty lists. *)
Lemma add_document_empty_content_calls_store :
  process_document (u "") 500 = Ok [] /\
  fst (add_document (Ref.backend []) (u "") (Some (u "d1")) None 500 Ref.start)
    = Ok [] /\
  List.filter is_store_call
    (calls (snd (add_document (Ref.backend []) (u "") (Some (u "d1")) None 500
                   Ref.start)))
    = [CallAdd [] [] [] []].
Proof. repeat split; reflexivity. Qed.

(** ** Facts about [delete_document] *)

Section DeleteFacts.

Context {S : Type} (B : Backend S).

(** Every run of [delete_document]. *)
Lemma delete_document_run d w :
  delete_document B d w
  = let wh : metadata := {[ k_parent_doc_id := VStr d ]} in
    match collection_get B wh (env w) with
    | (Raise _, s1) => (Ok false, mkWorld s1 (calls w ++ [CallGet wh]))
    | (Ok ids, s1) =>
        if truthy ids then
          match collection_delete B ids s1 with
          | (Ok _, s2) =>
              (Ok true, mkWorld s2 (calls w ++ [CallGet wh; CallDelete ids]))
          | (Raise _, s2) =>
              (Ok false, mkWorld s2 (calls w ++ [CallGet wh; CallDelete ids]))
          end
        else (Ok false, mkWorld s1 (calls w ++ [CallGet wh]))
    end.
Proof.
  unfold delete_document, try_except, bind, coll_get. cbn zeta.
  rewrite record_call_run.
  destruct (collection_get B _ (env w)) as [[ids | e] s1]; simpl;
    [| reflexivity].
  destruct ids as [|i ids]; simpl; [reflexivity |].
  unfold coll_delete. rewrite record_call_run. simpl.
  rewrite <- app_assoc. simpl.
  by destruct (collection_delete B (i :: ids) s1) as [[[] | e] s2].
Qed.

Lemma delete_document_total d w :
  exists b, fst (delete_document B d w) = Ok b.
Proof.
  rewrite delete_document_run. cbn zeta.
  destruct (collection_get B _ (env w)) as [[ids | e] s1]; [| by eexists].
  destruct (truthy ids); [| by eexists].
  destruct (collection_delete B ids s1) as [[[] | e] s2]; by eexists.
Qed.

End DeleteFacts.

(** C10.  [delete_document] always returns a boolean.  It returns [False]
    when the lookup in the collection raises, when the lookup finds no id,
    and when the delete call raises: a failure of the collection gives the
    caller the same result as a document that is not there. *)
Theorem delete_document_never_raises {S} (B : Backend S) d w :
  exists b,
    fst (delete_document B d w) = Ok b /\
    (forall e,
        fst (collection_get B {[ k_parent_doc_id := VStr d ]} (env w)) = Raise e ->
        b = false) /\
    (fst (collection_get B {[ k_parent_doc_id := VStr d ]} (env w)) = Ok [] ->
     b = false) /\
    (forall ids e,
        fst (collection_get B {[ k_parent_doc_id := VStr d ]} (env w)) = Ok ids ->
        fst (collection_delete B ids
               (snd (collection_get B {[ k_parent_doc_id := VStr d ]} (env w))))
          = Raise e ->
        b = false).
Proof.
  rewrite delete_document_run. cbn zeta.
  destruct (collection_get B _ (env w)) as [[ids | e] s1]; simpl.
  - destruct ids as [|i ids]; simpl.
    + exists false. repeat split; try reflexivity; discriminate.
    + destruct (collection_delete B (i :: ids) s1) as [[[] | e] s2] eqn:Hdel.
      * exists true. split; [reflexivity |].
        split; [discriminate |]. split; [discriminate |].
        intros ids' e' Hids Hraise. inversion Hids; subst.
        rewrite Hdel in Hraise. discriminate.
      * exists false. repeat split; try reflexivity; discriminate.
  - exists false. repeat split; try reflexivity; discriminate.
Qed.

(** ** The reference collection honours the contracts *)

Lemma ref_where_parent d m :
  Ref.where_matches {[ k_parent_doc_id := VStr d ]} m = has_parent d m.
Proof.
  unfold Ref.where_matches, has_parent. rewrite map_to_list_singleton. simpl.
  destruct (m !! k_parent_doc_id) as [[p | | |] |]; simpl;
    try reflexivity. apply andb_true_r.
Qed.

Lemma ref_store_contract down : store_contract (Ref.backend down) Ref.records.
Proof.
  split.
  - intros d s ids s' H. simpl in H. unfold Ref.get in H.
    inversion H; subst. split; [reflexivity |]. f_equal.
    apply filter_ext. intros r. simpl. apply ref_where_parent.
  - intros ids s s' H. simpl in H. unfold Ref.delete in H.
    by inversion H.
Qed.

Lemma ref_store_available down : store_available (Ref.backend down).
Proof. split; reflexivity. Qed.

Lemma filter_nil_none {A} (P : A -> bool) (l : list A) :
  List.filter P l = [] ->
  existsb P l = false /\ Forall (fun x => P x = false) l.
Proof.
  induction l as [|x l IH]; simpl; [by split |].
  destruct (P x) eqn:HP; [discriminate |].
  intros H. destruct (IH H) as [H1 H2]. split; [assumption | by constructor].
Qed.

Lemma filter_cons_some {A} (P : A -> bool) (l : list A) x xs :
  List.filter P l = x :: xs -> existsb P l = true.
Proof.
  intros H. apply existsb_exists. exists x.
  assert (In x (List.filter P l)) as Hin by (rewrite H; by left).
  by apply filter_In in Hin.
Qed.

(** C8.  Over a collection that honours its contract and answers without
    raising, [delete_document doc_id] returns [True] exactly when some
    stored chunk has [parent_doc_id = doc_id]; afterwards no stored chunk
    has that parent; and when there was none it returns [False] and the
    stored chunks are unchanged. *)
Theorem delete_document_removes_chunks {S} (B : Backend S)
    (contents : S -> list stored) d w :
  store_contract B contents ->
  store_available B ->
  fst (delete_document B d w)
    = Ok (existsb (fun r => has_parent d (rec_metadata r)) (contents (env w))) /\
  Forall (fun r => has_parent d (rec_metadata r) = false)
    (contents (env (snd (delete_document B d w)))) /\
  (existsb (fun r => has_parent d (rec_metadata r)) (contents (env w)) = false ->
   contents (env (snd (delete_document B d w))) = contents (env w)).
Proof.
  intros [Hget Hdel] [Hgok Hdok].
  rewrite delete_document_run. cbn zeta.
  specialize (Hgok {[ k_parent_doc_id := VStr d ]} (env w)).
  destruct (collection_get B _ (env w)) as [[ids | e] s1] eqn:Hg;
    [| discriminate].
  apply Hget in Hg. destruct Hg as [Hsame ->].
  destruct (List.filter (fun r => has_parent d (rec_metadata r))
              (contents (env w))) as [|r0 matching] eqn:Hf; simpl.
  - destruct (filter_nil_none _ _ Hf) as [Hex Hall].
    rewrite Hex. split; [reflexivity |].
    rewrite Hsame. by split.
  - specialize (Hdok (rec_id r0 :: map rec_id matching) s1).
    destruct (collection_delete B _ s1) as [[[] | e] s2] eqn:Hd;
      [| discriminate].
    apply Hdel in Hd. simpl.
    rewrite (filter_cons_some _ _ _ _ Hf).
    split; [reflexivity |]. split; [| discriminate].
    rewrite Hd, Hsame. apply Forall_forall. intros r Hr.
    apply list_elem_of_In, filter_In in Hr. destruct Hr as [Hin Hnot].
    destruct (has_parent d (rec_metadata r)) eqn:HP; [| reflexivity]. exfalso.
    apply negb_true_iff, bool_decide_eq_false in Hnot. apply Hnot.
    change (rec_id r0 :: map rec_id matching) with (map rec_id (r0 :: matching)).
    rewrite <- Hf. apply list_elem_of_In, in_map, filter_In. by split.
Qed.

Lemma delete_document_removes_chunks_witness :
  fst (delete_document (Ref.backend []) (u "d1") Sample.with_d1)
    = Ok (existsb (fun r => has_parent (u "d1") (rec_metadata r))
            (Ref.records (env Sample.with_d1))) /\
  Forall (fun r => has_parent (u "d1") (rec_metadata r) = false)
    (Ref.records
       (env (snd (delete_document (Ref.backend []) (u "d1") Sample.with_d1)))) /\
  (existsb (fun r => has_parent (u "d1") (rec_metadata r))
     (Ref.records (env Sample.with_d1)) = false ->
   Ref.records
     (env (snd (delete_document (Ref.backend []) (u "d1") Sample.with_d1)))
   = Ref.records (env Sample.with_d1)).
Proof.
  apply (delete_document_removes_chunks (Ref.backend []) Ref.records (u "d1")
           Sample.with_d1).
  - apply ref_store_contract.
  - apply ref_store_available.
Defined.

(** On the sample: two chunks of [d1] are stored, deleting [d1] returns
    [True] and empties the collection; deleting it again returns [False]. *)
Example delete_d1 :
  map rec_id (Ref.records (env Sample.with_d1)) = [u "d1_chunk_0"; u "d1_chunk_1"] /\
  fst (delete_document (Ref.backend []) (u "d1") Sample.with_d1) = Ok true /\
  Ref.records
    (env (snd (delete_document (Ref.backend []) (u "d1") Sample.with_d1))) = [] /\
  fst (delete_document (Ref.backend []) (u "d1")
         (snd (delete_document (Ref.backend []) (u "d1") Sample.with_d1)))
    = Ok false.
Proof. repeat split; vm_compute; reflexivity. Qed.

(** ** Facts about [add_documents_batch] *)

Section BatchFacts.

Context {S : Type} (B : Backend S).
Variable chunk_size : Z.

Lemma batch_step_run acc doc w :
  batch_step B chunk_size acc doc w
  = match add_document B (doc_content doc) (Some (doc_id doc))
            (Some (doc_metadata doc)) chunk_size w with
    | (Ok ids, w1) => (Ok (acc ++ ids), w1)
    | (Raise e, w1) => (Raise e, w1)
    end.
Proof. reflexivity. Qed.

(** Ids gathered before the loop can be put in front afterwards. *)
Lemma for_each_batch_step_acc docs : forall a b w,
  for_each docs (batch_step B chunk_size) (a ++ b) w
  = bind (for_each docs (batch_step B chunk_size) b)
      (fun r => ret (a ++ r)) w.
Proof.
  induction docs as [|doc docs IH]; intros a b w.
  - reflexivity.
  - cbn [for_each]. unfold bind. rewrite !batch_step_run.
    destruct (add_document B _ _ _ chunk_size w) as [[ids | e] w1];
      [| reflexivity].
    rewrite <- app_assoc, IH. reflexivity.
Qed.

Lemma batches_step_run docs batch_size acc i w :
  0 <= i -> 0 <= batch_size ->
  batches_step B docs chunk_size batch_size acc i w
  = for_each (take (Z.to_nat batch_size) (drop (Z.to_nat i) docs))
      (batch_step B chunk_size) acc w.
Proof.
  intros Hi Hb. unfold batches_step. cbn zeta.
  rewrite slice_take_drop by lia.
  replace (Z.to_nat (i + batch_size) - Z.to_nat i)%nat
    with (Z.to_nat batch_size) by lia.
  symmetry. rewrite <- (app_nil_r acc) at 1.
  apply for_each_batch_step_acc.
Qed.

(** The batches, taken in turn, are the documents taken in turn. *)
Lemma batches_sequential docs batch_size (m : nat) : forall acc w,
  0 < batch_size ->
  for_each (map (fun k : nat => 0 + Z.of_nat k * batch_size) (seq 0 m))
    (batches_step B docs chunk_size batch_size) acc w
  = for_each (take (m * Z.to_nat batch_size) docs)
      (batch_step B chunk_size) acc w.
Proof.
  intros acc w Hb. revert acc w.
  induction m as [|m IH]; intros acc w; [reflexivity |].
  rewrite seq_S, map_app, for_each_app. simpl map.
  replace (Datatypes.S m * Z.to_nat batch_size)%nat
    with (m * Z.to_nat batch_size + Z.to_nat batch_size)%nat by lia.
  rewrite take_plus, for_each_app. unfold bind. rewrite IH.
  destruct (for_each (take (m * Z.to_nat batch_size) docs) _ acc w)
    as [[acc' | e] w1]; [| reflexivity].
  cbn [for_each]. unfold bind, ret.
  rewrite batches_step_run by lia.
  replace (Z.to_nat (0 + Z.of_nat m * batch_size))
    with (m * Z.to_nat batch_size)%nat
    by (rewrite Z.add_0_l, Z2Nat.inj_mul, Nat2Z.id; lia).
  by destruct (for_each _ _ acc' w1) as [[r | e] w2].
Qed.

(** With a positive [batch_size], [add_documents_batch] ingests the
    documents one after the other. *)
Lemma add_documents_batch_sequential docs batch_size w :
  0 < batch_size ->
  add_documents_batch B docs chunk_size batch_size w
  = for_each docs (batch_step B chunk_size) [] w.
Proof.
  intros Hb. unfold add_documents_batch, bind at 1, lift, Py.range.
  destruct (Z.eqb_spec batch_size 0) as [? | _]; [lia |].
  rewrite batches_sequential by assumption. f_equal.
  apply take_ge.
  pose proof (range_length_forward (Z.of_nat (length docs)) batch_size
                Hb ltac:(lia)) as (Hm & Hcov & _).
  rewrite <- Z2Nat.inj_mul by lia. lia.
Qed.

End BatchFacts.

(** C7, as amended.  With a positive [batch_size], a failure while
    ingesting one document ends [add_documents_batch]: when the documents
    before it were ingested and [add_document] raises [e] on it, the whole
    call raises [e]; the collaborators and the recorded calls are left as
    they were when that document failed, so no later document is
    attempted; and the chunk ids of the documents ingested before are not
    returned. *)
Theorem add_documents_batch_aborts {S} (B : Backend S) before d after
    chunk_size batch_size w ids w1 e w2 :
  0 < batch_size ->
  add_documents_batch B before chunk_size batch_size w = (Ok ids, w1) ->
  add_document B (doc_content d) (Some (doc_id d)) (Some (doc_metadata d))
    chunk_size w1 = (Raise e, w2) ->
  add_documents_batch B (before ++ d :: after) chunk_size batch_size w
  = (Raise e, w2).
Proof.
  intros Hb Hbefore Hd.
  rewrite add_documents_batch_sequential in * by assumption.
  rewrite for_each_app. unfold bind at 1. rewrite Hbefore.
  cbn [for_each]. unfold bind at 1. rewrite batch_step_run. by rewrite Hd.
Qed.

Lemma add_documents_batch_aborts_witness :
  add_documents_batch (Ref.backend [u "bad"])
    ([Sample.d1] ++ Sample.bad :: [Sample.d3]) 500 100 Ref.start
  = (Raise (BackendError (u "model unavailable")),
     mkWorld
       (snd (Ref.add [u "d1_chunk_0"] [u "alpha beta gamma delta"]
               [Ref.embed (u "alpha beta gamma delta")]
               [chunk_meta_of ∅ (u "d1") 0 1 (u "t0")]
               (Ref.mkState [] 1 0)))
       [CallEncode [u "alpha beta gamma delta"];
        CallAdd [u "d1_chunk_0"] [u "alpha beta gamma delta"]
          [Ref.embed (u "alpha beta gamma delta")]
          [chunk_meta_of ∅ (u "d1") 0 1 (u "t0")];
        CallEncode [u "bad"]]).
Proof.
  apply (add_documents_batch_aborts (Ref.backend [u "bad"]) [Sample.d1]
           Sample.bad [Sample.d3] 500 100 Ref.start [u "d1_chunk_0"]
           (snd (add_documents_batch (Ref.backend [u "bad"]) [Sample.d1] 500 100
                   Ref.start))).
  - lia.
  - vm_compute. reflexivity.
  - vm_compute. reflexivity.
Defined.

(** C7, counterexample.  The model is down for the second of three
    documents.  The batch call raises: it returns neither the chunk id of
    the first document, which was stored, nor a list of failures; and the
    third document is never attempted, the last call made being the
    encoding of the second. *)
Lemma add_documents_batch_stops_at_failure :
  fst (add_documents_batch (Ref.backend [u "bad"])
         [Sample.d1; Sample.bad; Sample.d3] 500 100 Ref.start)
    = Raise (BackendError (u "model unavailable")) /\
  map rec_id
    (Ref.records
       (env (snd (add_documents_batch (Ref.backend [u "bad"])
                    [Sample.d1; Sample.bad; Sample.d3] 500 100 Ref.start))))
    = [u "d1_chunk_0"] /\
  List.filter (fun c => negb (is_store_call c))
    (calls (snd (add_documents_batch (Ref.backend [u "bad"])
                   [Sample.d1; Sample.bad; Sample.d3] 500 100 Ref.start)))
    = [CallEncode [u "alpha beta gamma delta"]; CallEncode [u "bad"]].
Proof. repeat split; vm_compute; reflexivity. Qed.

(** ** The fixed overlap of [process_document] *)

Lemma add_document_50 {S} (B : Backend S) content doc_id meta w :
  add_document B content doc_id meta 50 w
  = (Raise (ValueError (u "range() arg 3 must not be zero")),
     after_id B doc_id w).
Proof.
  destruct (add_document B content doc_id meta 50 w) as [r w'] eqn:Hrun.
  apply add_document_inv in Hrun. rewrite process_document_50 in Hrun.
  destruct Hrun as [-> ->]. reflexivity.
Qed.

(** C9.  [process_document] chunks with [overlap = 50] whatever the
    [chunk_size].  Hence, for every content: with [chunk_size = 50],
    [add_document] raises the [ValueError] of [range] before any call to
    the model or the collection, and so do [update_document] and, on a
    non-empty document list, [add_documents_batch]; with [chunk_size < 50]
    the chunk list is empty, so that an [add_document] that returns has
    stored nothing: it returns no id, having called the model and the
    collection with empty lists. *)
Theorem add_document_fixed_overlap {S} (B : Backend S) content doc_id meta w :
  (forall chunk_size,
      process_document content chunk_size
      = chunk_text (clean_text content) chunk_size 50) /\
  process_document content 50
    = Raise (ValueError (u "range() arg 3 must not be zero")) /\
  add_document B content doc_id meta 50 w
    = (Raise (ValueError (u "range() arg 3 must not be zero")),
       after_id B doc_id w) /\
  (forall d,
      fst (update_document B d content meta 50 w)
      = Raise (ValueError (u "range() arg 3 must not be zero"))) /\
  (forall doc docs batch_size,
      0 < batch_size ->
      fst (add_documents_batch B (doc :: docs) 50 batch_size w)
      = Raise (ValueError (u "range() arg 3 must not be zero"))) /\
  (forall chunk_size,
      chunk_size < 50 ->
      process_document content chunk_size = Ok [] /\
      forall ids w',
        add_document B content doc_id meta chunk_size w = (Ok ids, w') ->
        ids = [] /\
        calls w' = calls w ++ [CallEncode []; CallAdd [] [] [] []]).
Proof.
  split; [reflexivity |].
  split; [apply process_document_50 |].
  split; [apply add_document_50 |].
  split; [| split].
  - intros d. unfold update_document, bind.
    destruct (delete_document_total B d w) as [b Hb].
    destruct (delete_document B d w) as [[b' | e] w1]; [| discriminate].
    by rewrite add_document_50.
  - intros doc docs batch_size Hb.
    rewrite add_documents_batch_sequential by assumption.
    cbn [for_each]. unfold bind. rewrite batch_step_run.
    by rewrite add_document_50.
  - intros chunk_size Hlt.
    pose proof (process_document_below_50 content chunk_size Hlt) as Hnone.
    split; [assumption |]. intros ids w' Hrun.
    rewrite (no_chunks_run B _ _ _ _ _ Hnone) in Hrun.
    destruct (model_encode B [] (env (after_id B doc_id w))) as [[embs | e] s1];
      [| discriminate].
    destruct (fst (collection_add B [] [] [] [] s1)); [| discriminate].
    by inversion Hrun.
Qed.

(** On the sample text: at [chunk_size = 50] ingestion raises, at
    [chunk_size = 49] the four words are dropped and nothing is stored. *)
Example add_document_small_chunk_size :
  fst (add_document (Ref.backend []) (u "alpha beta gamma delta")
         (Some (u "d1")) None 50 Ref.start)
    = Raise (ValueError (u "range() arg 3 must not be zero")) /\
  add_document (Ref.backend []) (u "alpha beta gamma delta")
    (Some (u "d1")) None 49 Ref.start
    = (Ok [], mkWorld Ref.init [CallEncode []; CallAdd [] [] [] []]).
Proof. split; reflexivity. Qed.

(** ** Facts about float comparison *)

Section FloatFacts.

(** Swapping the arguments of the comparison of the specification
    mirrors its result. *)
Lemma SFcompare_swap x y :
  SFcompare y x = option_map CompOpp (SFcompare x y).
Proof.
  destruct x as [sx | sx | | sx mx ex], y as [sy | sy | | sy my ey];
    simpl; try reflexivity;
    try (destruct sx; reflexivity); try (destruct sy; reflexivity);
    try (destruct sx, sy; reflexivity).
  destruct sx, sy; try reflexivity;
    rewrite (Z.compare_antisym ex ey);
    destruct (ex ?= ey); simpl; try reflexivity;
    by rewrite (Pos.compare_cont_antisym mx my Eq).
Qed.

(** [x < y] excludes [y <= x]. *)
Lemma ltb_not_leb (x y : float) :
  PrimFloat.ltb x y = true -> PrimFloat.leb y x = false.
Proof.
  rewrite ltb_spec, leb_spec. unfold SFltb, SFleb.
  rewrite (SFcompare_swap (Prim2SF x) (Prim2SF y)).
  destruct (SFcompare (Prim2SF x) (Prim2SF y)) as [[| |] |];
    simpl; congruence.
Qed.

(** [x < y] excludes [y < x]. *)
Lemma ltb_asym (x y : float) :
  PrimFloat.ltb x y = true -> PrimFloat.ltb y x = false.
Proof.
  rewrite !ltb_spec. unfold SFltb.
  rewrite (SFcompare_swap (Prim2SF x) (Prim2SF y)).
  destruct (SFcompare (Prim2SF x) (Prim2SF y)) as [[| |] |];
    simpl; congruence.
Qed.

End FloatFacts.

(** ** Facts about [search] *)

Lemma traverse_length {A B} (f : A -> result B) l : forall ys,
  traverse f l = Ok ys -> length ys = length l.
Proof.
  induction l as [|x l IH]; intros ys H; simpl in H.
  - by inversion H.
  - destruct (f x); [| discriminate]. simpl in H.
    destruct (traverse f l); [| discriminate]. simpl in H.
    inversion H; subst. simpl. f_equal. by apply IH.
Qed.

Lemma traverse_lookup {A B} (f : A -> result B) l : forall ys i y,
  traverse f l = Ok ys -> ys !! i = Some y ->
  exists x, l !! i = Some x /\ f x = Ok y.
Proof.
  induction l as [|x l IH]; intros ys i y H Hi; simpl in H.
  - inversion H; subst. by destruct i.
  - destruct (f x) as [y0 |] eqn:Hx; [| discriminate]. simpl in H.
    destruct (traverse f l) as [ys0 |]; [| discriminate]. simpl in H.
    inversion H; subst. destruct i as [|i]; simpl in Hi.
    + inversion Hi; subst. by exists x.
    + by apply (IH ys0).
Qed.

Section SearchFacts.

Context {S : Type} (B : Backend S).

(** The loop of [search] changes nothing but its accumulator: it appends
    the hits that reach [min_similarity], in order, or raises at the first
    position it cannot read. *)
Lemma search_loop results min_similarity idx : forall acc w,
  for_each idx (search_step (S:=S) results min_similarity) acc w
  = match traverse (hit_at results) idx with
    | Ok hits =>
        (Ok (acc ++ List.filter
                      (fun h => PrimFloat.leb min_similarity (similarity_score h))
                      hits), w)
    | Raise e => (Raise e, w)
    end.
Proof.
  induction idx as [|i idx IH]; intros acc w; simpl.
  - by rewrite app_nil_r.
  - unfold bind at 1. unfold search_step at 1. unfold bind, lift.
    destruct (hit_at results i) as [h | e]; simpl; [| reflexivity].
    destruct (PrimFloat.leb min_similarity (similarity_score h)) eqn:Hle;
      unfold ret; rewrite IH;
      destruct (traverse (hit_at results) idx); simpl; rewrite ?Hle;
      try reflexivity.
    by rewrite <- app_assoc.
Qed.

(** The score of a hit is made of the distance at its position. *)
Lemma hit_at_score results i h :
  hit_at results i = Ok h ->
  match qr_distances results with
  | Some ds =>
      exists ds0 d, ds !! 0%nat = Some ds0 /\ ds0 !! i = Some d /\
                    similarity_score h = PrimFloat.sub 1 d
  | None => similarity_score h = 0%float
  end.
Proof.
  unfold hit_at, rbind, Py.index. intros H.
  repeat match type of H with
         | context [match ?l !! ?k with _ => _ end] =>
             destruct (l !! k) eqn:?; [| try discriminate]
         end.
  destruct (qr_distances results) as [ds |].
  - repeat match type of H with
           | context [match ?l !! ?k with _ => _ end] =>
               destruct (l !! k) eqn:?; [| try discriminate]
           end.
    inversion H; subst. simpl. eauto.
  - by inversion H.
Qed.

(** A hit carries the id, the document and the metadata at its
    position. *)
Lemma hit_at_fields results i h :
  hit_at results i = Ok h ->
  exists ids0 docs0 metas0,
    qr_ids results !! 0%nat = Some ids0 /\
    qr_documents results !! 0%nat = Some docs0 /\
    qr_metadatas results !! 0%nat = Some metas0 /\
    ids0 !! i = Some (document_id h) /\
    docs0 !! i = Some (content h) /\
    metas0 !! i = Some (result_metadata h).
Proof.
  unfold hit_at, rbind, Py.index. intros H.
  repeat match type of H with
         | context [match ?l !! ?k with _ => _ end] =>
             destruct (l !! k) eqn:?; [| try discriminate]
         end.
  destruct (qr_distances results) as [ds |].
  - repeat match type of H with
           | context [match ?l !! ?k with _ => _ end] =>
               destruct (l !! k) eqn:?; [| try discriminate]
           end.
    inversion H; subst. simpl. eauto 10.
  - inversion H; subst. simpl. eauto 10.
Qed.

End SearchFacts.

(** Every run of [search] that returns. *)
Lemma search_inv {S} (B : Backend S) query n filter_metadata min_similarity
    w rs w' :
  search B query n filter_metadata min_similarity w = (Ok rs, w') ->
  exists embs s1 qe resp s2 ids0 hits,
    model_encode B [query] (env w) = (Ok embs, s1) /\
    embs !! 0%nat = Some qe /\
    collection_query B qe n (where_clause_of filter_metadata) s1
      = (Ok resp, s2) /\
    qr_ids resp !! 0%nat = Some ids0 /\
    traverse (hit_at resp) (seq 0 (length ids0)) = Ok hits /\
    rs = List.filter
           (fun h => PrimFloat.leb min_similarity (similarity_score h)) hits /\
    w' = mkWorld s2
           (calls w ++ [CallEncode [query];
                        CallQuery qe n (where_clause_of filter_metadata)]).
Proof.
  unfold search. intros Hrun.
  unfold bind at 1 in Hrun. unfold encode in Hrun.
  rewrite record_call_run in Hrun.
  destruct (model_encode B [query] (env w)) as [[embs | e] s1] eqn:Henc;
    [| discriminate].
  cbn [fst snd] in Hrun. unfold bind at 1 in Hrun. unfold lift at 1 in Hrun.
  unfold Py.index at 1 in Hrun.
  destruct (embs !! 0%nat) as [qe |] eqn:Hqe; [| discriminate].
  unfold bind at 1 in Hrun. unfold coll_query in Hrun.
  rewrite record_call_run in Hrun. cbn [env calls] in Hrun.
  destruct (collection_query B qe n (where_clause_of filter_metadata) s1)
    as [[resp | e] s2] eqn:Hq; [| discriminate].
  cbn [fst snd] in Hrun. unfold bind at 1 in Hrun. unfold lift at 1 in Hrun.
  unfold Py.index at 1 in Hrun.
  destruct (qr_ids resp !! 0%nat) as [ids0 |] eqn:Hids; [| discriminate].
  rewrite search_loop in Hrun.
  destruct (traverse (hit_at resp) (seq 0 (length ids0))) as [hits | e] eqn:Hh;
    [| discriminate].
  inversion Hrun; subst. rewrite <- app_assoc.
  by exists embs, s1, qe, resp, s2, ids0, hits.
Qed.

(** C2.  When [collection.query] gives at most [n_results] hits and
    [search] returns, its results are the hits of the collection's answer,
    each scored [1 - distance], in the answer's order, without those whose
    score does not reach [min_similarity]: there are at most [n_results] of
    them, each has [similarity_score >= min_similarity], and no hit scored
    below [min_similarity] is among them. *)
Theorem search_scores_filter_bound {S} (B : Backend S) query n
    filter_metadata min_similarity w rs w' :
  query_bounded B ->
  search B query n filter_metadata min_similarity w = (Ok rs, w') ->
  exists qe resp ids0 hits,
    calls w' = calls w ++ [CallEncode [query];
                           CallQuery qe n (where_clause_of filter_metadata)] /\
    (exists s1 s2,
        collection_query B qe n (where_clause_of filter_metadata) s1
        = (Ok resp, s2)) /\
    qr_ids resp !! 0%nat = Some ids0 /\
    traverse (hit_at resp) (seq 0 (length ids0)) = Ok hits /\
    (forall i h, hits !! i = Some h -> ids0 !! i = Some (document_id h)) /\
    (forall i h ds ds0 d,
        hits !! i = Some h -> qr_distances resp = Some ds ->
        ds !! 0%nat = Some ds0 -> ds0 !! i = Some d ->
        similarity_score h = PrimFloat.sub 1 d) /\
    rs = List.filter
           (fun h => PrimFloat.leb min_similarity (similarity_score h)) hits /\
    Z.of_nat (length rs) <= n /\
    Forall (fun r => PrimFloat.leb min_similarity (similarity_score r) = true) rs /\
    (forall h, In h hits ->
               PrimFloat.ltb (similarity_score h) min_similarity = true ->
               ~ In h rs).
Proof.
  intros Hbound Hrun. apply search_inv in Hrun.
  destruct Hrun as (embs & s1 & qe & resp & s2 & ids0 & hits
                    & Henc & Hqe & Hq & Hids & Hh & -> & ->).
  exists qe, resp, ids0, hits.
  split; [reflexivity |]. split; [by exists s1, s2 |].
  split; [assumption |]. split; [assumption |].
  split; [| split; [| split; [reflexivity |]; split; [| split]]].
  - intros i h Hi.
    destruct (traverse_lookup _ _ _ _ _ Hh Hi) as (k & Hk & Hhit).
    apply lookup_seq in Hk. destruct Hk as [-> _]. simpl in Hhit.
    apply hit_at_fields in Hhit.
    destruct Hhit as (ids0' & docs0 & metas0 & Hids' & _ & _ & Hid & _).
    congruence.
  - intros i h ds ds0 d Hi Hds Hds0 Hd.
    destruct (traverse_lookup _ _ _ _ _ Hh Hi) as (k & Hk & Hhit).
    apply lookup_seq in Hk. destruct Hk as [-> _]. simpl in Hhit.
    apply hit_at_score in Hhit. rewrite Hds in Hhit.
    destruct Hhit as (ds0' & d' & Hds0' & Hd' & Hs). congruence.
  - pose proof (Hbound _ _ _ _ _ _ _ Hq Hids) as Hn.
    apply traverse_length in Hh. rewrite length_seq in Hh.
    pose proof (filter_length_le
                  (fun h => PrimFloat.leb min_similarity (similarity_score h))
                  hits). lia.
  - apply Forall_forall. intros r Hr.
    apply list_elem_of_In, filter_In in Hr. by destruct Hr.
  - intros h _ Hlt Hin. apply filter_In in Hin. destruct Hin as [_ Hle].
    apply ltb_not_leb in Hlt. congruence.
Qed.

Lemma ref_query_bounded down : query_bounded (Ref.backend down).
Proof.
  intros e n wh s r s' ids0 H Hids. simpl in H. unfold Ref.query in H.
  destruct (Z.leb_spec n 0) as [? | Hn]; [discriminate |].
  inversion H; subst. simpl in Hids. inversion Hids; subst.
  rewrite length_map, length_take. lia.
Qed.

Lemma search_scores_filter_bound_witness :
  exists qe resp ids0 hits,
    calls (snd (search (Ref.backend []) (u "alpha") 2 None 0%float
                  Sample.with_d1))
    = calls Sample.with_d1
        ++ [CallEncode [u "alpha"]; CallQuery qe 2 (where_clause_of None)] /\
    (exists s1 s2,
        collection_query (Ref.backend []) qe 2 (where_clause_of None) s1
        = (Ok resp, s2)) /\
    qr_ids resp !! 0%nat = Some ids0 /\
    traverse (hit_at resp) (seq 0 (length ids0)) = Ok hits /\
    (forall i h, hits !! i = Some h -> ids0 !! i = Some (document_id h)) /\
    (forall i h ds ds0 d,
        hits !! i = Some h -> qr_distances resp = Some ds ->
        ds !! 0%nat = Some ds0 -> ds0 !! i = Some d ->
        similarity_score h = PrimFloat.sub 1 d) /\
    Sample.found
      = List.filter (fun h => PrimFloat.leb 0%float (similarity_score h)) hits /\
    Z.of_nat (length Sample.found) <= 2 /\
    Forall (fun r => PrimFloat.leb 0%float (similarity_score r) = true)
      Sample.found /\
    (forall h, In h hits ->
               PrimFloat.ltb (similarity_score h) 0%float = true ->
               ~ In h Sample.found).
Proof.
  apply (search_scores_filter_bound (Ref.backend []) (u "alpha") 2 None 0%float
           Sample.with_d1 Sample.found).
  - apply ref_query_bounded.
  - vm_compute. reflexivity.
Defined.

(** On the sample: both chunks of [d1] are found, each with score [1]. *)
Example search_alpha :
  map document_id Sample.found = [u "d1_chunk_0"; u "d1_chunk_1"] /\
  map similarity_score Sample.found = [1%float; 1%float].
Proof. split; vm_compute; reflexivity. Qed.

(** ** More facts about float comparison *)

Lemma SFleb_trans x y z :
  SFleb x y = true -> SFleb y z = true -> SFleb x z = true.
Proof.
  unfold SFleb.
  destruct x as [sx | sx | | sx mx ex], y as [sy | sy | | sy my ey],
    z as [sz | sz | | sz mz ez]; simpl; try discriminate; try reflexivity;
    try (destruct sx; simpl; try discriminate; try reflexivity; fail);
    try (destruct sy; simpl; try discriminate; try reflexivity; fail);
    try (destruct sz; simpl; try discriminate; try reflexivity; fail);
    try (destruct sx, sy; simpl; try discriminate; try reflexivity; fail);
    try (destruct sx, sz; simpl; try discriminate; try reflexivity; fail);
    try (destruct sy, sz; simpl; try discriminate; try reflexivity; fail);
    try (destruct sx, sy, sz; simpl; try discriminate; try reflexivity; fail).
  destruct sx, sy, sz; simpl; try discriminate; try reflexivity;
    intros H1 H2; cmp_cases; simpl in *; try discriminate; try reflexivity;
    try lia.
Qed.

Lemma leb_trans (x y z : float) :
  PrimFloat.leb x y = true -> PrimFloat.leb y z = true ->
  PrimFloat.leb x z = true.
Proof. rewrite !leb_spec. apply SFleb_trans. Qed.

Lemma SFcompare_numbers x y :
  SFcompare x x = Some Eq -> SFcompare y y = Some Eq ->
  exists c, SFcompare x y = Some c.
Proof.
  destruct x as [sx | sx | | sx mx ex], y as [sy | sy | | sy my ey];
    simpl; try discriminate; eauto.
Qed.

(** Among numbers, [not (x < y)] is [y <= x]. *)
Lemma not_ltb_leb (x y : float) :
  PrimFloat.is_nan x = false -> PrimFloat.is_nan y = false ->
  PrimFloat.ltb x y = false -> PrimFloat.leb y x = true.
Proof.
  unfold PrimFloat.is_nan. rewrite !FloatAxioms.eqb_spec, ltb_spec, leb_spec.
  unfold SFeqb, SFltb, SFleb. intros Hx Hy.
  assert (SFcompare (Prim2SF x) (Prim2SF x) = Some Eq) as Hx'
    by (destruct (SFcompare (Prim2SF x) (Prim2SF x)) as [[| |] |];
        simpl in Hx; congruence).
  assert (SFcompare (Prim2SF y) (Prim2SF y) = Some Eq) as Hy'
    by (destruct (SFcompare (Prim2SF y) (Prim2SF y)) as [[| |] |];
        simpl in Hy; congruence).
  destruct (SFcompare_numbers _ _ Hx' Hy') as [c Hc].
  rewrite (SFcompare_swap (Prim2SF x) (Prim2SF y)), Hc.
  destruct c; simpl; congruence.
Qed.

(** A comparison that holds is one of numbers. *)
Lemma ltb_numbers (x y : float) :
  PrimFloat.ltb x y = true ->
  PrimFloat.is_nan x = false /\ PrimFloat.is_nan y = false.
Proof.
  unfold PrimFloat.is_nan. rewrite !FloatAxioms.eqb_spec, ltb_spec.
  unfold SFeqb, SFltb.
  destruct (Prim2SF x) as [sx | sx | | sx mx ex],
           (Prim2SF y) as [sy | sy | | sy my ey];
    simpl; try discriminate; intros _;
    repeat match goal with
    | s : bool |- _ => destruct s
    end; simpl; rewrite ?Z.compare_refl, ?Pos.compare_cont_refl; simpl;
    by split.
Qed.

(** ** Facts about the stable descending sort by insertion *)

Section InsertionSortFacts.

Context {A : Type} (key : A -> float).

Lemma insert_desc_perm x l : Permutation (insert_desc key x l) (x :: l).
Proof.
  induction l as [|y l IH]; simpl; [reflexivity |].
  destruct (PrimFloat.ltb (key x) (key y)); [| reflexivity].
  transitivity (y :: x :: l); [by constructor | apply perm_swap].
Qed.

Lemma insertion_sort_desc_perm l : Permutation (insertion_sort_desc key l) l.
Proof.
  induction l as [|x l IH]; simpl; [reflexivity |].
  transitivity (x :: insertion_sort_desc key l);
    [apply insert_desc_perm | by constructor].
Qed.

Lemma insert_desc_hd x y l :
  PrimFloat.ltb (key y) (key x) = false ->
  HdRel (no_ascent key) y l -> HdRel (no_ascent key) y (insert_desc key x l).
Proof.
  intros Hyx Hl. destruct l as [|z l]; simpl; [by constructor |].
  destruct (PrimFloat.ltb (key x) (key z)); constructor;
    [by inversion Hl | assumption].
Qed.

Lemma insert_desc_sorted x l :
  Sorted (no_ascent key) l -> Sorted (no_ascent key) (insert_desc key x l).
Proof.
  induction l as [|y l IH]; intros Hl; simpl.
  - by repeat constructor.
  - inversion Hl as [|? ? Hl' Hhd]; subst.
    destruct (PrimFloat.ltb (key x) (key y)) eqn:Hxy.
    + constructor; [by apply IH |].
      apply insert_desc_hd; [by apply ltb_asym | assumption].
    + constructor; [assumption | by constructor].
Qed.

Lemma insertion_sort_desc_sorted l : Sorted (no_ascent key) (insertion_sort_desc key l).
Proof.
  induction l as [|x l IH]; simpl; [constructor |].
  by apply insert_desc_sorted.
Qed.

Lemma insert_desc_in x y l : In y l -> In y (insert_desc key x l).
Proof.
  intros H. apply (Permutation_in y (Permutation_sym (insert_desc_perm x l))).
  by right.
Qed.

Lemma insertion_sort_desc_in y l : In y l -> In y (insertion_sort_desc key l).
Proof.
  intros H. by apply (Permutation_in y (Permutation_sym (insertion_sort_desc_perm l))).
Qed.

(** Inserting an element keeps the order of two others. *)
Lemma insert_desc_precedes x a b l :
  precedes a b l -> precedes a b (insert_desc key x l).
Proof.
  induction 1 as [l Hb | y l Hp IH]; simpl.
  - destruct (PrimFloat.ltb (key x) (key a)).
    + constructor. by apply insert_desc_in.
    + apply precedes_later. by constructor.
  - destruct (PrimFloat.ltb (key x) (key y)).
    + by apply precedes_later.
    + by do 2 apply precedes_later.
Qed.

(** An inserted element stops in front of any element whose key is not
    strictly greater. *)
Lemma insert_desc_before a b l :
  In b l -> PrimFloat.ltb (key a) (key b) = false ->
  precedes a b (insert_desc key a l).
Proof.
  induction l as [|y l IH]; intros Hb Hab; [destruct Hb |]. simpl.
  destruct (PrimFloat.ltb (key a) (key y)) eqn:Hay.
  - destruct Hb as [-> | Hb]; [congruence |].
    apply precedes_later. by apply IH.
  - by constructor.
Qed.

Lemma insertion_sort_desc_stable a b l :
  precedes a b l -> PrimFloat.ltb (key a) (key b) = false ->
  precedes a b (insertion_sort_desc key l).
Proof.
  induction 1 as [l Hb | y l Hp IH]; intros Hab; simpl.
  - apply insert_desc_before; [by apply insertion_sort_desc_in | assumption].
  - apply insert_desc_precedes. by apply IH.
Qed.

Lemma insertion_sort_desc_descending l :
  Forall (fun a => PrimFloat.is_nan (key a) = false) l ->
  StronglySorted (fun a b => PrimFloat.leb (key b) (key a) = true)
    (insertion_sort_desc key l).
Proof.
  intros Hnum. apply Sorted_StronglySorted.
  - intros a b c Hab Hbc. by apply (leb_trans _ (key b)).
  - assert (Hnum' : Forall (fun a => PrimFloat.is_nan (key a) = false)
                      (insertion_sort_desc key l)).
    { apply Forall_forall. intros a Ha. rewrite Forall_forall in Hnum.
      apply Hnum. apply list_elem_of_In. apply list_elem_of_In in Ha.
      by apply (Permutation_in a (insertion_sort_desc_perm l)). }
    pose proof (insertion_sort_desc_sorted l) as Hs.
    induction Hs as [|a out Hs IH Hhd]; [constructor |].
    inversion Hnum' as [|? ? Ha Hout]; subst.
    constructor; [by apply IH |].
    destruct Hhd as [|b out Hab]; constructor.
    inversion Hout; subst. by apply not_ltb_leb.
Qed.

End InsertionSortFacts.

(** ** Facts about [list.sort] *)

Section ListSortFacts.

Context {A : Type} (lt : A -> A -> bool).

Lemma middle_bounds (l r : nat) :
  (l < r)%nat -> (l <= l + (r - l) / 2 < r)%nat.
Proof.
  intros Hlr. split; [lia |].
  pose proof (Nat.Div0.div_lt_upper_bound (r - l) 2 (r - l)). lia.
Qed.

(** The binary search needs no more than [r - l] turns. *)
Lemma binary_search_fuel sorted pivot : forall f1 f2 l r,
  (l < r)%nat -> (r - l <= f1)%nat -> (r - l <= f2)%nat ->
  binary_search lt f1 sorted pivot l r = binary_search lt f2 sorted pivot l r.
Proof.
  induction f1 as [|f1 IH]; intros f2 l r Hlr H1 H2; [lia |].
  destruct f2 as [|f2]; [lia |]. cbn [binary_search].
  pose proof (middle_bounds l r Hlr) as Hp.
  set (p := (l + (r - l) / 2)%nat) in *.
  destruct (sorted !! p) as [x |]; [| reflexivity].
  destruct (lt pivot x).
  - destruct (Nat.ltb_spec l p); [| reflexivity]. apply IH; lia.
  - destruct (Nat.ltb_spec (S p) r); [| reflexivity]. apply IH; lia.
Qed.

(** In a list that is cut in two by [pivot < x], false before and true
    behind, the search ends at the cut. *)
Lemma binary_search_cut pivot s1 s2 :
  Forall (fun x => lt pivot x = false) s1 ->
  Forall (fun x => lt pivot x = true) s2 ->
  forall f l r,
    (l < r)%nat -> (l <= length s1 <= r)%nat ->
    (r <= length (s1 ++ s2))%nat -> (r - l <= f)%nat ->
    binary_search lt f (s1 ++ s2) pivot l r = length s1.
Proof.
  intros H1 H2. induction f as [|f IH]; intros l r Hlr Hcut Hr Hf; [lia |].
  cbn [binary_search]. pose proof (middle_bounds l r Hlr) as Hp.
  set (p := (l + (r - l) / 2)%nat) in *.
  pose proof (length_app s1 s2) as Hlen.
  destruct (Nat.lt_ge_cases p (length s1)) as [Hlt | Hge].
  - destruct (lookup_lt_is_Some_2 s1 p Hlt) as [x Hx].
    rewrite (lookup_app_l_Some _ _ _ _ Hx).
    rewrite (proj1 (Forall_lookup _ _) H1 _ _ Hx).
    destruct (Nat.ltb_spec (S p) r); [apply IH; lia | lia].
  - assert (Hlt2 : (p - length s1 < length s2)%nat) by lia.
    destruct (lookup_lt_is_Some_2 s2 _ Hlt2) as [x Hx].
    rewrite lookup_app_r by lia. rewrite Hx.
    rewrite (proj1 (Forall_lookup _ _) H2 _ _ Hx).
    destruct (Nat.ltb_spec l p); [apply IH; lia | lia].
Qed.

Lemma binary_insert_cut pivot s1 s2 :
  Forall (fun x => lt pivot x = false) s1 ->
  Forall (fun x => lt pivot x = true) s2 ->
  binary_insert lt (s1 ++ s2) pivot = s1 ++ pivot :: s2.
Proof.
  intros H1 H2. unfold binary_insert.
  assert (Hk : binary_search lt (length (s1 ++ s2)) (s1 ++ s2) pivot 0
                 (length (s1 ++ s2)) = length s1).
  { destruct (decide (length (s1 ++ s2) = 0%nat)) as [Hz | Hz].
    - rewrite Hz. rewrite length_app in Hz. simpl. lia.
    - apply binary_search_cut; try assumption; rewrite ?length_app in *; lia. }
  rewrite Hk, take_app_length, drop_app_length. reflexivity.
Qed.

(** The run [count_run] finds is a chain: each element stands to the one
    before it as the second does to the first. *)
Lemma run_tail_chain descending : forall l prev,
  Sorted (fun a b => lt b a = descending)
    (prev :: take (run_tail lt descending prev l) l).
Proof.
  induction l as [|x l IH]; intros prev; simpl.
  - by repeat constructor.
  - destruct (Bool.eqb (lt x prev) descending) eqn:Hx; simpl.
    + constructor; [apply IH |]. constructor. by apply Bool.eqb_prop.
    + by repeat constructor.
Qed.

Lemma count_run_chain l n descending :
  count_run lt l = (n, descending) ->
  Sorted (fun a b => lt b a = descending) (take n l).
Proof.
  destruct l as [|x [|y l]]; simpl; intros H; inversion H; subst; simpl.
  - constructor.
  - by repeat constructor.
  - constructor; [apply run_tail_chain |]. by constructor.
Qed.

End ListSortFacts.

(** ** The merges and the runs keep the elements *)

Section MergeFacts.

Context {A : Type} (lt : A -> A -> bool).

Lemma unsnoc_Some (l l' : list A) x : unsnoc l = Some (l', x) -> l = l' ++ [x].
Proof.
  unfold unsnoc. destruct (rev l) as [|y r] eqn:Hr; [discriminate |].
  intros H. inversion H; subst.
  rewrite <- (rev_involutive l), Hr. reflexivity.
Qed.

Lemma unsnoc_None (l : list A) : unsnoc l = None -> l = [].
Proof.
  unfold unsnoc. destruct (rev l) as [|y r] eqn:Hr; [| discriminate].
  intros _. rewrite <- (rev_involutive l), Hr. reflexivity.
Qed.

Lemma merge_lo_loop_perm : forall fuel galloping acc ra rb mg ms ac bc,
  (merge_lo_loop lt fuel galloping acc ra rb mg ms ac bc).1 ≡ₚ acc ++ ra ++ rb.
Proof.
  induction fuel as [|fuel IH]; intros galloping acc ra rb mg ms ac bc;
    [reflexivity |].
  destruct ra as [|a0 ra'], rb as [|b0 rb']; try reflexivity.
  cbn [merge_lo_loop]. destruct galloping.
  - cbv zeta. remember (a0 :: ra') as ra eqn:Era.
    generalize (gallop_right lt b0 ra 0). intros k.
    pose proof (take_drop k ra) as Hk.
    set (t := take k ra) in *. set (d := drop k ra) in *. clearbody t d.
    rewrite <- Hk. clear Hk Era.
    destruct (negb (k =? 0)%nat && (length d =? 1)%nat);
      [simpl fst; solve_Permutation |].
    destruct (negb (k =? 0)%nat && (length d =? 0)%nat) eqn:Hz.
    { simpl fst. apply andb_true_iff in Hz. destruct Hz as [_ Hz].
      apply Nat.eqb_eq in Hz. apply nil_length_inv in Hz. subst d.
      solve_Permutation. }
    destruct rb' as [|b1 rb']; [simpl fst; solve_Permutation |].
    destruct d as [|a1 ra'']; [simpl fst; solve_Permutation |].
    remember (b1 :: rb') as rb eqn:Erb.
    generalize (gallop_left lt a1 rb 0). intros k2.
    pose proof (take_drop k2 rb) as Hk2.
    set (t2 := take k2 rb) in *. set (d2 := drop k2 rb) in *. clearbody t2 d2.
    rewrite <- Hk2. clear Hk2 Erb.
    destruct (negb (k2 =? 0)%nat && (length d2 =? 0)%nat) eqn:Hz2.
    { simpl fst. apply andb_true_iff in Hz2. destruct Hz2 as [_ Hz2].
      apply Nat.eqb_eq in Hz2. apply nil_length_inv in Hz2. subst d2.
      solve_Permutation. }
    destruct (length ra'' =? 1)%nat; [simpl fst; solve_Permutation |].
    destruct ((MIN_GALLOP <=? k)%nat || (MIN_GALLOP <=? k2)%nat);
      (etransitivity; [apply IH |]); solve_Permutation.
  - destruct (lt b0 a0).
    + cbv zeta. destruct rb' as [|b1 rb']; [simpl fst; solve_Permutation |].
      destruct (mg <=? S bc)%nat; (etransitivity; [apply IH |]);
        solve_Permutation.
    + cbv zeta. destruct (length ra' =? 1)%nat;
        [simpl fst; solve_Permutation |].
      destruct (mg <=? S ac)%nat; (etransitivity; [apply IH |]);
        solve_Permutation.
Qed.

Lemma merge_lo_perm a b ms : (merge_lo lt a b ms).1 ≡ₚ a ++ b.
Proof.
  unfold merge_lo. destruct b as [|b0 [|b1 rb]]; simpl fst.
  - by rewrite app_nil_r.
  - solve_Permutation.
  - destruct (length a =? 1)%nat; [simpl fst; solve_Permutation |].
    etransitivity; [apply merge_lo_loop_perm |]. solve_Permutation.
Qed.

Lemma merge_hi_loop_perm : forall fuel galloping acc ra rb mg ms ac bc,
  (merge_hi_loop lt fuel galloping acc ra rb mg ms ac bc).1 ≡ₚ ra ++ rb ++ acc.
Proof.
  induction fuel as [|fuel IH]; intros galloping acc ra rb mg ms ac bc;
    [reflexivity |].
  cbn [merge_hi_loop].
  destruct (unsnoc ra) as [[ra' a1] |] eqn:Hra; [| reflexivity].
  destruct (unsnoc rb) as [[rb' b1] |] eqn:Hrb; [| reflexivity].
  apply unsnoc_Some in Hra, Hrb. destruct galloping.
  - cbv zeta. clear Hra. subst rb.
    generalize (length ra - gallop_right lt b1 ra (length ra - 1))%nat.
    intros k. generalize (length ra - k)%nat. intros j.
    pose proof (take_drop j ra) as Hj.
    set (t := take j ra) in *. set (d := drop j ra) in *. clearbody t d.
    rewrite <- Hj. clear Hj.
    destruct (negb (k =? 0)%nat && (length t =? 0)%nat) eqn:Hz.
    { simpl fst. apply andb_true_iff in Hz. destruct Hz as [_ Hz].
      apply Nat.eqb_eq in Hz. apply nil_length_inv in Hz. subst t.
      solve_Permutation. }
    destruct (length rb' =? 1)%nat; [simpl fst; solve_Permutation |].
    destruct (unsnoc t) as [[ra2 a2] |] eqn:Hra2.
    2: { simpl fst. apply unsnoc_None in Hra2. subst t. solve_Permutation. }
    apply unsnoc_Some in Hra2. subst t.
    generalize (length rb' - gallop_left lt a2 rb' (length rb' - 1))%nat.
    intros k2. generalize (length rb' - k2)%nat. intros j2.
    pose proof (take_drop j2 rb') as Hj2.
    set (t2 := take j2 rb') in *. set (d2 := drop j2 rb') in *.
    clearbody t2 d2. rewrite <- Hj2. clear Hj2.
    destruct (negb (k2 =? 0)%nat && (length t2 =? 1)%nat);
      [simpl fst; solve_Permutation |].
    destruct (negb (k2 =? 0)%nat && (length t2 =? 0)%nat) eqn:Hz2.
    { simpl fst. apply andb_true_iff in Hz2. destruct Hz2 as [_ Hz2].
      apply Nat.eqb_eq in Hz2. apply nil_length_inv in Hz2. subst t2.
      solve_Permutation. }
    destruct ra2 as [|a3 ra2]; [simpl fst; solve_Permutation |].
    destruct ((MIN_GALLOP <=? k)%nat || (MIN_GALLOP <=? k2)%nat);
      (etransitivity; [apply IH |]); solve_Permutation.
  - destruct (lt b1 a1); cbv zeta.
    + destruct ra' as [|a2 ra']; [simpl fst; rewrite Hra; solve_Permutation |].
      destruct (mg <=? S ac)%nat; (etransitivity; [apply IH |]);
        rewrite Hra; solve_Permutation.
    + destruct (length rb' =? 1)%nat;
        [simpl fst; rewrite Hrb; solve_Permutation |].
      destruct (mg <=? S bc)%nat; (etransitivity; [apply IH |]);
        rewrite Hrb; solve_Permutation.
Qed.

Lemma merge_hi_perm a b ms : (merge_hi lt a b ms).1 ≡ₚ a ++ b.
Proof.
  unfold merge_hi. destruct (unsnoc a) as [[ra a1] |] eqn:Ha.
  - apply unsnoc_Some in Ha. destruct ra as [|a2 ra].
    + simpl fst. rewrite Ha. solve_Permutation.
    + destruct (length b =? 1)%nat;
        [simpl fst; rewrite Ha; solve_Permutation |].
      etransitivity; [apply merge_hi_loop_perm |]. rewrite Ha.
      solve_Permutation.
  - apply unsnoc_None in Ha. by rewrite Ha.
Qed.

Lemma merge_runs_perm a b ms : (merge_runs lt a b ms).1 ≡ₚ a ++ b.
Proof.
  unfold merge_runs. destruct b as [|b0 rb]; [reflexivity |].
  destruct (unsnoc a) as [[? ?] |]; [| reflexivity].
  remember (b0 :: rb) as b eqn:Eb.
  generalize (gallop_right lt b0 a 0). intros k.
  destruct (unsnoc (drop k a)) as [[? a1] |]; [| reflexivity].
  generalize (gallop_left lt a1 b (length b - 1)). intros nb.
  destruct (nb =? 0)%nat; [reflexivity |].
  pose proof (take_drop k a) as Hk. pose proof (take_drop nb b) as Hnb.
  set (ta := take k a) in *. set (da := drop k a) in *.
  set (tb := take nb b) in *. set (db := drop nb b) in *.
  clearbody ta da tb db. rewrite <- Hk, <- Hnb. clear Hk Hnb Eb.
  destruct (length da <=? nb)%nat.
  - pose proof (merge_lo_perm da tb ms) as Hm.
    destruct (merge_lo lt da tb ms) as [m ms']. simpl in *. rewrite Hm.
    solve_Permutation.
  - pose proof (merge_hi_perm da tb ms) as Hm.
    destruct (merge_hi lt da tb ms) as [m ms']. simpl in *. rewrite Hm.
    solve_Permutation.
Qed.

End MergeFacts.

Section RunsFacts.

Context {A : Type} (lt : A -> A -> bool).

Lemma binary_insert_perm sorted pivot :
  Permutation (binary_insert lt sorted pivot) (pivot :: sorted).
Proof.
  unfold binary_insert. symmetry.
  etransitivity; [| apply Permutation_middle].
  by rewrite take_drop.
Qed.

Lemma binarysort_perm rest : forall run,
  Permutation (binarysort lt run rest) (run ++ rest).
Proof.
  unfold binarysort.
  induction rest as [|x rest IH]; intros run; simpl.
  - by rewrite app_nil_r.
  - etransitivity; [apply IH |].
    etransitivity;
      [apply Permutation_app_tail, binary_insert_perm |].
    simpl. apply Permutation_middle.
Qed.

Lemma run_tail_le descending : forall l prev,
  (run_tail lt descending prev l <= length l)%nat.
Proof.
  induction l as [|x l IH]; intros prev; simpl; [lia |].
  destruct (Bool.eqb (lt x prev) descending); [| lia].
  specialize (IH x). lia.
Qed.

Lemma count_run_le l : ((count_run lt l).1 <= length l)%nat.
Proof.
  destruct l as [|x [|y l]]; simpl; try lia.
  pose proof (run_tail_le (lt y x) l y). lia.
Qed.

Lemma concat_rev_perm (ls : list (list A)) : concat (rev ls) ≡ₚ concat ls.
Proof.
  induction ls as [|l ls IH]; [reflexivity |].
  simpl. rewrite concat_app, IH. simpl. rewrite app_nil_r.
  apply Permutation_app_comm.
Qed.

Lemma merge_pending_perm : forall fuel power p ms,
  concat (map fst (merge_pending lt fuel power p ms).1) ≡ₚ concat (map fst p).
Proof.
  induction fuel as [|fuel IH]; intros power p ms; [reflexivity |].
  destruct p as [|[rb pb] [|[ra pa] rest]]; try reflexivity.
  cbn [merge_pending]. destruct (power <? pa)%nat; [| reflexivity].
  pose proof (merge_runs_perm lt ra rb ms) as Hm.
  destruct (merge_runs lt ra rb ms) as [m ms'].
  etransitivity; [apply IH |]. simpl in *. rewrite Hm. solve_Permutation.
Qed.

Lemma found_new_run_perm p n2 listlen ms :
  concat (map fst (found_new_run lt p n2 listlen ms).1) ≡ₚ concat (map fst p).
Proof.
  unfold found_new_run. destruct p as [|[r pr] rest]; [reflexivity |].
  cbv zeta.
  generalize (power_of (length (concat (map fst rest))) (length r) n2 listlen).
  intros power.
  pose proof (merge_pending_perm (length ((r, pr) :: rest)) power
                ((r, pr) :: rest) ms) as Hp.
  destruct (merge_pending lt _ power ((r, pr) :: rest) ms) as [p' ms'].
  simpl fst in Hp. destruct p' as [|[r' pr'] rest']; exact Hp.
Qed.

Lemma merge_force_collapse_perm : forall fuel p ms,
  concat (map fst (merge_force_collapse lt fuel p ms)) ≡ₚ concat (map fst p).
Proof.
  induction fuel as [|fuel IH]; intros p ms; [reflexivity |].
  destruct p as [|[r2 p2] [|[r1 p1] rest]]; try reflexivity.
  cbn [merge_force_collapse]. destruct rest as [|[r0 p0] rest'].
  - pose proof (merge_runs_perm lt r1 r2 ms) as Hm.
    destruct (merge_runs lt r1 r2 ms) as [m ms'].
    etransitivity; [apply IH |]. simpl in *. rewrite Hm. solve_Permutation.
  - destruct (length r0 <? length r2)%nat.
    + pose proof (merge_runs_perm lt r0 r1 ms) as Hm.
      destruct (merge_runs lt r0 r1 ms) as [m ms'].
      etransitivity; [apply IH |]. simpl in *. rewrite Hm. solve_Permutation.
    + pose proof (merge_runs_perm lt r1 r2 ms) as Hm.
      destruct (merge_runs lt r1 r2 ms) as [m ms'].
      etransitivity; [apply IH |]. simpl in *. rewrite Hm. solve_Permutation.
Qed.

(** The next run of [runs_loop] and what is left behind it. *)
Lemma next_run_perm minrun rem n descending :
  count_run lt rem = (n, descending) ->
  let run := if descending then rev (take n rem) else take n rem in
  let force := Nat.min minrun (length rem) in
  let '(run, n) :=
    if (n <? minrun)%nat
    then (binarysort lt run (take (force - n) (drop n rem)), force)
    else (run, n) in
  run ++ drop n rem ≡ₚ rem.
Proof.
  intros Hrun. cbv zeta.
  pose proof (count_run_le rem) as Hle. rewrite Hrun in Hle. simpl in Hle.
  assert (Hrev : (if descending then rev (take n rem) else take n rem)
                 ≡ₚ take n rem)
    by (destruct descending; [symmetry; apply Permutation_rev | reflexivity]).
  destruct (Nat.ltb_spec n minrun) as [Hlt | Hge].
  - rewrite binarysort_perm, Hrev.
    assert (Hdrop : drop (Nat.min minrun (length rem)) rem
                    = drop (Nat.min minrun (length rem) - n) (drop n rem)).
    { rewrite drop_drop. f_equal. lia. }
    rewrite Hdrop, <- app_assoc, take_drop, take_drop. reflexivity.
  - by rewrite Hrev, take_drop.
Qed.

Lemma runs_loop_perm : forall fuel minrun listlen rem p ms,
  concat (map fst (runs_loop lt fuel minrun listlen rem p ms).1)
  ≡ₚ concat (map fst p) ++ rem.
Proof.
  induction fuel as [|fuel IH]; intros minrun listlen rem p ms.
  - simpl. apply Permutation_app_comm.
  - destruct rem as [|x rem']; [simpl; by rewrite app_nil_r |].
    cbn [runs_loop]. remember (x :: rem') as rem eqn:Erem. clear Erem.
    destruct (count_run lt rem) as [n descending] eqn:Hrun.
    pose proof (next_run_perm minrun rem n descending Hrun) as Hnext.
    cbv zeta in Hnext |- *.
    destruct (if (n <? minrun)%nat
              then (binarysort lt
                      (if descending then rev (take n rem) else take n rem)
                      (take (Nat.min minrun (length rem) - n) (drop n rem)),
                    Nat.min minrun (length rem))
              else (if descending then rev (take n rem) else take n rem, n))
      as [run n'].
    pose proof (found_new_run_perm p n' listlen ms) as Hp.
    destruct (found_new_run lt p n' listlen ms) as [p' ms'].
    etransitivity; [apply IH |]. simpl in *. rewrite Hp.
    transitivity (concat (map fst p) ++ (run ++ drop n' rem));
      [solve_Permutation | by rewrite Hnext].
Qed.

Lemma list_sort_with_perm minrun l : list_sort_with lt minrun l ≡ₚ l.
Proof.
  unfold list_sort_with. destruct (length l <? 2)%nat; [reflexivity |].
  pose proof (runs_loop_perm (S (length l)) minrun (length l) l [] MIN_GALLOP)
    as Hp.
  destruct (runs_loop lt (S (length l)) minrun (length l) l [] MIN_GALLOP)
    as [p ms].
  simpl in Hp. etransitivity; [apply concat_rev_perm |].
  etransitivity; [apply merge_force_collapse_perm | exact Hp].
Qed.

End RunsFacts.


Lemma Sorted_snoc_inv {A} (R : A -> A -> Prop) l a b :
  Sorted R (l ++ [a; b]) -> Sorted R (l ++ [a]) /\ R a b.
Proof.
  induction l as [|x l IH]; simpl; intros H.
  - inversion H as [|? ? _ Hhd]; subst. inversion Hhd; subst.
    split; [by repeat constructor | assumption].
  - inversion H as [|? ? Hs Hhd]; subst.
    destruct (IH Hs) as [Hs' Hab]. split; [| assumption].
    constructor; [assumption |].
    destruct l as [|y l]; simpl in *; inversion Hhd; subst; by constructor.
Qed.

(** ** The galloping search finds the cut *)

Section GallopFacts.


Context {A : Type}.

Lemma gallop_ofs_spec go_on maxofs : forall fuel lastofs ofs lo' of',
  gallop_ofs fuel go_on maxofs lastofs ofs = (lo', of') ->
  (maxofs <= fuel + ofs)%nat ->
  lastofs = 0%nat \/ go_on lastofs = true ->
  (lo' = 0%nat \/ go_on lo' = true) /\
  ((maxofs <= of')%nat \/ (of' < maxofs)%nat /\ go_on of' = false).
Proof.
  induction fuel as [|fuel IH]; intros lastofs ofs lo' of' Hrun Hfuel Hlast.
  - inversion Hrun; subst. split; [assumption | left; lia].
  - cbn [gallop_ofs] in Hrun.
    destruct (Nat.ltb_spec ofs maxofs) as [Hlt | Hge]; cbn [andb] in Hrun.
    + destruct (go_on ofs) eqn:Hgo.
      * apply IH in Hrun; [assumption | lia | by right].
      * inversion Hrun; subst. split; [assumption | by right].
    + inversion Hrun; subst. split; [assumption | left; lia].
Qed.

Lemma gallop_bisect_spec right c : forall fuel lo hi,
  (forall m, right m = (m <? c)%nat) ->
  (lo <= c <= hi)%nat -> (hi - lo <= fuel)%nat ->
  gallop_bisect fuel right lo hi = c.
Proof.
  intros fuel lo hi Hright. revert lo hi.
  induction fuel as [|fuel IH]; intros lo hi Hc Hfuel; cbn [gallop_bisect];
    [lia |].
  destruct (Nat.ltb_spec lo hi) as [Hlt | Hge]; [| lia].
  pose proof (middle_bounds lo hi Hlt) as Hm.
  set (m := (lo + (hi - lo) / 2)%nat) in *.
  rewrite Hright. destruct (Nat.ltb_spec m c); apply IH; lia.
Qed.

Lemma gallop_from_spec right_of n hint c :
  (forall i, right_of i = (i <? c)%nat) ->
  (hint < n)%nat -> (c <= n)%nat ->
  gallop_from right_of n hint = c.
Proof.
  intros Hright Hhint Hc. unfold gallop_from.
  rewrite (Hright hint). destruct (Nat.ltb_spec hint c) as [Hlt | Hge].
  - destruct (gallop_ofs n (fun o => right_of (hint + o)%nat) (n - hint) 0 1)
      as [lastofs ofs] eqn:Hofs.
    apply gallop_ofs_spec in Hofs; [| lia | by left].
    destruct Hofs as [Hlo Hhi]. rewrite !Hright in *.
    apply gallop_bisect_spec; [exact Hright | | lia].
    split.
    + destruct Hlo as [-> | Hlo]; [lia |]. apply Nat.ltb_lt in Hlo. lia.
    + destruct Hhi as [Hhi | [Hhi Hgo]]; [lia |].
      apply Nat.ltb_ge in Hgo. lia.
  - destruct (gallop_ofs n (fun o => negb (right_of (hint - o)%nat))
                (S hint) 0 1) as [lastofs ofs] eqn:Hofs.
    apply gallop_ofs_spec in Hofs; [| lia | by left].
    destruct Hofs as [Hlo Hhi]. rewrite !Hright in *.
    apply gallop_bisect_spec; [exact Hright | | lia].
    split.
    + destruct Hhi as [Hhi | [Hhi Hgo]]; [lia |].
      apply negb_false_iff, Nat.ltb_lt in Hgo. lia.
    + destruct Hlo as [-> | Hlo]; [lia |].
      apply negb_true_iff, Nat.ltb_ge in Hlo. lia.
Qed.

(** In a list cut in two by [right], true in front and false behind,
    galloping from any place ends at the cut. *)
Lemma gallop_cut (right : A -> bool) s1 s2 hint :
  Forall (fun x => right x = true) s1 ->
  Forall (fun x => right x = false) s2 ->
  (hint < length (s1 ++ s2))%nat ->
  gallop right (s1 ++ s2) hint = length s1.
Proof.
  intros H1 H2 Hhint. unfold gallop.
  apply gallop_from_spec; [| assumption | rewrite length_app; lia].
  intros i. destruct (Nat.ltb_spec i (length s1)) as [Hlt | Hge].
  - destruct (lookup_lt_is_Some_2 s1 i Hlt) as [x Hx].
    rewrite (lookup_app_l_Some _ _ _ _ Hx).
    exact (proj1 (Forall_lookup _ _) H1 _ _ Hx).
  - rewrite lookup_app_r by exact Hge.
    destruct (s2 !! (i - length s1)%nat) as [x |] eqn:Hx; [| reflexivity].
    exact (proj1 (Forall_lookup _ _) H2 _ _ Hx).
Qed.

End GallopFacts.

(** ** [list.sort] is the stable sort when [<] orders the keys *)

Section OrderFacts.

(** [P] holds of the elements [<] orders, those whose key is no NaN:
    [<] is transitive and asymmetric throughout, and [<=], which is
    [not (b < a)], is transitive through an element of [P]. *)
Context {A : Type} (lt : A -> A -> bool) (P : A -> Prop).
Hypothesis lt_trans : forall a b c,
  lt a b = true -> lt b c = true -> lt a c = true.
Hypothesis lt_asym : forall a b, lt a b = true -> lt b a = false.
Hypothesis le_trans : forall a b c,
  P b -> lt b a = false -> lt c b = false -> lt c a = false.

Local Abbreviation ascending := (ascending lt P).
Local Abbreviation runs_ascending := (runs_ascending lt P).

Lemma ascending_nil : ascending [].
Proof. split; constructor. Qed.

Lemma ascending_cons x s :
  ascending (x :: s) <->
  P x /\ Forall (fun y => lt y x = false) s /\ ascending s.
Proof.
  unfold ascending. split.
  - intros [Hs Hp]. inversion Hs; subst. inversion Hp; subst. tauto.
  - intros (Hx & Hall & Hs & Hp). split; by constructor.
Qed.

Lemma ascending_app s1 s2 :
  ascending (s1 ++ s2) <->
  ascending s1 /\ ascending s2 /\
  Forall (fun x => Forall (fun y => lt y x = false) s2) s1.
Proof.
  induction s1 as [|x s1 IH]; simpl.
  - split.
    + intros H. split; [apply ascending_nil |]. split; [exact H | constructor].
    + tauto.
  - rewrite !ascending_cons, IH, Forall_app, Forall_cons. tauto.
Qed.

Lemma ascending_P s : ascending s -> Forall P s.
Proof. by intros [_ H]. Qed.

Lemma ascending_take n s : ascending s -> ascending (take n s).
Proof.
  intros H. rewrite <- (take_drop n s) in H. apply ascending_app in H. tauto.
Qed.

Lemma ascending_drop n s : ascending s -> ascending (drop n s).
Proof.
  intros H. rewrite <- (take_drop n s) in H. apply ascending_app in H. tauto.
Qed.

(** [a < b <= c] gives [a < c], and so does [a <= b < c]. *)
Lemma lt_le_trans a b c :
  P c -> lt a b = true -> lt c b = false -> lt a c = true.
Proof.
  intros Hc Hab Hbc. destruct (lt a c) eqn:Hac; [reflexivity |].
  rewrite (le_trans b c a Hc Hbc Hac) in Hab. discriminate.
Qed.

Lemma le_lt_trans a b c :
  P a -> lt b a = false -> lt b c = true -> lt a c = true.
Proof.
  intros Ha Hab Hbc. destruct (lt a c) eqn:Hac; [reflexivity |].
  rewrite (le_trans c a b Ha Hac Hab) in Hbc. discriminate.
Qed.

(** *** The stable insertion and the stable merge *)

Lemma insert_asc_P s y : Forall P s -> P y -> Forall P (insert_asc lt s y).
Proof.
  induction 1 as [|x s Hx Hs IH]; intros Hy; simpl; [by repeat constructor |].
  destruct (lt y x); repeat constructor; auto.
Qed.

Lemma insertion_sort_asc_app l1 l2 :
  insertion_sort_asc lt (l1 ++ l2)
  = fold_left (insert_asc lt) l2 (insertion_sort_asc lt l1).
Proof. unfold insertion_sort_asc. apply fold_left_app. Qed.

Lemma fold_insert_asc_P l : forall s,
  Forall P s -> Forall P l -> Forall P (fold_left (insert_asc lt) l s).
Proof.
  induction l as [|y l IH]; intros s Hs Hl; simpl; [assumption |].
  inversion Hl; subst. apply IH; [by apply insert_asc_P | assumption].
Qed.

Lemma insertion_sort_asc_P l :
  Forall P l -> Forall P (insertion_sort_asc lt l).
Proof. intros H. apply fold_insert_asc_P; [constructor | assumption]. Qed.

Local Arguments stable_merge : simpl never.

Lemma stable_merge_nil_r a : stable_merge lt a [] = a.
Proof. by destruct a. Qed.

Lemma stable_merge_cons x a y b :
  stable_merge lt (x :: a) (y :: b)
  = if lt y x then y :: stable_merge lt (x :: a) b
    else x :: stable_merge lt a (y :: b).
Proof. reflexivity. Qed.

(** Inserting into the merge is merging with the insertion: the element
    comes behind all elements of both lists. *)
Lemma insert_asc_merge y : forall a b,
  Forall P a -> Forall P b -> P y ->
  insert_asc lt (stable_merge lt a b) y
  = stable_merge lt a (insert_asc lt b y).
Proof.
  induction a as [|x a IHa]; intros b Ha Hb Hy; [reflexivity |].
  inversion Ha as [|? ? Hx Ha']; subst.
  induction b as [|z b IHb].
  - rewrite stable_merge_nil_r. cbn [insert_asc].
    rewrite stable_merge_cons. destruct (lt y x) eqn:Hyx.
    + by rewrite stable_merge_nil_r.
    + f_equal. pose proof (IHa [] Ha' ltac:(constructor) Hy) as H.
      rewrite stable_merge_nil_r in H. exact H.
  - inversion Hb as [|? ? Hz Hb']; subst.
    rewrite stable_merge_cons. cbn [insert_asc].
    destruct (lt z x) eqn:Hzx.
    + cbn [insert_asc]. destruct (lt y z) eqn:Hyz.
      * rewrite stable_merge_cons, (lt_trans _ _ _ Hyz Hzx).
        by rewrite stable_merge_cons, Hzx.
      * rewrite stable_merge_cons, Hzx. f_equal. by apply IHb.
    + cbn [insert_asc]. destruct (lt y z) eqn:Hyz.
      * rewrite stable_merge_cons. destruct (lt y x) eqn:Hyx.
        -- by rewrite stable_merge_cons, Hzx.
        -- f_equal. rewrite (IHa (z :: b) Ha' Hb Hy). cbn [insert_asc].
           by rewrite Hyz.
      * rewrite (le_trans x z y Hz Hzx Hyz).
        rewrite stable_merge_cons, Hzx. f_equal.
        rewrite (IHa (z :: b) Ha' Hb Hy). cbn [insert_asc].
        by rewrite Hyz.
Qed.

(** Inserting the elements of [l] into [s] is merging [s] with the sorted
    [l]. *)
Lemma fold_insert_asc_merge l : forall s,
  Forall P s -> Forall P l ->
  fold_left (insert_asc lt) l s
  = stable_merge lt s (insertion_sort_asc lt l).
Proof.
  induction l as [|y l IH] using rev_ind; intros s Hs Hl.
  - simpl. by rewrite stable_merge_nil_r.
  - apply Forall_app in Hl. destruct Hl as [Hl Hy]. inversion Hy; subst.
    rewrite fold_left_app, insertion_sort_asc_app. simpl.
    rewrite IH by assumption.
    apply insert_asc_merge; [assumption | | assumption].
    by apply insertion_sort_asc_P.
Qed.

Lemma stable_merge_sorts l1 l2 :
  Forall P l1 -> Forall P l2 ->
  stable_merge lt (insertion_sort_asc lt l1) (insertion_sort_asc lt l2)
  = insertion_sort_asc lt (l1 ++ l2).
Proof.
  intros H1 H2. rewrite insertion_sort_asc_app.
  symmetry. apply fold_insert_asc_merge; [| assumption].
  by apply insertion_sort_asc_P.
Qed.

(** *** Sortedness *)

Lemma insert_asc_cut y s1 s2 :
  Forall (fun x => lt y x = false) s1 ->
  Forall (fun x => lt y x = true) s2 ->
  insert_asc lt (s1 ++ s2) y = s1 ++ y :: s2.
Proof.
  intros H1 H2. induction H1 as [|x s1 Hx _ IH]; simpl.
  - destruct H2 as [|x s2 Hx _]; simpl; [reflexivity |]. by rewrite Hx.
  - by rewrite Hx, IH.
Qed.

(** A sorted list is cut in two by [y < x]: false in front, true behind. *)
Lemma ascending_cut_lt_key y s :
  P y -> ascending s ->
  exists s1 s2, s = s1 ++ s2 /\
    Forall (fun x => lt y x = false) s1 /\
    Forall (fun x => lt y x = true) s2.
Proof.
  intros Hy. induction s as [|x s IH]; intros Hs; [by exists [], [] |].
  apply ascending_cons in Hs. destruct Hs as (Hx & Hall & Hs).
  destruct (lt y x) eqn:Hyx.
  - exists [], (x :: s). split; [reflexivity |]. split; [constructor |].
    constructor; [assumption |].
    pose proof (ascending_P _ Hs) as Hp.
    rewrite Forall_forall in Hall, Hp. apply Forall_forall. intros z Hz.
    apply (lt_le_trans y x z); auto.
  - destruct (IH Hs) as (s1 & s2 & -> & H1 & H2).
    exists (x :: s1), s2. split; [reflexivity |]. split; [by constructor |].
    assumption.
Qed.

(** And by [x < y]: true in front, false behind. *)
Lemma ascending_cut_key_lt y s :
  P y -> ascending s ->
  exists s1 s2, s = s1 ++ s2 /\
    Forall (fun x => lt x y = true) s1 /\
    Forall (fun x => lt x y = false) s2.
Proof.
  intros Hy. induction s as [|x s IH]; intros Hs; [by exists [], [] |].
  apply ascending_cons in Hs. destruct Hs as (Hx & Hall & Hs).
  destruct (lt x y) eqn:Hxy.
  - destruct (IH Hs) as (s1 & s2 & -> & H1 & H2).
    exists (x :: s1), s2. split; [reflexivity |]. split; [by constructor |].
    assumption.
  - exists [], (x :: s). split; [reflexivity |]. split; [constructor |].
    constructor; [assumption |].
    rewrite Forall_forall in Hall. apply Forall_forall. intros z Hz.
    apply (le_trans y x z); auto.
Qed.

Lemma insert_asc_ascending s y :
  P y -> ascending s -> ascending (insert_asc lt s y).
Proof.
  intros Hy Hs.
  destruct (ascending_cut_lt_key y s Hy Hs) as (s1 & s2 & -> & H1 & H2).
  rewrite insert_asc_cut by assumption.
  apply ascending_app in Hs. destruct Hs as (Hs1 & Hs2 & H12).
  apply ascending_app. split; [assumption |]. split.
  - apply ascending_cons. split; [assumption |]. split; [| assumption].
    eapply Forall_impl; [exact H2 |]. intros x Hx. by apply lt_asym.
  - rewrite Forall_forall in H1, H12. apply Forall_forall. intros x Hx.
    constructor; [by apply H1 | by apply H12].
Qed.

Lemma fold_insert_asc_ascending l : forall s,
  ascending s -> Forall P l -> ascending (fold_left (insert_asc lt) l s).
Proof.
  induction l as [|y l IH]; intros s Hs Hl; simpl; [assumption |].
  inversion Hl; subst. apply IH; [by apply insert_asc_ascending | assumption].
Qed.

Lemma insertion_sort_asc_ascending l :
  Forall P l -> ascending (insertion_sort_asc lt l).
Proof. apply fold_insert_asc_ascending, ascending_nil. Qed.

(** *** [binarysort] and the runs *)

Lemma binary_insert_asc s y :
  P y -> ascending s -> binary_insert lt s y = insert_asc lt s y.
Proof.
  intros Hy Hs.
  destruct (ascending_cut_lt_key y s Hy Hs) as (s1 & s2 & -> & H1 & H2).
  by rewrite binary_insert_cut, insert_asc_cut.
Qed.

Lemma binarysort_asc rest : forall run,
  ascending run -> Forall P rest ->
  binarysort lt run rest = fold_left (insert_asc lt) rest run.
Proof.
  unfold binarysort.
  induction rest as [|y rest IH]; intros run Hrun Hrest; [reflexivity |].
  inversion Hrest; subst. simpl.
  rewrite binary_insert_asc by assumption.
  apply IH; [by apply insert_asc_ascending | assumption].
Qed.

Lemma binarysort_sorts seg rest :
  Forall P seg -> Forall P rest ->
  binarysort lt (insertion_sort_asc lt seg) rest
  = insertion_sort_asc lt (seg ++ rest).
Proof.
  intros Hseg Hrest. rewrite binarysort_asc; [| | assumption].
  - by rewrite insertion_sort_asc_app.
  - by apply insertion_sort_asc_ascending.
Qed.

(** A chain of [<=] among elements of [P] is ascending. *)
Lemma chain_ascending run :
  Sorted (fun a b => lt b a = false) run -> Forall P run -> ascending run.
Proof.
  intros Hs Hp. split; [| assumption].
  induction Hs as [|x run Hs IH Hhd]; [constructor |].
  inversion Hp as [|? ? Hx Hp']; subst.
  specialize (IH Hp'). constructor; [assumption |].
  destruct Hhd as [|y run Hxy]; [constructor |].
  inversion IH as [|? ? _ Hall]; subst. inversion Hp'; subst.
  constructor; [assumption |].
  rewrite Forall_forall in Hall. apply Forall_forall. intros z Hz.
  apply (le_trans x y z); auto.
Qed.

Lemma ascending_run_sorted run :
  Sorted (fun a b => lt b a = false) run -> Forall P run ->
  insertion_sort_asc lt run = run.
Proof.
  intros Hs Hp. pose proof (chain_ascending run Hs Hp) as Hasc. clear Hs.
  induction run as [|z run IH] using rev_ind; [reflexivity |].
  apply Forall_app in Hp. destruct Hp as [Hp _].
  apply ascending_app in Hasc. destruct Hasc as (Hrun & _ & Hall).
  rewrite insertion_sort_asc_app, (IH Hp Hrun). simpl.
  rewrite <- (app_nil_r run) at 1. apply insert_asc_cut; [| constructor].
  eapply Forall_impl; [exact Hall |]. intros x Hx. by inversion Hx.
Qed.

Lemma descending_chain_last run z :
  Sorted (fun a b => lt b a = true) (run ++ [z]) ->
  Forall (fun x => lt z x = true) run.
Proof.
  induction run as [|w run IH]; simpl; intros Hs; [constructor |].
  inversion Hs as [|? ? Hs' Hhd]; subst.
  pose proof (IH Hs') as Hall. constructor; [| assumption].
  destruct run as [|v run]; simpl in *.
  - by inversion Hhd.
  - inversion Hhd as [|? ? Hvw]; subst. inversion Hall as [|? ? Hzv _]; subst.
    by apply (lt_trans z v w).
Qed.

Lemma descending_run_sorted run :
  Sorted (fun a b => lt b a = true) run ->
  insertion_sort_asc lt run = rev run.
Proof.
  induction run as [|z run IH] using rev_ind; [reflexivity |].
  intros Hs. pose proof (descending_chain_last run z Hs) as Hlast.
  assert (Hs' : Sorted (fun a b => lt b a = true) run).
  { clear - Hs. induction run as [|w run IH]; [constructor |].
    simpl in Hs. inversion Hs as [|? ? Hs' Hhd]; subst.
    constructor; [by apply IH |].
    destruct run; simpl in *; inversion Hhd; subst; by constructor. }
  rewrite insertion_sort_asc_app, (IH Hs'), rev_app_distr. simpl.
  change (z :: rev run) with ([] ++ z :: rev run).
  change (rev run) with ([] ++ rev run) at 1.
  apply insert_asc_cut; [constructor | by apply Forall_rev].
Qed.

(** The run [count_run] finds, reversed when descending, is sorted. *)
Lemma count_run_sorted l n descending :
  Forall P l -> count_run lt l = (n, descending) ->
  (if descending then rev (take n l) else take n l)
  = insertion_sort_asc lt (take n l).
Proof.
  intros Hp Hrun. apply count_run_chain in Hrun. destruct descending.
  - symmetry. by apply descending_run_sorted.
  - symmetry. apply ascending_run_sorted; [assumption | by apply Forall_take].
Qed.

(** *** Runs that go first or last in a merge *)

Lemma stable_merge_nil_l b : stable_merge lt [] b = b.
Proof. reflexivity. Qed.

Lemma merge_prefix_a b0 rb s1 s2 :
  Forall (fun x => lt b0 x = false) s1 ->
  stable_merge lt (s1 ++ s2) (b0 :: rb) = s1 ++ stable_merge lt s2 (b0 :: rb).
Proof.
  induction 1 as [|x s1 Hx _ IH]; [reflexivity |].
  simpl app. by rewrite stable_merge_cons, Hx, IH.
Qed.

Lemma merge_prefix_b a0 ra t1 t2 :
  Forall (fun y => lt y a0 = true) t1 ->
  stable_merge lt (a0 :: ra) (t1 ++ t2) = t1 ++ stable_merge lt (a0 :: ra) t2.
Proof.
  induction 1 as [|y t1 Hy _ IH]; [reflexivity |].
  simpl app. by rewrite stable_merge_cons, Hy, IH.
Qed.

(** All of [b] is smaller than all of [s]: [b] goes first. *)
Lemma merge_all_b s b :
  Forall (fun x => Forall (fun y => lt y x = true) b) s ->
  stable_merge lt s b = b ++ s.
Proof.
  destruct s as [|x s]; [intros _; by rewrite app_nil_r |].
  intros H. inversion H as [|? ? Hx _]; subst. clear H.
  induction Hx as [|y b Hy _ IH]; [reflexivity |].
  simpl app. by rewrite stable_merge_cons, Hy, IH.
Qed.

(** No element of [t] is smaller than one of [a]: [a] goes first. *)
Lemma merge_all_a a : forall t,
  Forall (fun y => Forall (fun x => lt y x = false) a) t ->
  stable_merge lt a t = a ++ t.
Proof.
  induction a as [|x a IH]; intros t H; [reflexivity |].
  destruct t as [|y t]; [by rewrite stable_merge_nil_r, app_nil_r |].
  inversion H as [|? ? Hy _]; subst. inversion Hy as [|? ? Hyx _]; subst.
  rewrite stable_merge_cons, Hyx. simpl app. f_equal. apply IH.
  eapply Forall_impl; [exact H |]. intros z Hz. by inversion Hz.
Qed.

Lemma merge_suffix_a s2 : forall s1 b,
  Forall (fun x => Forall (fun y => lt y x = true) b) s2 ->
  stable_merge lt (s1 ++ s2) b = stable_merge lt s1 b ++ s2.
Proof.
  induction s1 as [|x s1 IHs]; intros b H.
  - simpl app. rewrite stable_merge_nil_l. by apply merge_all_b.
  - induction b as [|y b IHb].
    + by rewrite !stable_merge_nil_r.
    + simpl app. rewrite !stable_merge_cons.
      destruct (lt y x).
      * simpl app. f_equal. apply IHb.
        eapply Forall_impl; [exact H |]. intros z Hz. by inversion Hz.
      * simpl app. f_equal. by apply IHs.
Qed.

Lemma merge_suffix_b t2 : forall a t1,
  Forall (fun y => Forall (fun x => lt y x = false) a) t2 ->
  stable_merge lt a (t1 ++ t2) = stable_merge lt a t1 ++ t2.
Proof.
  induction a as [|x a IHa]; intros t1 H; [reflexivity |].
  induction t1 as [|y t1 IHt].
  - simpl app. rewrite ?stable_merge_nil_r. by apply merge_all_a.
  - simpl app. rewrite !stable_merge_cons.
    destruct (lt y x).
    + simpl app. f_equal. apply IHt.
    + simpl app. f_equal. apply (IHa (y :: t1)).
      eapply Forall_impl; [exact H |]. intros z Hz. by inversion Hz.
Qed.

(** In an ascending list every element is at most the last. *)
Lemma ascending_last s x :
  ascending (s ++ [x]) -> Forall (fun y => lt x y = false) s.
Proof.
  intros H. apply ascending_app in H. destruct H as (_ & _ & H).
  eapply Forall_impl; [exact H |]. intros y Hy. by inversion Hy.
Qed.

(** And at least the first. *)
Lemma ascending_first x s :
  ascending (x :: s) -> Forall (fun y => lt y x = false) s.
Proof. intros H. apply ascending_cons in H. tauto. Qed.

(** *** [merge_lo] is the stable merge *)

Lemma last_singleton (s : list A) x :
  length s = 1%nat -> last s = Some x -> s = [x].
Proof.
  destruct s as [|y [|z s]]; simpl; intros Hlen Hlast; try discriminate.
  by inversion Hlast.
Qed.

Lemma last_app_r (s1 s2 : list A) x :
  s2 <> [] -> last (s1 ++ s2) = Some x -> last s2 = Some x.
Proof.
  intros Hne. rewrite last_app.
  destruct (last s2) as [y |] eqn:Hs2; [done |].
  apply last_None in Hs2. contradiction.
Qed.

Lemma copy_b alast rb :
  Forall (fun y => lt y alast = true) rb ->
  stable_merge lt [alast] rb = rb ++ [alast].
Proof. intros H. apply merge_all_b. by constructor. Qed.

Lemma gallop_right_cut b0 s1 s2 hint :
  Forall (fun x => lt b0 x = false) s1 ->
  Forall (fun x => lt b0 x = true) s2 ->
  (hint < length (s1 ++ s2))%nat ->
  gallop_right lt b0 (s1 ++ s2) hint = length s1.
Proof.
  intros H1 H2 Hhint. unfold gallop_right. apply gallop_cut; [| | assumption].
  - eapply Forall_impl; [exact H1 |]. intros x Hx. simpl. by rewrite Hx.
  - eapply Forall_impl; [exact H2 |]. intros x Hx. simpl. by rewrite Hx.
Qed.

Lemma gallop_left_cut a1 t1 t2 hint :
  Forall (fun y => lt y a1 = true) t1 ->
  Forall (fun y => lt y a1 = false) t2 ->
  (hint < length (t1 ++ t2))%nat ->
  gallop_left lt a1 (t1 ++ t2) hint = length t1.
Proof. intros H1 H2 Hhint. unfold gallop_left. by apply gallop_cut. Qed.

Lemma merge_lo_loop_spec : forall fuel galloping acc ra rb mg ms ac bc alast,
  ascending ra -> ascending rb ->
  last ra = Some alast -> Forall (fun y => lt y alast = true) rb ->
  (2 <= length ra)%nat -> rb <> [] ->
  (length ra + length rb <= fuel)%nat ->
  (merge_lo_loop lt fuel galloping acc ra rb mg ms ac bc).1
  = acc ++ stable_merge lt ra rb.
Proof.
  induction fuel as [|fuel IH];
    intros galloping acc ra rb mg ms ac bc alast Hra Hrb Hlast Hdom Hlen Hne
           Hfuel; [lia |].
  destruct ra as [|a0 ra']; [simpl in Hlen; lia |].
  destruct rb as [|b0 rb']; [congruence |]. clear Hne.
  cbn [merge_lo_loop]. destruct galloping.
  - cbv zeta.
    assert (Hb0 : P b0) by (apply ascending_P in Hrb; by inversion Hrb).
    remember (a0 :: ra') as ra eqn:Era.
    destruct (ascending_cut_lt_key b0 ra Hb0 Hra) as (s1 & s2 & Hcut & H1 & H2).
    assert (Hpos : (0 < length (s1 ++ s2))%nat) by (rewrite <- Hcut; lia).
    rewrite Hcut, (gallop_right_cut b0 s1 s2 0 H1 H2 Hpos).
    rewrite take_app_length, drop_app_length, merge_prefix_a by assumption.
    rewrite Hcut in Hra, Hlast, Hlen, Hfuel. clear Era Hcut Hpos ra.
    apply ascending_app in Hra. destruct Hra as (Hs1 & Hs2 & _).
    rewrite length_app in Hlen, Hfuel.
    destruct s2 as [|a1 ra''].
    { destruct s1 as [|x s1]; [simpl in Hlen; lia |].
      simpl. by rewrite <- app_assoc. }
    inversion H2 as [|? ? Hb0a1 H2']; subst.
    apply last_app_r in Hlast; [| discriminate].
    destruct ra'' as [|a2 ra''].
    { destruct s1 as [|x s1]; [simpl in Hlen; lia |].
      simpl in Hlast. inversion Hlast; subst a1.
      simpl. rewrite copy_b by assumption. by rewrite <- !app_assoc. }
    replace (negb (length s1 =? 0)%nat
             && (length (a1 :: a2 :: ra'') =? 1)%nat) with false
      by (simpl; by rewrite andb_false_r).
    replace (negb (length s1 =? 0)%nat
             && (length (a1 :: a2 :: ra'') =? 0)%nat) with false
      by (simpl; by rewrite andb_false_r).
    rewrite stable_merge_cons, Hb0a1.
    destruct rb' as [|b1 rb''].
    { simpl. rewrite stable_merge_nil_r. by rewrite <- !app_assoc. }
    remember (b1 :: rb'') as rb' eqn:Erb.
    assert (Ha1 : P a1) by (apply ascending_P in Hs2; by inversion Hs2).
    apply ascending_cons in Hrb. destruct Hrb as (_ & _ & Hrb').
    destruct (ascending_cut_key_lt a1 rb' Ha1 Hrb')
      as (t1 & t2 & Hcut & Ht1 & Ht2).
    assert (Hpos : (0 < length (t1 ++ t2))%nat)
      by (rewrite <- Hcut, Erb; simpl; lia).
    rewrite Hcut, (gallop_left_cut a1 t1 t2 0 Ht1 Ht2 Hpos).
    rewrite take_app_length, drop_app_length, merge_prefix_b by assumption.
    inversion Hdom as [|? ? _ Hdom']; subst.
    rewrite Hcut in Hrb', Hdom', Hfuel.
    assert (Hne : t1 ++ t2 <> []) by (rewrite <- Hcut; discriminate).
    clear Hpos.
    apply ascending_app in Hrb'. destruct Hrb' as (_ & Hst2 & _).
    apply Forall_app in Hdom'. destruct Hdom' as [_ Hdom2].
    simpl length in Hfuel. rewrite length_app in Hfuel.
    destruct t2 as [|y t2].
    { destruct t1 as [|z t1]; [simpl in Hne; congruence |].
      simpl. rewrite stable_merge_nil_r. by rewrite <- !app_assoc. }
    replace (negb (length t1 =? 0)%nat && (length (y :: t2) =? 0)%nat)
      with false by (simpl; by rewrite andb_false_r).
    inversion Ht2 as [|? ? Hya1 _]; subst.
    rewrite stable_merge_cons, Hya1.
    apply ascending_cons in Hs2. destruct Hs2 as (_ & _ & Hs2).
    simpl in Hlast.
    destruct ra'' as [|a3 ra''].
    { inversion Hlast; subst a2. simpl.
      rewrite copy_b by assumption. by rewrite <- !app_assoc. }
    replace (length (a2 :: a3 :: ra'') =? 1)%nat with false by reflexivity.
    destruct ((MIN_GALLOP <=? length s1)%nat || (MIN_GALLOP <=? length t1)%nat);
      (rewrite (IH _ _ _ _ _ _ _ _ alast);
       [by rewrite <- !app_assoc | assumption | assumption | exact Hlast
       | assumption | simpl; lia | discriminate | simpl in *; lia]).
  - destruct (lt b0 a0) eqn:Hba.
    + cbv zeta. rewrite stable_merge_cons, Hba.
      destruct rb' as [|b1 rb''].
      { simpl. rewrite stable_merge_nil_r. by rewrite <- app_assoc. }
      apply ascending_cons in Hrb. destruct Hrb as (_ & _ & Hrb').
      inversion Hdom as [|? ? _ Hdom']; subst.
      destruct (mg <=? S bc)%nat;
        (rewrite (IH _ _ _ _ _ _ _ _ alast);
         [by rewrite <- !app_assoc | assumption | assumption | exact Hlast
         | assumption | assumption | discriminate | simpl in *; lia]).
    + cbv zeta. rewrite stable_merge_cons, Hba.
      apply ascending_cons in Hra. destruct Hra as (_ & _ & Hra').
      destruct ra' as [|a1 ra'']; [simpl in Hlen; lia |].
      simpl in Hlast.
      destruct ra'' as [|a2 ra''].
      { inversion Hlast; subst a1. simpl.
        rewrite copy_b by assumption. by rewrite <- !app_assoc. }
      replace (length (a1 :: a2 :: ra'') =? 1)%nat with false by reflexivity.
      destruct (mg <=? S ac)%nat;
        (rewrite (IH _ _ _ _ _ _ _ _ alast);
         [by rewrite <- !app_assoc | assumption | assumption | exact Hlast
         | assumption | simpl; lia | discriminate | simpl in *; lia]).
Qed.

Lemma merge_lo_spec a b ms b0 alast :
  ascending a -> ascending b ->
  head b = Some b0 -> Forall (fun x => lt b0 x = true) a ->
  last a = Some alast -> Forall (fun y => lt y alast = true) b ->
  (merge_lo lt a b ms).1 = stable_merge lt a b.
Proof.
  intros Ha Hb Hhead Hfirst Hlast Hdom. unfold merge_lo.
  destruct b as [|b0' rb]; [discriminate |].
  simpl in Hhead. inversion Hhead; subst b0'. clear Hhead.
  destruct a as [|x a']; [discriminate |].
  inversion Hfirst as [|? ? Hb0x _]; subst.
  rewrite stable_merge_cons, Hb0x.
  destruct rb as [|b1 rb].
  { simpl. by rewrite stable_merge_nil_r. }
  inversion Hdom as [|? ? _ Hdom']; subst.
  apply ascending_cons in Hb. destruct Hb as (_ & _ & Hb').
  destruct (Nat.eqb_spec (length (x :: a')) 1) as [Hone | Hmore].
  { rewrite (last_singleton _ _ Hone Hlast), copy_b by assumption.
    reflexivity. }
  rewrite (merge_lo_loop_spec _ _ _ _ _ _ _ _ _ alast); try assumption.
  - reflexivity.
  - simpl in *. lia.
  - discriminate.
  - simpl. lia.
Qed.

(** *** [merge_hi] is the stable merge *)

Lemma unsnoc_snoc (s : list A) x : unsnoc (s ++ [x]) = Some (s, x).
Proof. unfold unsnoc. rewrite rev_app_distr. simpl. by rewrite rev_involutive. Qed.

Lemma snoc_cases (s : list A) : s = [] \/ exists s' x, s = s' ++ [x].
Proof.
  destruct s as [|y s] using rev_ind; [by left |]. right. by exists s, y.
Qed.

(** Every element of an ascending list is smaller than an element greater
    than its last, and not greater than an element that is not smaller
    than its last. *)
Lemma ascending_below s z x :
  ascending (s ++ [z]) -> lt z x = true ->
  Forall (fun y => lt y x = true) (s ++ [z]).
Proof.
  intros Hs Hzx. pose proof (ascending_last _ _ Hs) as Hall.
  apply ascending_P in Hs. apply Forall_app in Hs. destruct Hs as [Hp _].
  apply Forall_app. split; [| by repeat constructor].
  rewrite Forall_forall in Hall, Hp. apply Forall_forall. intros y Hy.
  apply (le_lt_trans y z x); auto.
Qed.

Lemma ascending_not_above s z y :
  ascending (s ++ [z]) -> lt y z = false ->
  Forall (fun x => lt y x = false) (s ++ [z]).
Proof.
  intros Hs Hyz. pose proof (ascending_last _ _ Hs) as Hall.
  apply ascending_P in Hs. apply Forall_app in Hs. destruct Hs as [_ Hz].
  inversion Hz; subst.
  apply Forall_app. split; [| by repeat constructor].
  rewrite Forall_forall in Hall. apply Forall_forall. intros x Hx.
  apply (le_trans x z y); auto.
Qed.

Lemma copy_a bfirst ra :
  Forall (fun x => lt bfirst x = true) ra ->
  stable_merge lt ra [bfirst] = bfirst :: ra.
Proof.
  intros H. rewrite merge_all_b; [reflexivity |].
  eapply Forall_impl; [exact H |]. intros x Hx. by constructor.
Qed.

Lemma head_singleton (s : list A) x :
  length s = 1%nat -> head s = Some x -> s = [x].
Proof.
  destruct s as [|y [|z s]]; simpl; intros Hlen Hhead; try discriminate.
  by inversion Hhead.
Qed.

Lemma head_app_l (s1 s2 : list A) x :
  s1 <> [] -> head (s1 ++ s2) = Some x -> head s1 = Some x.
Proof. destruct s1; [congruence | done]. Qed.

Lemma merge_hi_loop_spec : forall fuel galloping acc ra rb mg ms ac bc bfirst,
  ascending ra -> ascending rb ->
  head rb = Some bfirst -> Forall (fun x => lt bfirst x = true) ra ->
  ra <> [] -> (2 <= length rb)%nat ->
  (length ra + length rb <= fuel)%nat ->
  (merge_hi_loop lt fuel galloping acc ra rb mg ms ac bc).1
  = stable_merge lt ra rb ++ acc.
Proof.
  induction fuel as [|fuel IH];
    intros galloping acc ra rb mg ms ac bc bfirst Hra Hrb Hhead Hdom Hne Hlen
           Hfuel; [lia |].
  destruct (snoc_cases ra) as [-> | (ra' & a1 & Era)]; [congruence |].
  destruct (snoc_cases rb) as [-> | (rb' & b1 & Erb)]; [simpl in Hlen; lia |].
  cbn [merge_hi_loop].
  replace (unsnoc ra) with (Some (ra', a1)) by (by rewrite Era, unsnoc_snoc).
  replace (unsnoc rb) with (Some (rb', b1)) by (by rewrite Erb, unsnoc_snoc).
  assert (Ha1 : P a1).
  { subst ra. apply ascending_P, Forall_app in Hra. destruct Hra as [_ H].
    by inversion H. }
  assert (Hb1 : P b1).
  { subst rb. apply ascending_P, Forall_app in Hrb. destruct Hrb as [_ H].
    by inversion H. }
  assert (Hrb' : ascending rb').
  { subst rb. apply ascending_app in Hrb. tauto. }
  assert (Hlen' : length rb = S (length rb'))
    by (subst rb; rewrite length_app; simpl; lia).
  destruct galloping.
  - cbv zeta. clear Era ra'.
    destruct (ascending_cut_lt_key b1 ra Hb1 Hra) as (s1 & s2 & Hcut & H1 & H2).
    assert (Hpos : (length (s1 ++ s2) - 1 < length (s1 ++ s2))%nat).
    { rewrite <- Hcut. destruct ra; [congruence | simpl; lia]. }
    rewrite Hcut, (gallop_right_cut b1 s1 s2 _ H1 H2 Hpos).
    replace (length (s1 ++ s2) - length s1)%nat with (length s2)
      by (rewrite length_app; lia).
    replace (length (s1 ++ s2) - length s2)%nat with (length s1)
      by (rewrite length_app; lia).
    rewrite take_app_length, drop_app_length.
    rewrite Hcut in Hra, Hdom, Hne, Hfuel. clear Hcut Hpos ra.
    apply ascending_app in Hra. destruct Hra as (Hs1 & Hs2 & _).
    apply Forall_app in Hdom. destruct Hdom as [Hdom1 _].
    rewrite length_app in Hfuel.
    assert (Habove : Forall (fun x => Forall (fun y => lt y x = true) rb) s2).
    { eapply Forall_impl; [exact H2 |]. intros x Hx. simpl in Hx. subst rb.
      by apply ascending_below. }
    rewrite merge_suffix_a by assumption.
    destruct (snoc_cases s1) as [-> | (ra2 & a2 & Es1)].
    { destruct s2 as [|x s2]; [simpl in Hne; congruence |].
      simpl. by rewrite <- !app_assoc. }
    replace (negb (length s2 =? 0)%nat && (length s1 =? 0)%nat) with false
      by (subst s1; rewrite length_app, Nat.add_comm; simpl;
          by rewrite andb_false_r).
    assert (Hnot : Forall (fun y => Forall (fun x => lt y x = false) s1) [b1])
      by (by repeat constructor).
    replace (stable_merge lt s1 rb) with (stable_merge lt s1 rb' ++ [b1])
      by (rewrite Erb; symmetry; by apply merge_suffix_b).
    destruct (Nat.eqb_spec (length rb') 1) as [Hone | Hmore].
    { assert (rb' = [bfirst]) as ->.
      { apply head_singleton; [assumption |].
        apply (head_app_l rb' [b1]); [by destruct rb' | by rewrite <- Erb]. }
      simpl fst. rewrite copy_a by assumption. simpl.
      by rewrite <- !app_assoc. }
    replace (unsnoc s1) with (Some (ra2, a2)) by (by rewrite Es1, unsnoc_snoc).
    assert (Ha2 : P a2).
    { subst s1. apply ascending_P, Forall_app in Hs1. destruct Hs1 as [_ H].
      by inversion H. }
    destruct (ascending_cut_key_lt a2 rb' Ha2 Hrb')
      as (t1 & t2 & Hcut & Ht1 & Ht2).
    assert (Hpos : (length (t1 ++ t2) - 1 < length (t1 ++ t2))%nat)
      by (rewrite <- Hcut; lia).
    rewrite Hcut, (gallop_left_cut a2 t1 t2 _ Ht1 Ht2 Hpos).
    replace (length (t1 ++ t2) - length t1)%nat with (length t2)
      by (rewrite length_app; lia).
    replace (length (t1 ++ t2) - length t2)%nat with (length t1)
      by (rewrite length_app; lia).
    rewrite take_app_length, drop_app_length.
    assert (Hhead' : head (t1 ++ t2) = Some bfirst).
    { rewrite <- Hcut. apply (head_app_l rb' [b1]); [| by rewrite <- Erb].
      destruct rb'; [simpl in *; lia | done]. }
    assert (Hlen2 : (2 <= length t1 + length t2)%nat)
      by (rewrite <- length_app, <- Hcut; lia).
    assert (Hfuel2 : (length s1 + length s2 + S (length t1 + length t2)
                      <= S fuel)%nat)
      by (rewrite <- (length_app t1 t2), <- Hcut; lia).
    rewrite Hcut in Hrb'. clear Hcut Hpos Hmore Hlen' Hfuel Hlen Erb Hrb Hhead
      Hnot Habove rb.
    apply ascending_app in Hrb'. destruct Hrb' as (Ht1s & _ & _).
    assert (Hnot : Forall (fun y => Forall (fun x => lt y x = false) s1) t2).
    { eapply Forall_impl; [exact Ht2 |]. intros y Hy. simpl in Hy. subst s1.
      by apply ascending_not_above. }
    rewrite merge_suffix_b by assumption.
    destruct (Nat.eqb_spec (length t1) 1) as [Hone | Hmore].
    { assert (t1 = [bfirst]) as ->.
      { apply head_singleton; [assumption |].
        apply (head_app_l t1 t2); [by destruct t1 | assumption]. }
      destruct t2 as [|y t2]; [simpl in Hlen2; lia |].
      simpl fst. rewrite copy_a by assumption. simpl.
      by rewrite <- !app_assoc. }
    rewrite andb_false_r.
    destruct t1 as [|z t1].
    { destruct t2 as [|y t2]; [simpl in Hlen2; lia |].
      simpl. rewrite stable_merge_nil_r. by rewrite <- !app_assoc. }
    replace (negb (length t2 =? 0)%nat && (length (z :: t1) =? 0)%nat)
      with false by (simpl; by rewrite andb_false_r).
    assert (Hlast : Forall (fun x => Forall (fun y => lt y x = true) (z :: t1))
                      [a2]) by (constructor; [exact Ht1 | constructor]).
    replace (stable_merge lt s1 (z :: t1))
      with (stable_merge lt ra2 (z :: t1) ++ [a2])
      by (rewrite Es1; symmetry; by apply merge_suffix_a).
    subst s1. apply ascending_app in Hs1. destruct Hs1 as (Hra2 & _ & _).
    apply Forall_app in Hdom1. destruct Hdom1 as [Hdom1 _].
    rewrite length_app in Hfuel2. simpl in Hfuel2, Hhead', Hmore.
    destruct ra2 as [|x ra2].
    { simpl. by rewrite <- !app_assoc. }
    destruct ((MIN_GALLOP <=? length s2)%nat || (MIN_GALLOP <=? length t2)%nat);
      (rewrite (IH _ _ _ _ _ _ _ _ bfirst);
       [by rewrite <- !app_assoc | assumption | assumption | exact Hhead'
       | assumption | discriminate | simpl; lia | simpl in *; lia]).
  - destruct (lt b1 a1) eqn:Hba; cbv zeta.
    + assert (Habove : Forall (fun x => Forall (fun y => lt y x = true) rb)
                         [a1]).
      { constructor; [| constructor]. subst rb. by apply ascending_below. }
      replace (stable_merge lt ra rb) with (stable_merge lt ra' rb ++ [a1])
        by (rewrite Era; symmetry; by apply merge_suffix_a).
      subst ra. apply ascending_app in Hra. destruct Hra as (Hra' & _ & _).
      apply Forall_app in Hdom. destruct Hdom as [Hdom' _].
      rewrite length_app in Hfuel. simpl in Hfuel.
      destruct ra' as [|x ra'].
      { simpl. by rewrite <- !app_assoc. }
      destruct (mg <=? S ac)%nat;
        (rewrite (IH _ _ _ _ _ _ _ _ bfirst);
         [by rewrite <- !app_assoc | assumption | assumption | exact Hhead
         | assumption | discriminate | assumption | simpl in *; lia]).
    + assert (Hnot : Forall (fun y => Forall (fun x => lt y x = false) ra)
                       [b1]).
      { constructor; [| constructor]. subst ra. by apply ascending_not_above. }
      replace (stable_merge lt ra rb) with (stable_merge lt ra rb' ++ [b1])
        by (rewrite Erb; symmetry; by apply merge_suffix_b).
      destruct (Nat.eqb_spec (length rb') 1) as [Hone | Hmore].
      { assert (rb' = [bfirst]) as ->.
        { apply head_singleton; [assumption |].
          apply (head_app_l rb' [b1]); [by destruct rb' | by rewrite <- Erb]. }
        simpl fst. rewrite copy_a by assumption. simpl.
        by rewrite <- !app_assoc. }
      assert (Hhead' : head rb' = Some bfirst).
      { apply (head_app_l rb' [b1]); [| by rewrite <- Erb].
        destruct rb'; [simpl in *; lia | done]. }
      destruct (mg <=? S bc)%nat;
        (rewrite (IH _ _ _ _ _ _ _ _ bfirst);
         [by rewrite <- !app_assoc | assumption | assumption | exact Hhead'
         | assumption | assumption | lia | lia]).
Qed.

Lemma merge_hi_spec a b ms b0 alast :
  ascending a -> ascending b ->
  head b = Some b0 -> Forall (fun x => lt b0 x = true) a ->
  last a = Some alast -> Forall (fun y => lt y alast = true) b ->
  (merge_hi lt a b ms).1 = stable_merge lt a b.
Proof.
  intros Ha Hb Hhead Hfirst Hlast Hdom. unfold merge_hi.
  destruct (snoc_cases a) as [-> | (ra & a1 & ->)]; [discriminate |].
  rewrite last_snoc in Hlast. inversion Hlast; subst a1. clear Hlast.
  rewrite unsnoc_snoc.
  assert (Habove : Forall (fun x => Forall (fun y => lt y x = true) b)
                     [alast]) by (constructor; [exact Hdom | constructor]).
  rewrite merge_suffix_a by assumption.
  apply ascending_app in Ha. destruct Ha as (Hra & _ & _).
  apply Forall_app in Hfirst. destruct Hfirst as [Hfirst _].
  destruct ra as [|x ra]; [by rewrite stable_merge_nil_l |].
  destruct (Nat.eqb_spec (length b) 1) as [Hone | Hmore].
  { rewrite (head_singleton _ _ Hone Hhead), copy_a by assumption.
    reflexivity. }
  rewrite (merge_hi_loop_spec _ _ _ _ _ _ _ _ _ b0); try assumption.
  - reflexivity.
  - discriminate.
  - destruct b as [|y [|z b]]; simpl in *; try discriminate; lia.
  - rewrite length_app. simpl. lia.
Qed.

(** *** [merge_at] is the stable merge *)

Lemma merge_runs_spec a b ms :
  ascending a -> ascending b ->
  (merge_runs lt a b ms).1 = stable_merge lt a b.
Proof.
  intros Ha Hb. unfold merge_runs.
  destruct b as [|b0 rb]; [by rewrite app_nil_r, stable_merge_nil_r |].
  destruct (snoc_cases a) as [-> | (a' & alast & Ea)]; [reflexivity |].
  replace (unsnoc a) with (Some (a', alast)) by (by rewrite Ea, unsnoc_snoc).
  cbv zeta.
  assert (Hb0 : P b0) by (apply ascending_P in Hb; by inversion Hb).
  destruct (ascending_cut_lt_key b0 a Hb0 Ha) as (s1 & s2 & Hcut & H1 & H2).
  assert (Hpos : (0 < length (s1 ++ s2))%nat).
  { rewrite <- Hcut, Ea, length_app. simpl. lia. }
  rewrite Hcut, (gallop_right_cut b0 s1 s2 _ H1 H2 Hpos).
  rewrite take_app_length, drop_app_length.
  rewrite merge_prefix_a by assumption.
  rewrite Hcut in Ha. apply ascending_app in Ha. destruct Ha as (_ & Hs2 & _).
  clear Hcut Hpos Ea a' alast a.
  destruct (snoc_cases s2) as [-> | (s2' & a1 & Es2)].
  { simpl. by rewrite app_nil_r. }
  replace (unsnoc s2) with (Some (s2', a1)) by (by rewrite Es2, unsnoc_snoc).
  assert (Ha1 : P a1).
  { subst s2. apply ascending_P, Forall_app in Hs2. destruct Hs2 as [_ H].
    by inversion H. }
  remember (b0 :: rb) as b eqn:Eb.
  destruct (ascending_cut_key_lt a1 b Ha1 Hb) as (t1 & t2 & Hcut & Ht1 & Ht2).
  assert (Hpos : (length (t1 ++ t2) - 1 < length (t1 ++ t2))%nat).
  { rewrite <- Hcut, Eb. simpl. lia. }
  rewrite Hcut, (gallop_left_cut a1 t1 t2 _ Ht1 Ht2 Hpos).
  assert (Hnot : Forall (fun y => Forall (fun x => lt y x = false) s2) t2).
  { eapply Forall_impl; [exact Ht2 |]. intros y Hy. simpl in Hy. subst s2.
    by apply ascending_not_above. }
  rewrite merge_suffix_b by assumption.
  destruct t1 as [|y t1].
  { simpl. by rewrite stable_merge_nil_r, <- app_assoc. }
  rewrite take_app_length, drop_app_length.
  replace (length (y :: t1) =? 0)%nat with false by reflexivity.
  assert (Hy : y = b0) by (rewrite Hcut in Eb; simpl in Eb; congruence).
  subst y.
  rewrite Hcut in Hb. apply ascending_app in Hb. destruct Hb as (Hbt1 & _ & _).
  assert (Hlast : last s2 = Some a1) by (by rewrite Es2, last_snoc).
  destruct (length s2 <=? length (b0 :: t1))%nat.
  - pose proof (merge_lo_spec s2 (b0 :: t1) ms b0 a1 Hs2 Hbt1 eq_refl H2
                  Hlast Ht1) as Hm.
    destruct (merge_lo lt s2 (b0 :: t1) ms) as [m ms'].
    simpl in Hm. by subst m.
  - pose proof (merge_hi_spec s2 (b0 :: t1) ms b0 a1 Hs2 Hbt1 eq_refl H2
                  Hlast Ht1) as Hm.
    destruct (merge_hi lt s2 (b0 :: t1) ms) as [m ms'].
    simpl in Hm. by subst m.
Qed.

(** *** The pending runs *)

Lemma insertion_sort_asc_id s : ascending s -> insertion_sort_asc lt s = s.
Proof.
  induction s as [|x s IH] using rev_ind; [reflexivity |].
  intros Hs. pose proof (ascending_last _ _ Hs) as Hall.
  apply ascending_app in Hs. destruct Hs as (Hs & _ & _).
  rewrite insertion_sort_asc_app, (IH Hs). simpl.
  pose proof (insert_asc_cut x s [] Hall (List.Forall_nil _)) as Hcut.
  by rewrite app_nil_r in Hcut.
Qed.

Lemma stable_merge_ascending a b :
  ascending a -> ascending b ->
  stable_merge lt a b = insertion_sort_asc lt (a ++ b).
Proof.
  intros Ha Hb.
  transitivity (stable_merge lt (insertion_sort_asc lt a)
                  (insertion_sort_asc lt b)).
  - by rewrite !insertion_sort_asc_id.
  - apply stable_merge_sorts; by apply ascending_P.
Qed.

Lemma insertion_sort_asc_congr l1 l1' l2 l2' :
  Forall P l1 -> Forall P l1' -> Forall P l2 -> Forall P l2' ->
  insertion_sort_asc lt l1 = insertion_sort_asc lt l1' ->
  insertion_sort_asc lt l2 = insertion_sort_asc lt l2' ->
  insertion_sort_asc lt (l1 ++ l2) = insertion_sort_asc lt (l1' ++ l2').
Proof.
  intros H1 H1' H2 H2' E1 E2.
  rewrite <- !stable_merge_sorts by assumption. by rewrite E1, E2.
Qed.

Lemma flat_cons (r : list A * nat) p : flat (r :: p) = flat p ++ r.1.
Proof. unfold flat. simpl. rewrite concat_app. simpl. by rewrite app_nil_r. Qed.

Lemma flat_P p : runs_ascending p -> Forall P (flat p).
Proof.
  induction 1 as [|r p Hr _ IH]; [constructor |].
  rewrite flat_cons. apply Forall_app. split; [assumption |].
  by apply ascending_P.
Qed.

Lemma flat_cons_congr r p p' :
  ascending r.1 -> runs_ascending p -> runs_ascending p' ->
  insertion_sort_asc lt (flat p') = insertion_sort_asc lt (flat p) ->
  insertion_sort_asc lt (flat (r :: p'))
  = insertion_sort_asc lt (flat (r :: p)).
Proof.
  intros Hr Hp Hp' E. rewrite !flat_cons.
  apply insertion_sort_asc_congr;
    [by apply flat_P | by apply flat_P | by apply ascending_P ..
    | assumption | reflexivity].
Qed.

(** Merging the two last runs keeps the runs sorted and the sorted whole
    the same. *)
Lemma merge_top ra rb pa pb pa' rest ms :
  runs_ascending ((rb, pb) :: (ra, pa) :: rest) ->
  runs_ascending (((merge_runs lt ra rb ms).1, pa') :: rest) /\
  insertion_sort_asc lt (flat (((merge_runs lt ra rb ms).1, pa') :: rest))
  = insertion_sort_asc lt (flat ((rb, pb) :: (ra, pa) :: rest)).
Proof.
  intros Hall. inversion Hall as [|? ? Hrb Hall']; subst.
  inversion Hall' as [|? ? Hra Hrest]; subst. simpl in Hra, Hrb.
  rewrite merge_runs_spec, stable_merge_ascending by assumption.
  assert (Hp : Forall P (ra ++ rb))
    by (apply Forall_app; split; by apply ascending_P).
  assert (Hm : ascending (insertion_sort_asc lt (ra ++ rb)))
    by (by apply insertion_sort_asc_ascending).
  split; [by constructor |].
  rewrite !flat_cons. simpl. rewrite <- app_assoc.
  apply insertion_sort_asc_congr;
    [by apply flat_P | by apply flat_P | by apply ascending_P | assumption
    | reflexivity | by apply insertion_sort_asc_id].
Qed.

Lemma merge_pending_spec : forall fuel power p ms,
  runs_ascending p ->
  runs_ascending (merge_pending lt fuel power p ms).1 /\
  insertion_sort_asc lt (flat (merge_pending lt fuel power p ms).1)
  = insertion_sort_asc lt (flat p).
Proof.
  induction fuel as [|fuel IH]; intros power p ms Hp; [by split |].
  cbn [merge_pending].
  destruct p as [|[rb pb] [|[ra pa] rest]]; [by split .. |].
  destruct (power <? pa)%nat; [| by split].
  destruct (merge_top ra rb pa pb pa rest ms Hp) as [Hasc Heq].
  destruct (merge_runs lt ra rb ms) as [m ms']. simpl in Hasc, Heq.
  destruct (IH power ((m, pa) :: rest) ms' Hasc) as [Hasc' Heq'].
  split; [assumption |]. by rewrite Heq'.
Qed.

Lemma found_new_run_spec p n2 listlen ms :
  runs_ascending p ->
  runs_ascending (found_new_run lt p n2 listlen ms).1 /\
  insertion_sort_asc lt (flat (found_new_run lt p n2 listlen ms).1)
  = insertion_sort_asc lt (flat p).
Proof.
  intros Hp. unfold found_new_run.
  destruct p as [|[r pr] rest]; [by split |]. cbv zeta.
  set (power := power_of _ _ _ _). clearbody power.
  destruct (merge_pending_spec (length ((r, pr) :: rest)) power
              ((r, pr) :: rest) ms Hp) as [Hasc Heq].
  destruct (merge_pending lt _ power ((r, pr) :: rest) ms) as [p' ms'].
  simpl in Hasc, Heq.
  destruct p' as [|[r' pr'] rest']; [by split |]. simpl fst.
  inversion Hasc as [|? ? Hr' Hrest']; subst.
  split; [by constructor |].
  by rewrite <- Heq, !flat_cons.
Qed.

Lemma merge_force_collapse_spec : forall fuel p ms,
  runs_ascending p -> (length p <= S fuel)%nat ->
  runs_ascending (merge_force_collapse lt fuel p ms) /\
  insertion_sort_asc lt (flat (merge_force_collapse lt fuel p ms))
  = insertion_sort_asc lt (flat p) /\
  (length (merge_force_collapse lt fuel p ms) <= 1)%nat.
Proof.
  induction fuel as [|fuel IH]; intros p ms Hp Hlen.
  { simpl. repeat split; [assumption | lia]. }
  cbn [merge_force_collapse].
  destruct p as [|[r2 p2] [|[r1 p1] rest]];
    [repeat split; [assumption | simpl; lia] ..|].
  assert (Htop : forall ms0,
    runs_ascending
      (let '(m, ms1) := merge_runs lt r1 r2 ms0 in
       merge_force_collapse lt fuel ((m, p1) :: rest) ms1) /\
    insertion_sort_asc lt
      (flat (let '(m, ms1) := merge_runs lt r1 r2 ms0 in
             merge_force_collapse lt fuel ((m, p1) :: rest) ms1))
    = insertion_sort_asc lt (flat ((r2, p2) :: (r1, p1) :: rest)) /\
    (length (let '(m, ms1) := merge_runs lt r1 r2 ms0 in
             merge_force_collapse lt fuel ((m, p1) :: rest) ms1) <= 1)%nat).
  { intros ms0.
    destruct (merge_top r1 r2 p1 p2 p1 rest ms0 Hp) as [Hasc Heq].
    destruct (merge_runs lt r1 r2 ms0) as [m ms1]. simpl in Hasc, Heq.
    destruct (IH ((m, p1) :: rest) ms1 Hasc) as (Hasc' & Heq' & Hlen');
      [simpl in *; lia |].
    repeat split; [assumption | by rewrite Heq' | assumption]. }
  destruct rest as [|[r0 p0] rest']; [apply Htop |].
  destruct (length r0 <? length r2)%nat; [| apply Htop].
  inversion Hp as [|? ? Hr2 Hp']; subst.
  destruct (merge_top r0 r1 p0 p1 p0 rest' ms Hp') as [Hasc Heq].
  destruct (merge_runs lt r0 r1 ms) as [m ms1]. simpl in Hasc, Heq.
  assert (Hasc2 : runs_ascending ((r2, p2) :: (m, p0) :: rest'))
    by (by constructor).
  destruct (IH ((r2, p2) :: (m, p0) :: rest') ms1 Hasc2)
    as (Hasc' & Heq' & Hlen'); [simpl in *; lia |].
  repeat split; [assumption | | assumption].
  rewrite Heq'. by apply flat_cons_congr.
Qed.

(** *** The main loop *)

Lemma count_run_pos l n descending :
  l <> [] -> count_run lt l = (n, descending) -> (1 <= n)%nat.
Proof.
  destruct l as [|x [|y l]]; simpl; intros Hne Hrun; [congruence | |];
    inversion Hrun; lia.
Qed.

(** The run put on the pending runs is the sorted front of what is left
    of the list. *)
Lemma next_run_sorted minrun rem n descending :
  Forall P rem -> rem <> [] ->
  count_run lt rem = (n, descending) ->
  let run := if descending then rev (take n rem) else take n rem in
  let force := Nat.min minrun (length rem) in
  let '(run', n') :=
    if (n <? minrun)%nat
    then (binarysort lt run (take (force - n) (drop n rem)), force)
    else (run, n) in
  run' = insertion_sort_asc lt (take n' rem) /\ (1 <= n')%nat.
Proof.
  intros Hp Hne Hrun. cbv zeta.
  pose proof (count_run_le lt rem) as Hle. rewrite Hrun in Hle. simpl in Hle.
  pose proof (count_run_pos _ _ _ Hne Hrun) as Hpos.
  rewrite (count_run_sorted _ _ _ Hp Hrun).
  destruct (Nat.ltb_spec n minrun) as [Hshort | Hlong]; [| by split].
  split; [| lia].
  rewrite binarysort_sorts;
    [| by apply Forall_take | by apply Forall_take, Forall_drop].
  rewrite take_take_drop. f_equal. f_equal. lia.
Qed.

Lemma runs_loop_spec : forall fuel minrun listlen rem p ms,
  Forall P rem -> runs_ascending p -> (length rem < fuel)%nat ->
  runs_ascending (runs_loop lt fuel minrun listlen rem p ms).1 /\
  insertion_sort_asc lt (flat (runs_loop lt fuel minrun listlen rem p ms).1)
  = insertion_sort_asc lt (flat p ++ rem).
Proof.
  induction fuel as [|fuel IH]; intros minrun listlen rem p ms Hrem Hp Hfuel;
    [lia |].
  destruct rem as [|x rem']; [simpl; by rewrite app_nil_r |].
  cbn [runs_loop]. remember (x :: rem') as rem eqn:Erem.
  assert (Hne : rem <> []) by (subst; discriminate). clear Erem.
  destruct (count_run lt rem) as [n descending] eqn:Hrun.
  pose proof (next_run_sorted minrun rem n descending Hrem Hne Hrun) as Hnext.
  cbv zeta in Hnext |- *.
  destruct (if (n <? minrun)%nat
            then (binarysort lt
                    (if descending then rev (take n rem) else take n rem)
                    (take (Nat.min minrun (length rem) - n) (drop n rem)),
                  Nat.min minrun (length rem))
            else (if descending then rev (take n rem) else take n rem, n))
    as [run n'].
  destruct Hnext as [-> Hpos].
  destruct (found_new_run_spec p n' listlen ms Hp) as [Hasc Heq].
  destruct (found_new_run lt p n' listlen ms) as [p' ms'].
  simpl in Hasc, Heq.
  assert (Htake : Forall P (take n' rem)) by (by apply Forall_take).
  assert (Hdrop : Forall P (drop n' rem)) by (by apply Forall_drop).
  destruct (IH minrun listlen (drop n' rem)
              ((insertion_sort_asc lt (take n' rem), 0%nat) :: p') ms')
    as [Hasc' Heq'].
  - assumption.
  - constructor; [| assumption]. simpl.
    by apply insertion_sort_asc_ascending.
  - rewrite length_drop. destruct rem; simpl in *; [congruence | lia].
  - split; [assumption |]. rewrite Heq', flat_cons. simpl.
    transitivity (insertion_sort_asc lt
                    ((flat p ++ take n' rem) ++ drop n' rem));
      [| by rewrite <- app_assoc, take_drop].
    apply insertion_sort_asc_congr; try assumption; try reflexivity.
    + apply Forall_app. split; [by apply flat_P |].
      by apply insertion_sort_asc_P.
    + apply Forall_app. split; [by apply flat_P | assumption].
    + apply insertion_sort_asc_congr; try assumption.
      * by apply flat_P.
      * by apply flat_P.
      * by apply insertion_sort_asc_P.
      * apply insertion_sort_asc_id. by apply insertion_sort_asc_ascending.
Qed.

(** For keys that [<] orders, [list.sort] is the stable insertion sort,
    whatever [minrun]. *)
Theorem list_sort_with_sorts minrun l :
  Forall P l -> list_sort_with lt minrun l = insertion_sort_asc lt l.
Proof.
  intros Hl. unfold list_sort_with.
  destruct (Nat.ltb_spec (length l) 2) as [Hlen | Hlen].
  { destruct l as [|x [|y l]]; simpl in *; try reflexivity; lia. }
  assert (Hfuel : (length l < S (length l))%nat) by lia.
  destruct (runs_loop_spec (S (length l)) minrun (length l) l [] MIN_GALLOP
              Hl (List.Forall_nil _) Hfuel) as [Hasc Heq].
  destruct (runs_loop lt (S (length l)) minrun (length l) l [] MIN_GALLOP)
    as [p ms].
  simpl in Hasc, Heq.
  destruct (merge_force_collapse_spec (length p) p ms Hasc)
    as (Hasc' & Heq' & Hone); [lia |].
  rewrite <- Heq, <- Heq'.
  fold (flat (merge_force_collapse lt (length p) p ms)).
  destruct (merge_force_collapse lt (length p) p ms) as [|[r pr] [|? ?]];
    [reflexivity | | simpl in Hone; lia].
  inversion Hasc'; subst. rewrite flat_cons. simpl. symmetry.
  by apply insertion_sort_asc_id.
Qed.

End OrderFacts.

Section SortFacts.

Context {A : Type} (key : A -> float).

Lemma sort_desc_perm l : Permutation (sort_desc key l) l.
Proof.
  unfold sort_desc, list_sort.
  etransitivity; [symmetry; apply Permutation_rev |].
  etransitivity; [apply list_sort_with_perm |].
  symmetry. apply Permutation_rev.
Qed.

(** Among numbers [<] is transitive. *)
Lemma ltb_trans_numeric (x y z : float) :
  PrimFloat.is_nan x = false -> PrimFloat.is_nan y = false ->
  PrimFloat.is_nan z = false ->
  PrimFloat.ltb x y = true -> PrimFloat.ltb y z = true ->
  PrimFloat.ltb x z = true.
Proof.
  intros Hx Hy Hz Hxy Hyz.
  destruct (PrimFloat.ltb x z) eqn:Hxz; [reflexivity |].
  apply not_ltb_leb in Hxz; [| assumption ..].
  pose proof (ltb_asym _ _ Hxy) as Hyx.
  apply not_ltb_leb in Hyx; [| assumption ..].
  pose proof (leb_trans _ _ _ Hxz Hyx) as Hzy.
  apply ltb_not_leb in Hyz. congruence.
Qed.

(** A descending list of numbers is cut in two by [key x < key y]: true
    before, false behind. *)
Lemma descending_cut x d :
  PrimFloat.is_nan (key x) = false -> numeric key d ->
  StronglySorted (fun a b => PrimFloat.leb (key b) (key a) = true) d ->
  exists d1 d2,
    d = d1 ++ d2 /\
    Forall (fun y => PrimFloat.ltb (key x) (key y) = true) d1 /\
    Forall (fun y => PrimFloat.ltb (key x) (key y) = false) d2.
Proof.
  intros Hx Hnum Hs.
  induction Hs as [|y d Hs IH Hall]; [by exists [], [] |].
  inversion Hnum as [|? ? Hy Hd]; subst.
  destruct (PrimFloat.ltb (key x) (key y)) eqn:Hxy.
  - destruct (IH Hd) as (d1 & d2 & -> & H1 & H2).
    exists (y :: d1), d2. split; [reflexivity |]. split; [| assumption].
    by constructor.
  - exists [], (y :: d). split; [reflexivity |]. split; [constructor |].
    constructor; [assumption |].
    apply not_ltb_leb in Hxy; [| assumption ..].
    rewrite Forall_forall in Hall, Hd. apply Forall_forall. intros z Hz.
    destruct (PrimFloat.ltb (key x) (key z)) eqn:Hxz; [| reflexivity].
    apply ltb_not_leb in Hxz.
    pose proof (leb_trans _ _ _ (Hall z Hz) Hxy). congruence.
Qed.

Lemma insert_desc_cut x d1 d2 :
  Forall (fun y => PrimFloat.ltb (key x) (key y) = true) d1 ->
  Forall (fun y => PrimFloat.ltb (key x) (key y) = false) d2 ->
  insert_desc key x (d1 ++ d2) = d1 ++ x :: d2.
Proof.
  intros H1 H2. induction H1 as [|y d1 Hy _ IH]; simpl.
  - destruct H2 as [|y d2 Hy _]; simpl; [reflexivity |]. by rewrite Hy.
  - by rewrite Hy, IH.
Qed.

(** On a sorted list of numbers the binary insertion of [binarysort],
    read from the right, is the insertion of the stable descending
    sort. *)
Lemma binary_insert_desc x d :
  PrimFloat.is_nan (key x) = false -> numeric key d ->
  StronglySorted (fun a b => PrimFloat.leb (key b) (key a) = true) d ->
  rev (binary_insert (fun a b => PrimFloat.ltb (key a) (key b)) (rev d) x)
  = insert_desc key x d.
Proof.
  intros Hx Hnum Hs.
  destruct (descending_cut x d Hx Hnum Hs) as (d1 & d2 & -> & H1 & H2).
  rewrite insert_desc_cut by assumption.
  rewrite rev_app_distr, binary_insert_cut.
  - rewrite rev_app_distr. simpl. by rewrite !rev_involutive, <- app_assoc.
  - by apply Forall_rev.
  - by apply Forall_rev.
Qed.

Lemma insertion_sort_desc_numeric l :
  numeric key l -> numeric key (insertion_sort_desc key l).
Proof.
  intros Hnum. apply Forall_forall. intros a Ha.
  unfold numeric in Hnum. rewrite Forall_forall in Hnum. apply Hnum.
  apply list_elem_of_In. apply list_elem_of_In in Ha.
  by apply (Permutation_in a (insertion_sort_desc_perm key l)).
Qed.

Lemma binarysort_desc rest : forall cur t,
  numeric key rest -> numeric key t ->
  rev cur = insertion_sort_desc key t ->
  rev (binarysort (fun a b => PrimFloat.ltb (key a) (key b)) cur rest)
  = insertion_sort_desc key (rev rest ++ t).
Proof.
  unfold binarysort.
  induction rest as [|x rest IH]; intros cur t Hrest Ht Hcur; simpl.
  - assumption.
  - inversion Hrest as [|? ? Hx Hrest']; subst.
    rewrite <- app_assoc. simpl. apply IH; [assumption | by constructor |].
    rewrite <- (rev_involutive cur), Hcur. simpl.
    apply binary_insert_desc; [assumption | |].
    + by apply insertion_sort_desc_numeric.
    + by apply insertion_sort_desc_descending.
Qed.

(** The order of the keys, as [list.sort] needs it. *)
Lemma ltb_keys_trans (x y z : A) :
  PrimFloat.ltb (key x) (key y) = true ->
  PrimFloat.ltb (key y) (key z) = true ->
  PrimFloat.ltb (key x) (key z) = true.
Proof.
  intros Hxy Hyz.
  destruct (ltb_numbers _ _ Hxy) as [Hx Hy].
  destruct (ltb_numbers _ _ Hyz) as [_ Hz].
  by apply (ltb_trans_numeric _ (key y)).
Qed.

Lemma not_ltb_keys_trans (x y z : A) :
  PrimFloat.is_nan (key y) = false ->
  PrimFloat.ltb (key y) (key x) = false ->
  PrimFloat.ltb (key z) (key y) = false ->
  PrimFloat.ltb (key z) (key x) = false.
Proof.
  intros Hy Hyx Hzy.
  destruct (PrimFloat.ltb (key z) (key x)) eqn:Hzx; [| reflexivity].
  destruct (ltb_numbers _ _ Hzx) as [Hz Hx].
  apply not_ltb_leb in Hyx; [| assumption ..].
  apply not_ltb_leb in Hzy; [| assumption ..].
  pose proof (leb_trans _ _ _ Hyx Hzy) as Hxz.
  apply ltb_not_leb in Hzx. congruence.
Qed.

(** When no key is a NaN, [list.sort] on the reversed list is the stable
    ascending sort of it, and [sort_desc] the stable descending sort. *)
Lemma list_sort_numeric l :
  numeric key l ->
  list_sort (fun a b => PrimFloat.ltb (key a) (key b)) l
  = insertion_sort_asc (fun a b => PrimFloat.ltb (key a) (key b)) l.
Proof.
  intros Hnum. unfold list_sort.
  apply (list_sort_with_sorts _
           (fun a => PrimFloat.is_nan (key a) = false)).
  - intros a b c. apply ltb_keys_trans.
  - intros a b. apply ltb_asym.
  - intros a b c. apply not_ltb_keys_trans.
  - exact Hnum.
Qed.

Lemma sort_desc_insertion l :
  numeric key l -> sort_desc key l = insertion_sort_desc key l.
Proof.
  intros Hnum. unfold sort_desc.
  assert (Hrev : numeric key (rev l)) by (by apply Forall_rev).
  rewrite (list_sort_numeric _ Hrev).
  unfold insertion_sort_asc.
  rewrite <- (binarysort_asc _ (fun a => PrimFloat.is_nan (key a) = false)).
  - rewrite (binarysort_desc (rev l) [] []); [| assumption | constructor
                                              | reflexivity].
    by rewrite rev_involutive, app_nil_r.
  - intros a b. apply ltb_asym.
  - intros a b c. apply not_ltb_keys_trans.
  - apply ascending_nil.
  - exact Hrev.
Qed.

Lemma sort_desc_spec l : stable_desc_sort key l (sort_desc key l).
Proof.
  split.
  - apply sort_desc_perm.
  - intros Hnum. rewrite sort_desc_insertion by assumption.
    apply insertion_sort_desc_sorted.
  - intros Hnum a b. rewrite sort_desc_insertion by assumption.
    apply insertion_sort_desc_stable.
  - intros Hnum. rewrite sort_desc_insertion by assumption.
    by apply insertion_sort_desc_descending.
Qed.

End SortFacts.

(** A NaN among the keys: no comparison with it holds, and the order is
    the one CPython gives, [nan, 2.0, 1.0, 1.0] with the two [1.0] in their
    order, the NaN in front. *)
Example sort_desc_nan_key :
  sort_desc snd [(0%nat, 1%float); (1%nat, nan); (2%nat, 1%float);
                 (3%nat, 2%float)]
  = [(1%nat, nan); (3%nat, 2%float); (0%nat, 1%float); (2%nat, 1%float)].
Proof. vm_compute. reflexivity. Qed.

(** Sixty-six keys, two NaN among them, in two runs that are merged: the
    order is the one CPython gives, the candidates behind the first NaN
    having moved in front of some with greater keys. *)
Example sort_desc_nan_runs :
  map fst (sort_desc snd (zip (seq 0 66)
    [19; 19; 18; 18; 17; 17; 16; 16; 15; 15; 14; 14; 13; 13; 12; 12;
     11; 11; 10; 10; 9; 9; 8; 8; 7; 7; 6; 6; 5; 5; 4; 4; 3; 3; 2; 2;
     1; 1; 0; 0; nan; 7; nan; 3; 30; 29; 28; 27; 26; 25; 24; 23; 22;
     21; 20; 19; 18; 17; 16; 15; 14; 13; 12; 11; 10; 9]%float))
  = [0; 1; 2; 3; 4; 5; 6; 7; 8; 9; 10; 11; 12; 13; 14; 15; 16; 17; 18;
     19; 20; 21; 22; 23; 24; 25; 26; 27; 28; 29; 30; 31; 32; 40; 42; 44;
     45; 46; 47; 48; 49; 50; 51; 52; 53; 54; 55; 56; 57; 58; 59; 60; 61;
     62; 63; 64; 65; 41; 33; 43; 34; 35; 36; 37; 38; 39]%nat.
Proof. vm_compute. reflexivity. Qed.

(** ** Facts about [semantic_search_with_reranking] *)

Section RerankFacts.

Context {S : Type} (B : Backend S).

Lemma rerank_step_inv qe acc r w out w' :
  rerank_step B qe acc r w = (Ok out, w') ->
  exists r', rescored_from B qe r r' /\ out = acc ++ [r'].
Proof.
  unfold rerank_step, bind, encode, lift, compute_similarity, ret.
  rewrite record_call_run.
  destruct (model_encode B [content r] (env w)) as [[embs | e] s1] eqn:Henc;
    simpl; [| discriminate].
  unfold Py.index. destruct (embs !! 0%nat) as [de |] eqn:Hde;
    [| discriminate].
  destruct (cosine_similarity B qe de) as [sim | e] eqn:Hsim;
    [| discriminate].
  intros H. inversion H; subst.
  exists (with_score r sim). split; [| reflexivity].
  by exists (env w), s1, embs, de, sim.
Qed.

Lemma rerank_loop qe initial : forall acc w out w',
  for_each initial (rerank_step B qe) acc w = (Ok out, w') ->
  exists rescored,
    Forall2 (rescored_from B qe) initial rescored /\ out = acc ++ rescored.
Proof.
  induction initial as [|r initial IH]; intros acc w out w' H.
  - inversion H; subst. exists []. split; [constructor | by rewrite app_nil_r].
  - cbn [for_each] in H. unfold bind at 1 in H.
    destruct (rerank_step B qe acc r w) as [[acc1 | e] w1] eqn:Hstep;
      [| discriminate].
    apply rerank_step_inv in Hstep. destruct Hstep as (r' & Hr' & ->).
    apply IH in H. destruct H as (rescored & Hall & ->).
    exists (r' :: rescored). split; [by constructor |].
    by rewrite <- app_assoc.
Qed.

End RerankFacts.

Lemma slice_prefix {A} (l : list A) k :
  0 <= k -> Py.slice l 0 k = take (Z.to_nat k) l.
Proof.
  intros Hk. rewrite slice_take_drop by lia. simpl.
  by rewrite Nat.sub_0_r, drop_0.
Qed.

(** C6, as amended.  When [semantic_search_with_reranking] returns, the
    candidates are the results of [search] with no filter and threshold
    [0.0]; each gets as its score the cosine similarity of the query
    embedding and the embedding of its text, computed anew; the candidates
    are sorted by descending new score, candidates of equal score keeping
    the order [search] gave them; and the result is the slice [[:top_k]] of
    that order: its first [top_k] elements when [top_k >= 0], all of them
    when there are fewer.  The descending order and the order of equal
    scores hold when no new score is a NaN; with a NaN among them the
    sorted list is only known to hold the same candidates. *)
Theorem rerank_stable_top_k {S} (B : Backend S) query n top_k w out w' :
  semantic_search_with_reranking B query n top_k w = (Ok out, w') ->
  exists initial w1 rescored sorted,
    search B query n None 0%float w = (Ok initial, w1) /\
    (initial = [] /\ rescored = [] \/
     exists qe, embedding_of B query qe /\
                Forall2 (rescored_from B qe) initial rescored) /\
    stable_desc_sort similarity_score rescored sorted /\
    out = Py.slice sorted 0 top_k /\
    (0 <= top_k -> out = take (Z.to_nat top_k) sorted).
Proof.
  unfold semantic_search_with_reranking. intros Hrun.
  unfold bind at 1 in Hrun.
  destruct (search B query n None 0%float w) as [[initial | e] w1] eqn:Hsearch;
    [| discriminate].
  exists initial, w1.
  destruct initial as [|r0 initial]; unfold truthy in Hrun; cbv iota in Hrun.
  - inversion Hrun; subst. exists [], [].
    split; [reflexivity |]. split; [by left |].
    split; [apply (sort_desc_spec similarity_score []) |].
    split; [unfold Py.slice; by rewrite drop_nil, take_nil |].
    intros _. by rewrite take_nil.
  - unfold bind at 1 in Hrun. unfold encode in Hrun.
    rewrite record_call_run in Hrun.
    destruct (model_encode B [query] (env w1)) as [[embs | e] s2] eqn:Henc;
      [| discriminate].
    cbn [fst snd] in Hrun. unfold bind at 1 in Hrun. unfold lift at 1 in Hrun.
    unfold Py.index at 1 in Hrun.
    destruct (embs !! 0%nat) as [qe |] eqn:Hqe; [| discriminate].
    unfold bind at 1 in Hrun.
    match type of Hrun with
    | context [for_each ?l ?f ?a ?w0] =>
        destruct (for_each l f a w0) as [[reranked | e] w3] eqn:Hloop;
          [| discriminate]
    end.
    apply rerank_loop in Hloop. destruct Hloop as (rescored & Hall & ->).
    inversion Hrun; subst. simpl app.
    exists rescored, (sort_desc similarity_score rescored).
    split; [reflexivity |].
    split; [right; exists qe; split; [by exists (env w1), s2, embs | assumption] |].
    split; [apply sort_desc_spec |].
    split; [reflexivity |]. apply slice_prefix.
Qed.

Lemma rerank_stable_top_k_witness :
  exists initial w1 rescored sorted,
    search (Ref.backend []) (u "x") 2 None 0%float Sample.with_b_a
      = (Ok initial, w1) /\
    (initial = [] /\ rescored = [] \/
     exists qe, embedding_of (Ref.backend []) (u "x") qe /\
                Forall2 (rescored_from (Ref.backend []) qe) initial rescored) /\
    stable_desc_sort similarity_score rescored sorted /\
    Sample.reranked = Py.slice sorted 0 2 /\
    (0 <= 2 -> Sample.reranked = take (Z.to_nat 2) sorted).
Proof.
  apply (rerank_stable_top_k (Ref.backend []) (u "x") 2 2 Sample.with_b_a
           Sample.reranked
           (snd (semantic_search_with_reranking (Ref.backend []) (u "x") 2 2
                   Sample.with_b_a))).
  vm_compute. reflexivity.
Defined.

(** What reranking returns on the sample: both chunks score [1], and the
    chunk of [b], stored first, stays first. *)
Lemma sample_reranked :
  Sample.reranked
  = [mkQueryResult (u "b_chunk_0") (u "x y") 1%float
       (chunk_meta_of ∅ (u "b") 0 1 (u "t0"));
     mkQueryResult (u "a_chunk_0") (u "x z") 1%float
       (chunk_meta_of ∅ (u "a") 0 1 (u "t1"))].
Proof. vm_compute. reflexivity. Qed.

(** C6, counterexample.  Two candidates get the same recomputed score; the
    result keeps them in the order of the first search, [b_chunk_0] before
    [a_chunk_0], which is not ascending chunk id. *)
Lemma rerank_ties_keep_search_order :
  map document_id Sample.reranked = [u "b_chunk_0"; u "a_chunk_0"] /\
  map similarity_score Sample.reranked = [1%float; 1%float] /\
  str_ltb (u "a_chunk_0") (u "b_chunk_0") = true /\
  ~ Sorted score_then_id_order Sample.reranked.
Proof.
  rewrite sample_reranked. repeat split; try reflexivity.
  intros Hs. inversion Hs as [|? ? _ Hhd]; subst.
  inversion Hhd as [|? ? Hord]; subst.
  destruct Hord as [Hlt | [_ Hid]]; vm_compute in *; discriminate.
Qed.

(** ** Further facts about [split], [strip] and [clean_text] *)

Section CleanFacts.

Lemma split_from_leading_blank p s :
  blank p -> split_from [] (p ++ s) = split_from [] s.
Proof.
  induction p as [|c p IH]; intros Hp; [reflexivity |].
  inversion Hp as [|? ? Hc Hp']; subst. simpl. rewrite Hc. by apply IH.
Qed.

Lemma split_from_blank q : forall cur,
  blank q ->
  split_from cur q = match cur with [] => [] | _ => [cur] end.
Proof.
  induction q as [|c q IH]; intros cur Hq; [reflexivity |].
  inversion Hq as [|? ? Hc Hq']; subst. simpl. rewrite Hc.
  rewrite (IH [] Hq'). by destruct cur.
Qed.

Lemma split_from_trailing_blank s q : forall cur,
  blank q -> split_from cur (s ++ q) = split_from cur s.
Proof.
  induction s as [|c s IH]; intros cur Hq; simpl.
  - by apply split_from_blank.
  - destruct (is_space c); [| by apply IH].
    rewrite (IH [] Hq). reflexivity.
Qed.

(** [strip] takes a blank prefix and a blank suffix away. *)
Lemma strip_decompose s :
  exists p q, s = p ++ strip s ++ q /\ blank p /\ blank q.
Proof.
  destruct (lstrip_suffix s) as (p & Hs & Hp).
  destruct (lstrip_suffix (rev (lstrip s))) as (q & Hr & Hq).
  exists p, (rev q). split; [| split; [assumption | by apply Forall_rev]].
  unfold strip. rewrite <- rev_app_distr, <- Hr, rev_involutive. exact Hs.
Qed.

Lemma split_strip s : split (strip s) = split s.
Proof.
  destruct (strip_decompose s) as (p & q & Hs & Hp & Hq).
  unfold split. rewrite Hs at 2.
  rewrite split_from_leading_blank by assumption.
  by rewrite split_from_trailing_blank.
Qed.

Lemma clean_text_join s : clean_text s = join (u " ") (split s).
Proof. unfold clean_text. by rewrite split_strip. Qed.

Lemma join_nil_inv ws : Forall token ws -> join (u " ") ws = [] -> ws = [].
Proof.
  intros Hws Hj. destruct ws as [|w ws]; [reflexivity |].
  pose proof (join_tokens_nonempty (w :: ws) Hws ltac:(discriminate)) as Ht.
  rewrite Hj in Ht. discriminate.
Qed.

Lemma split_nil_blank s : forall cur, split_from cur s = [] -> cur = [] /\ blank s.
Proof.
  induction s as [|c s IH]; intros cur H; simpl in H.
  - destruct cur; [by split; [| constructor] | discriminate].
  - destruct (is_space c) eqn:Hc.
    + destruct cur; [| discriminate].
      destruct (IH [] H) as [_ Hs]. split; [reflexivity | by constructor].
    + destruct (IH _ H) as [Hcur _]. by destruct cur.
Qed.

Lemma lstrip_head c s : is_space c = false -> lstrip (c :: s) = c :: s.
Proof. intros H. simpl. by rewrite H. Qed.

(** Joined tokens begin and end with a code point that is not
    whitespace. *)
Lemma join_tokens_head ws :
  Forall token ws -> ws <> [] ->
  exists c s, join (u " ") ws = c :: s /\ is_space c = false.
Proof.
  intros Hws Hne. destruct ws as [|w ws]; [contradiction |].
  inversion Hws as [|? ? [Hw Hsp] _]; subst.
  destruct w as [|c w]; [contradiction |].
  inversion Hsp as [|? ? Hc _]; subst.
  destruct ws; simpl; eauto.
Qed.

Lemma join_tokens_last ws :
  Forall token ws -> ws <> [] ->
  exists s c, join (u " ") ws = s ++ [c] /\ is_space c = false.
Proof.
  induction ws as [|w ws IH]; intros Hws Hne; [contradiction |].
  inversion Hws as [|? ? [Hw Hsp] Hws']; subst.
  destruct ws as [|w' ws].
  - simpl. destruct (exists_last Hw) as (s & c & ->).
    exists s, c. split; [reflexivity |].
    apply Forall_app in Hsp. destruct Hsp as [_ Hc]. by inversion Hc.
  - destruct (IH Hws' ltac:(discriminate)) as (s & c & Hj & Hc).
    change (join (u " ") (w :: w' :: ws))
      with (w ++ u " " ++ join (u " ") (w' :: ws)).
    rewrite Hj. exists (w ++ u " " ++ s), c.
    split; [by rewrite <- !app_assoc | assumption].
Qed.

Lemma strip_join_tokens ws :
  Forall token ws -> strip (join (u " ") ws) = join (u " ") ws.
Proof.
  intros Hws. destruct ws as [|w ws]; [reflexivity |].
  destruct (join_tokens_head _ Hws ltac:(discriminate)) as (c & s & Hj & Hc).
  destruct (join_tokens_last _ Hws ltac:(discriminate)) as (s' & c' & Hj' & Hc').
  unfold strip. rewrite Hj at 1. rewrite lstrip_head by assumption.
  rewrite <- Hj, Hj'. rewrite rev_app_distr. simpl.
  rewrite Hc'. simpl. by rewrite rev_involutive.
Qed.

End CleanFacts.

Lemma split_clean_text s : split (clean_text s) = split s.
Proof. rewrite clean_text_join. apply split_join, split_tokens. Qed.

(** X1.  [clean_text] keeps the words: the cleaned text splits into the
    same word sequence as the text, and it is these words joined by single
    spaces. *)
Theorem clean_text_preserves_words s :
  split (clean_text s) = split s /\
  clean_text s = join (u " ") (split s).
Proof.
  split; [| apply clean_text_join].
  rewrite clean_text_join. apply split_join, split_tokens.
Qed.

(** X2.  [clean_text] is idempotent, and a cleaned text has no whitespace
    left at its ends. *)
Theorem clean_text_idempotent s :
  clean_text (clean_text s) = clean_text s /\
  strip (clean_text s) = clean_text s.
Proof.
  rewrite (clean_text_join (clean_text s)), (clean_text_join s). split.
  - by rewrite split_join by apply split_tokens.
  - apply strip_join_tokens, split_tokens.
Qed.

(** ** Further facts about [chunk_text] and [process_document] *)

(** X3.  For [chunk_size > 50], [process_document] gives no chunk exactly
    when the content is blank (empty or whitespace only). *)
Theorem process_document_no_chunk_iff_blank content chunk_size :
  50 < chunk_size ->
  (process_document content chunk_size = Ok [] <-> blank content).
Proof.
  intros Hc. unfold process_document, default_overlap.
  rewrite chunk_text_forward by lia.
  rewrite (split_clean_text content).
  pose proof (range_length_forward (Z.of_nat (length (split content)))
                (chunk_size - 50) ltac:(lia) ltac:(lia)) as (Hm & Hcov & Hzero).
  split.
  - intros H. inversion H as [Hmap].
    apply (f_equal (@length str)) in Hmap.
    rewrite length_map, length_seq in Hmap. simpl in Hmap.
    assert (length (split content) = 0%nat) as Hlen by nia.
    destruct (split content) eqn:Hs; [| discriminate].
    by destruct (split_nil_blank _ _ Hs).
  - intros Hb. pose proof (split_from_blank content [] Hb) as Hs.
    fold (split content) in Hs. rewrite Hs in *. simpl in *.
    rewrite Hzero by reflexivity. reflexivity.
Qed.

Lemma process_document_no_chunk_iff_blank_witness :
  process_document (u "  ") 500 = Ok [] <-> blank (u "  ").
Proof. apply process_document_no_chunk_iff_blank. lia. Defined.

(** X4.  Cleaning does not change the chunks: [process_document] gives what
    [chunk_text] gives on the raw content with [overlap = 50]. *)
Theorem process_document_ignores_cleaning content chunk_size :
  process_document content chunk_size = chunk_text content chunk_size 50.
Proof.
  unfold process_document, default_overlap, chunk_text.
  rewrite (split_clean_text content). reflexivity.
Qed.

(** X5.  For [chunk_size > 0] and [overlap < chunk_size], every chunk of
    [chunk_text] holds at least one and at most [chunk_size] words, and is
    in cleaned form: its words joined by single spaces. *)
Theorem chunk_text_chunk_bounds text chunk_size overlap chunks :
  0 < chunk_size -> overlap < chunk_size ->
  chunk_text text chunk_size overlap = Ok chunks ->
  Forall (fun c => (1 <= length (split c))%nat /\
                   Z.of_nat (length (split c)) <= chunk_size /\
                   clean_text c = c) chunks.
Proof.
  intros Hc Ho Hrun. rewrite chunk_text_forward in Hrun by assumption.
  inversion Hrun; subst. clear Hrun.
  pose proof (range_length_forward (Z.of_nat (length (split text)))
                (chunk_size - overlap) ltac:(lia) ltac:(lia)) as (Hm & Hcov & _).
  apply Forall_forall. intros c Hin.
  apply list_elem_of_In, in_map_iff in Hin. destruct Hin as (k & <- & Hk).
  apply in_seq in Hk.
  assert (Htok : Forall token
            (take (Z.to_nat chunk_size)
               (drop (k * Z.to_nat (chunk_size - overlap)) (split text))))
    by apply Forall_take, Forall_drop, split_tokens.
  rewrite clean_text_join, split_join by assumption.
  assert (Z.of_nat k <= Py.range_length 0 (Z.of_nat (length (split text)))
                          (chunk_size - overlap) - 1) as Hk' by lia.
  assert (Z.of_nat (k * Z.to_nat (chunk_size - overlap))
          < Z.of_nat (length (split text))) as Hi by nia.
  rewrite length_take, length_drop. repeat split; lia.
Qed.

Lemma chunk_text_chunk_bounds_witness :
  Forall (fun c => (1 <= length (split c))%nat /\
                   Z.of_nat (length (split c)) <= 4 /\
                   clean_text c = c) [u "a b c"; u "c"].
Proof.
  apply (chunk_text_chunk_bounds (u "a  b c ") 4 2); [lia | lia | reflexivity].
Defined.

Lemma slice_empty {A} (l : list A) i : Py.slice l i i = [].
Proof. unfold Py.slice. by rewrite Nat.sub_diag. Qed.

Lemma chunk_loop_zero_size words idx : forall acc,
  fold_left (chunk_step words 0) idx acc = acc.
Proof.
  induction idx as [|i idx IH]; intros acc; [reflexivity |].
  simpl. rewrite IH. unfold chunk_step. by rewrite Z.add_0_r, slice_empty.
Qed.

(** X6.  [chunk_text] raises exactly when [chunk_size = overlap], whatever
    the text and however the two integers are chosen otherwise; and with
    [chunk_size = 0] and another [overlap] it returns no chunk. *)
Theorem chunk_text_raises_iff text chunk_size overlap :
  (is_ok (chunk_text text chunk_size overlap) = false <-> chunk_size = overlap) /\
  (chunk_size = 0 -> overlap <> 0 ->
   chunk_text text chunk_size overlap = Ok []).
Proof.
  split.
  - unfold chunk_text, Py.range.
    destruct (Z.eqb_spec (chunk_size - overlap) 0) as [Hz | Hz]; simpl.
    + split; [lia | reflexivity].
    + split; [discriminate | lia].
  - intros -> Ho. unfold chunk_text, Py.range.
    destruct (Z.eqb_spec (0 - overlap) 0) as [Hz | Hz]; [lia |].
    by rewrite chunk_loop_zero_size.
Qed.

(** The blank test of [chunk_text] and the emptiness test of
    [process_text_file_for_rag] agree on windows of words. *)
Lemma chunk_steps_agree words chunk_size acc i :
  Forall token words ->
  file_chunk_step words chunk_size acc i = chunk_step words chunk_size acc i.
Proof.
  intros Hws. unfold file_chunk_step, chunk_step.
  rewrite strip_join_tokens; [reflexivity |].
  unfold Py.slice. by apply Forall_take, Forall_drop.
Qed.

Lemma fold_left_ext_acc {A B} (f g : A -> B -> A) l :
  (forall a b, f a b = g a b) -> forall a, fold_left f l a = fold_left g l a.
Proof.
  intros Hfg. induction l as [|b l IH]; intros a; simpl; [reflexivity |].
  by rewrite Hfg, IH.
Qed.

(** X7.  For every [chunk_size] and [overlap], [process_text_file_for_rag]
    on a readable file returns the chunks [chunk_text] returns on the text
    of the file; where [chunk_text] raises, it returns the one-element list
    holding the message of the exception. *)
Theorem process_text_file_same_chunks text chunk_size overlap :
  process_text_file_for_rag (Ok text) chunk_size overlap
  = match chunk_text text chunk_size overlap with
    | Ok chunks => chunks
    | Raise e => [file_error_prefix ++ exn_message e]
    end.
Proof.
  unfold process_text_file_for_rag, chunk_text.
  destruct (Py.range 0 (Z.of_nat (length (split text))) (chunk_size - overlap))
    as [idx | e]; [| reflexivity].
  apply fold_left_ext_acc. intros acc i.
  apply chunk_steps_agree, split_tokens.
Qed.

(** X8.  Without overlap and with a positive [chunk_size],
    [process_text_file_for_rag] cuts the words of the file into chunks that
    put together are the words again: none is lost, none repeated. *)
Theorem process_text_file_partitions_words text chunk_size :
  0 < chunk_size ->
  concat (map split (process_text_file_for_rag (Ok text) chunk_size 0))
  = split text.
Proof.
  intros Hc.
  pose proof (process_text_file_forward text chunk_size 0 Hc ltac:(lia)) as Hfile.
  rewrite chunk_text_forward in Hfile by lia. inversion Hfile as [Hchunks].
  pose proof (range_length_forward (Z.of_nat (length (split text)))
                (chunk_size - 0) ltac:(lia) ltac:(lia)) as (Hm & Hcov & _).
  pose proof (chunking_of_windows text chunk_size 0 _ ltac:(lia) Hm Hcov)
    as [_ _ Hrec _ _ _].
  rewrite Hchunks. etransitivity; [| exact Hrec]. unfold deoverlap.
  destruct (map _ (seq 0 _)) as [|c rest]; [reflexivity |].
  simpl. reflexivity.
Qed.

Lemma process_text_file_partitions_words_witness :
  concat (map split (process_text_file_for_rag (Ok (u " a b  c d e ")) 2 0))
  = split (u " a b  c d e ").
Proof. apply process_text_file_partitions_words. lia. Defined.

(** ** Further facts about [add_document] *)

Lemma chunk_meta_of_other meta d i n t k :
  k ∉ lineage_keys -> chunk_meta_of meta d i n t !! k = meta !! k.
Proof.
  intros Hk. unfold lineage_keys in Hk.
  rewrite !not_elem_of_cons in Hk. destruct Hk as (H1 & H2 & H3 & H4 & _).
  unfold chunk_meta_of. by rewrite !lookup_insert_ne by congruence.
Qed.

Lemma metas_of_Forall (P : metadata -> Prop) meta d n stamps :
  (forall i t, P (chunk_meta_of meta d i n t)) ->
  forall i, Forall P (metas_of meta d n i stamps).
Proof.
  intros HP. unfold metas_of.
  induction stamps as [|t stamps IH]; intros i; simpl; constructor;
    [apply HP | apply IH].
Qed.

Lemma length_py_zip_min {X Y} (xs : list X) : forall (ys : list Y),
  length (py_zip xs ys) = Nat.min (length xs) (length ys).
Proof.
  induction xs as [|x xs IH]; intros [|y ys]; simpl; try reflexivity.
  by rewrite IH.
Qed.

Lemma py_zip_fst_prefix {X Y} (xs : list X) : forall (ys : list Y),
  map fst (py_zip xs ys) = take (length ys) xs.
Proof.
  induction xs as [|x xs IH]; intros [|y ys]; simpl; try reflexivity.
  by rewrite IH.
Qed.

(** X9.  The metadata stored with a chunk is the caller's metadata with the
    four lineage keys set on top: under every other key it holds what the
    caller gave, and [timestamp] holds a string; the documents stored are
    the leading chunks of the content, in order. *)
Theorem add_document_keeps_user_metadata {S} (B : Backend S) content doc_id
    meta chunk_size w ids w' :
  add_document B content doc_id meta chunk_size w = (Ok ids, w') ->
  exists chunks docs embs metas,
    process_document content chunk_size = Ok chunks /\
    calls w' = calls w ++ [CallEncode chunks; CallAdd ids docs embs metas] /\
    docs = take (length ids) chunks /\
    Forall (fun m =>
              (forall k, k ∉ lineage_keys -> m !! k = meta_or_empty meta !! k) /\
              exists t, m !! k_timestamp = Some (VStr t)) metas.
Proof.
  intros Hrun. apply add_document_inv in Hrun.
  destruct (process_document content chunk_size) as [chunks | e];
    [| by destruct Hrun].
  destruct (model_encode B chunks (env (after_id B doc_id w)))
    as [[embs | e] s1]; [| by destruct Hrun].
  destruct Hrun as (stamps & s2 & Hlen & -> & Hr).
  unfold batch_of in *. cbn [chunk_ids chunk_documents chunk_embeddings
    chunk_metadata] in *.
  assert (ids = map (chunk_id_of (resolved_id B doc_id w))
                  (seq 0 (length (py_zip chunks embs)))) as ->.
  { destruct (fst (collection_add B _ _ _ _ s2)); by inversion Hr. }
  eexists chunks, _, _, _. split; [reflexivity |]. split; [reflexivity |].
  split.
  - rewrite length_map, length_seq, length_py_zip_min, py_zip_fst_prefix.
    destruct (Nat.min_spec (length chunks) (length embs)) as [[Hlt ->] | [Hle ->]];
      [| reflexivity].
    rewrite !take_ge; [reflexivity | lia | lia].
  - apply metas_of_Forall. intros i t. split.
    + intros k Hk. by apply chunk_meta_of_other.
    + exists t. unfold chunk_meta_of. by rewrite lookup_insert_eq.
Qed.

Lemma add_document_keeps_user_metadata_witness :
  exists chunks docs embs metas,
    process_document (u "alpha beta gamma delta") 52 = Ok chunks /\
    calls Sample.with_d1
      = calls Ref.start
          ++ [CallEncode chunks;
              CallAdd [u "d1_chunk_0"; u "d1_chunk_1"] docs embs metas] /\
    docs = take (length [u "d1_chunk_0"; u "d1_chunk_1"]) chunks /\
    Forall (fun m =>
              (forall k, k ∉ lineage_keys ->
                         m !! k = meta_or_empty (Some ∅) !! k) /\
              exists t, m !! k_timestamp = Some (VStr t)) metas.
Proof.
  apply (add_document_keeps_user_metadata (Ref.backend [])
           (u "alpha beta gamma delta") (Some (u "d1")) (Some ∅) 52 Ref.start).
  vm_compute. reflexivity.
Defined.

(** X10.  When the embedding model raises, [add_document] raises the same
    exception and the collection is not called: the only call made is the
    one to the model. *)
Theorem add_document_model_failure {S} (B : Backend S) content doc_id meta
    chunk_size w chunks e s1 :
  process_document content chunk_size = Ok chunks ->
  model_encode B chunks (env (after_id B doc_id w)) = (Raise e, s1) ->
  add_document B content doc_id meta chunk_size w
  = (Raise e, mkWorld s1 (calls w ++ [CallEncode chunks])).
Proof.
  intros Hchunks Henc.
  destruct (add_document B content doc_id meta chunk_size w) as [r w'] eqn:Hrun.
  apply add_document_inv in Hrun. rewrite Hchunks, Henc in Hrun.
  by destruct Hrun as [-> ->].
Qed.

Lemma add_document_model_failure_witness :
  add_document (Ref.backend [u "bad"]) (u "bad") (Some (u "d2")) None 500
    Ref.start
  = (Raise (BackendError (u "model unavailable")),
     mkWorld Ref.init (calls Ref.start ++ [CallEncode [u "bad"]])).
Proof.
  apply (add_document_model_failure (Ref.backend [u "bad"]) (u "bad")
           (Some (u "d2")) None 500 Ref.start [u "bad"]); reflexivity.
Defined.

(** X11.  [add_document] stores as many chunks as the shorter of the chunk
    list and the list of vectors the model gave: with fewer vectors than
    chunks the trailing chunks are silently left out, while [chunk_count]
    still says the number of chunks. *)
Theorem add_document_stores_shorter {S} (B : Backend S) content doc_id meta
    chunk_size w ids w' :
  add_document B content doc_id meta chunk_size w = (Ok ids, w') ->
  exists chunks embs s1 docs vecs metas,
    process_document content chunk_size = Ok chunks /\
    model_encode B chunks (env (after_id B doc_id w)) = (Ok embs, s1) /\
    length ids = Nat.min (length chunks) (length embs) /\
    calls w' = calls w ++ [CallEncode chunks; CallAdd ids docs vecs metas] /\
    length metas = length ids /\
    Forall (fun m => m !! k_chunk_count = Some (VInt (Z.of_nat (length chunks))))
      metas.
Proof.
  intros Hrun. apply add_document_inv in Hrun.
  destruct (process_document content chunk_size) as [chunks | e];
    [| by destruct Hrun].
  destruct (model_encode B chunks (env (after_id B doc_id w)))
    as [[embs | e] s1] eqn:Henc; [| by destruct Hrun].
  destruct Hrun as (stamps & s2 & Hlen & -> & Hr).
  unfold batch_of in *. cbn [chunk_ids chunk_documents chunk_embeddings
    chunk_metadata] in *.
  assert (ids = map (chunk_id_of (resolved_id B doc_id w))
                  (seq 0 (length (py_zip chunks embs)))) as ->.
  { destruct (fst (collection_add B _ _ _ _ s2)); by inversion Hr. }
  eexists chunks, embs, s1, _, _, _.
  split; [reflexivity |]. split; [exact Henc |].
  split; [by rewrite length_map, length_seq, length_py_zip_min |].
  split; [reflexivity |].
  split; [by rewrite length_metas_of, length_map, length_seq |].
  apply metas_of_Forall. intros i t.
  by destruct (chunk_meta_of_lineage (meta_or_empty meta)
                 (resolved_id B doc_id w) i (length chunks) t) as (_ & _ & Hn).
Qed.

Lemma add_document_stores_shorter_witness :
  exists chunks embs s1 docs vecs metas,
    process_document (u "alpha beta gamma delta") 52 = Ok chunks /\
    model_encode lossy_backend chunks
      (env (after_id lossy_backend (Some (u "d1")) Ref.start)) = (Ok embs, s1) /\
    length [u "d1_chunk_0"] = Nat.min (length chunks) (length embs) /\
    calls (snd (add_document lossy_backend (u "alpha beta gamma delta")
                  (Some (u "d1")) None 52 Ref.start))
      = calls Ref.start
          ++ [CallEncode chunks; CallAdd [u "d1_chunk_0"] docs vecs metas] /\
    length metas = length [u "d1_chunk_0"] /\
    Forall (fun m => m !! k_chunk_count = Some (VInt (Z.of_nat (length chunks))))
      metas.
Proof.
  apply (add_document_stores_shorter lossy_backend (u "alpha beta gamma delta")
           (Some (u "d1")) None 52 Ref.start [u "d1_chunk_0"]).
  vm_compute. reflexivity.
Defined.

(** With the lossy model, two chunks are cut but one record is stored,
    whose [chunk_count] is [2]. *)
Example lossy_ingestion :
  process_document (u "alpha beta gamma delta") 52
    = Ok [u "alpha beta gamma delta"; u "gamma delta"] /\
  map (fun r => (rec_id r, rec_metadata r !! k_chunk_count))
    (Ref.records
       (env (snd (add_document lossy_backend (u "alpha beta gamma delta")
                    (Some (u "d1")) None 52 Ref.start))))
    = [(u "d1_chunk_0", Some (VInt 2))].
Proof. split; vm_compute; reflexivity. Qed.

(** ** Chunk ids *)

Section ChunkIdFacts.

(** A literal of ASCII characters decodes character by character. *)
Lemma utf8_go_ascii s :
  Forall (fun a => (N_of_ascii a < 128)%N) (list_ascii_of_string s) ->
  u s = map N_of_ascii (list_ascii_of_string s).
Proof.
  unfold u. induction s as [|a s IH]; intros Hs; [reflexivity |].
  simpl in Hs. inversion Hs as [|? ? Ha Hs']; subst. simpl.
  apply N.ltb_lt in Ha. rewrite Ha. f_equal. by apply IH.
Qed.

Lemma pretty_N_char_digit x : digit_char (pretty_N_char x).
Proof.
  unfold digit_char, pretty_N_char. repeat case_match; vm_compute;
    split; discriminate.
Qed.

Lemma pretty_N_go_digits x : forall s,
  Forall digit_char (list_ascii_of_string s) ->
  Forall digit_char (list_ascii_of_string (pretty_N_go x s)).
Proof.
  induction (N.lt_wf_0 x) as [x _ IH]. intros s Hs.
  destruct (decide (0 < x)%N) as [Hx | Hx].
  - rewrite pretty_N_go_step by assumption. apply IH.
    + apply N.div_lt; [assumption | reflexivity].
    + simpl. constructor; [apply pretty_N_char_digit | assumption].
  - assert (x = 0%N) as -> by lia. by rewrite pretty_N_go_0.
Qed.

Lemma pretty_nat_digits (i : nat) :
  Forall digit_char (list_ascii_of_string (pretty (Z.of_nat i))).
Proof.
  destruct (Z.of_nat i) as [|p|p] eqn:Hi; [| | lia].
  - change (pretty 0) with "0"%string. simpl.
    constructor; [vm_compute; split; discriminate | constructor].
  - change (pretty (Z.pos p)) with (pretty_N_go (N.pos p) "").
    apply pretty_N_go_digits. constructor.
Qed.

Lemma str_of_nat_map (i : nat) :
  str_of_int (Z.of_nat i)
  = map N_of_ascii (list_ascii_of_string (pretty (Z.of_nat i))).
Proof.
  unfold str_of_int. apply utf8_go_ascii.
  eapply Forall_impl; [apply pretty_nat_digits |].
  unfold digit_char. intros a Ha. simpl in Ha. lia.
Qed.

Lemma str_of_nat_digits (i : nat) : Forall is_digit (str_of_int (Z.of_nat i)).
Proof.
  rewrite str_of_nat_map. apply Forall_map.
  eapply Forall_impl; [apply pretty_nat_digits |]. by intros a Ha.
Qed.

Lemma str_of_nat_inj (i j : nat) :
  str_of_int (Z.of_nat i) = str_of_int (Z.of_nat j) -> i = j.
Proof.
  rewrite !str_of_nat_map. intros H.
  assert (Hinj : forall la lb : list ascii,
             map N_of_ascii la = map N_of_ascii lb -> la = lb).
  { induction la as [|a la IH]; intros [|b lb] Hm; try discriminate;
      [reflexivity |].
    inversion Hm as [[Ha Hl]]. f_equal; [| by apply IH].
    rewrite <- (ascii_N_embedding a), <- (ascii_N_embedding b). by rewrite Ha. }
  apply Hinj in H.
  apply (f_equal string_of_list_ascii) in H.
  rewrite !string_of_list_ascii_of_string in H.
  apply (inj pretty) in H. lia.
Qed.

(** Two lists cut at the first occurrence of a mark agree on both
    sides of it. *)
Lemma cut_at_first {A} (x : A) a : forall b r1 r2,
  x ∉ a -> x ∉ b -> a ++ x :: r1 = b ++ x :: r2 -> a = b /\ r1 = r2.
Proof.
  induction a as [|y a IH]; intros [|z b] r1 r2 Ha Hb H; simpl in H.
  - by inversion H.
  - inversion H; subst. exfalso. apply Hb. by left.
  - inversion H; subst. exfalso. apply Ha. by left.
  - inversion H; subst.
    destruct (IH b r1 r2) as [-> ->]; try assumption; [| | done].
    + intros Hin. apply Ha. by right.
    + intros Hin. apply Hb. by right.
Qed.

Lemma chunk_id_of_inj d1 i d2 j :
  chunk_id_of d1 i = chunk_id_of d2 j -> d1 = d2 /\ i = j.
Proof.
  unfold chunk_id_of. intros H.
  apply (f_equal (@rev char)) in H. rewrite !rev_app_distr in H.
  change (rev (u "_chunk_")) with (95%N :: rev (u "_chunk")) in H.
  rewrite <- !app_assoc in H. cbn [app] in H.
  assert (Hno : forall k : nat, 95%N ∉ rev (str_of_int (Z.of_nat k))).
  { intros k Hin. apply list_elem_of_In, in_rev, list_elem_of_In in Hin.
    pose proof (str_of_nat_digits k) as Hd. rewrite Forall_forall in Hd.
    apply Hd in Hin. unfold is_digit in Hin. lia. }
  apply cut_at_first in H; [| apply Hno | apply Hno].
  destruct H as [Hd Hr].
  apply (f_equal (@rev char)) in Hd. rewrite !rev_involutive in Hd.
  apply str_of_nat_inj in Hd. split; [| assumption].
  apply app_inv_head in Hr.
  apply (f_equal (@rev char)) in Hr. by rewrite !rev_involutive in Hr.
Qed.

End ChunkIdFacts.

(** X12.  The ids [add_document] returns are pairwise distinct, and none
    of them is the chunk id of another document: an id of the form
    [d + "_chunk_" + str(j)] is among them only for [d] the document's id
    and [j] below their number. *)
Theorem add_document_ids_distinct {S} (B : Backend S) content doc_id meta
    chunk_size w ids w' :
  add_document B content doc_id meta chunk_size w = (Ok ids, w') ->
  NoDup ids /\
  forall d j, In (chunk_id_of d j) ids ->
              d = resolved_id B doc_id w /\ (j < length ids)%nat.
Proof.
  intros Hrun. apply add_document_inv in Hrun.
  destruct (process_document content chunk_size) as [chunks | e];
    [| by destruct Hrun].
  destruct (model_encode B chunks (env (after_id B doc_id w)))
    as [[embs | e] s1]; [| by destruct Hrun].
  destruct Hrun as (stamps & s2 & Hlen & -> & Hr).
  unfold batch_of in *. cbn [chunk_ids chunk_documents chunk_embeddings
    chunk_metadata] in *.
  assert (ids = map (chunk_id_of (resolved_id B doc_id w))
                  (seq 0 (length (py_zip chunks embs)))) as ->.
  { destruct (fst (collection_add B _ _ _ _ s2)); by inversion Hr. }
  split.
  - assert (Hinj : Inj (=) (=) (chunk_id_of (resolved_id B doc_id w))).
    { intros i j Hij. apply chunk_id_of_inj in Hij. by destruct Hij. }
    apply (NoDup_fmap_2 (chunk_id_of (resolved_id B doc_id w))), NoDup_seq.
  - intros d j Hin. apply in_map_iff in Hin. destruct Hin as (k & Hk & Hseq).
    apply chunk_id_of_inj in Hk. destruct Hk as [-> ->].
    apply in_seq in Hseq. rewrite length_map, length_seq.
    split; [reflexivity | lia].
Qed.

Lemma add_document_ids_distinct_witness :
  NoDup [u "d1_chunk_0"; u "d1_chunk_1"] /\
  forall d j, In (chunk_id_of d j) [u "d1_chunk_0"; u "d1_chunk_1"] ->
              d = resolved_id (Ref.backend []) (Some (u "d1")) Ref.start /\
              (j < length [u "d1_chunk_0"; u "d1_chunk_1"])%nat.
Proof.
  apply (add_document_ids_distinct (Ref.backend []) (u "alpha beta gamma delta")
           (Some (u "d1")) None 52 Ref.start [u "d1_chunk_0"; u "d1_chunk_1"]
           Sample.with_d1).
  vm_compute. reflexivity.
Defined.

(** ** Further facts about [add_documents_batch] *)

(** X13.  The batch size does not matter: with any two positive batch
    sizes [add_documents_batch] makes the same calls, leaves the same state
    and gives the same result. *)
Theorem add_documents_batch_size_irrelevant {S} (B : Backend S) docs
    chunk_size b1 b2 w :
  0 < b1 -> 0 < b2 ->
  add_documents_batch B docs chunk_size b1 w
  = add_documents_batch B docs chunk_size b2 w.
Proof.
  intros H1 H2. by rewrite !add_documents_batch_sequential by assumption.
Qed.

Lemma add_documents_batch_size_irrelevant_witness :
  add_documents_batch (Ref.backend []) [Sample.d1; Sample.d3] 500 1 Ref.start
  = add_documents_batch (Ref.backend []) [Sample.d1; Sample.d3] 500 100 Ref.start.
Proof. apply add_documents_batch_size_irrelevant; lia. Defined.

(** X14.  With [batch_size = 0], [add_documents_batch] raises the
    [ValueError] of [range], even for an empty document list; with a
    negative [batch_size] it returns the empty list and ingests nothing.
    In both cases no call is made and the state is unchanged. *)
Theorem add_documents_batch_bad_size {S} (B : Backend S) docs chunk_size
    batch_size w :
  (batch_size = 0 ->
   add_documents_batch B docs chunk_size batch_size w
   = (Raise (ValueError (u "range() arg 3 must not be zero")), w)) /\
  (batch_size < 0 ->
   add_documents_batch B docs chunk_size batch_size w = (Ok [], w)).
Proof.
  split.
  - intros ->. reflexivity.
  - intros Hneg. unfold add_documents_batch, bind, lift.
    by rewrite range_backward by lia.
Qed.

(** With a negative batch size the three sample documents are dropped
    without notice. *)
Example add_documents_batch_negative_size :
  add_documents_batch (Ref.backend []) [Sample.d1; Sample.bad; Sample.d3]
    500 (-1) Ref.start
  = (Ok [], Ref.start).
Proof. reflexivity. Qed.

Section BatchIds.

Context {S : Type} (B : Backend S).
Hypothesis model_ok : encode_one_per_text B.

(** What a returning [add_document] returns, and how many calls it
    makes. *)
Lemma add_document_ok_ids content d meta chunk_size w ids w' :
  add_document B content (Some d) meta chunk_size w = (Ok ids, w') ->
  exists chunks,
    process_document content chunk_size = Ok chunks /\
    ids = map (chunk_id_of d) (seq 0 (length chunks)) /\
    length (calls w') = (length (calls w) + 2)%nat.
Proof.
  intros Hrun. apply add_document_inv in Hrun.
  destruct (process_document content chunk_size) as [chunks | e];
    [| by destruct Hrun].
  destruct (model_encode B chunks (env (after_id B (Some d) w)))
    as [[embs | e] s1] eqn:Henc; [| by destruct Hrun].
  destruct Hrun as (stamps & s2 & Hlen & -> & Hr).
  apply model_ok in Henc.
  destruct (length_py_zip chunks embs) as (Hz & _ & _); [by rewrite Henc |].
  unfold batch_of in *. cbn [chunk_ids chunk_documents chunk_embeddings
    chunk_metadata resolved_id] in *. rewrite Hz in *.
  exists chunks. split; [reflexivity |]. split.
  - destruct (fst (collection_add B _ _ _ _ s2)); by inversion Hr.
  - cbn [calls]. rewrite length_app. simpl. lia.
Qed.

Lemma for_each_batch_step_ids chunk_size docs : forall acc w ids w',
  for_each docs (batch_step B chunk_size) acc w = (Ok ids, w') ->
  ids = acc ++ concat (map (expected_ids chunk_size) docs) /\
  Forall (fun d => is_ok (process_document (doc_content d) chunk_size) = true)
    docs /\
  length (calls w') = (length (calls w) + 2 * length docs)%nat.
Proof.
  induction docs as [|d docs IH]; intros acc w ids w' Hrun.
  - inversion Hrun; subst. rewrite app_nil_r. repeat split; [constructor | simpl; lia].
  - cbn [for_each] in Hrun. unfold bind at 1 in Hrun.
    rewrite batch_step_run in Hrun.
    destruct (add_document B _ _ _ chunk_size w) as [[ids0 | e] w1] eqn:Hadd;
      [| discriminate].
    apply add_document_ok_ids in Hadd.
    destruct Hadd as (chunks & Hchunks & -> & Hcalls).
    apply IH in Hrun. destruct Hrun as (-> & Hall & Hcalls').
    split; [| split].
    + simpl. unfold expected_ids at 2. rewrite Hchunks.
      by rewrite <- app_assoc.
    + constructor; [by rewrite Hchunks | assumption].
    + simpl length. lia.
Qed.

End BatchIds.

Lemma expected_ids_distinct chunk_size docs :
  NoDup (map doc_id docs) ->
  NoDup (concat (map (expected_ids chunk_size) docs)).
Proof.
  assert (Hin : forall d x, In x (expected_ids chunk_size d) ->
                  exists i, x = chunk_id_of (doc_id d) i).
  { intros d x. unfold expected_ids.
    destruct (process_document _ _); [| contradiction].
    intros Hx. apply in_map_iff in Hx. destruct Hx as (i & <- & _). eauto. }
  induction docs as [|d docs IH]; intros Hnd; simpl; [constructor |].
  inversion Hnd as [|? ? Hnotin Hnd']; subst.
  apply NoDup_app. split; [| split; [| by apply IH]].
  - unfold expected_ids. destruct (process_document _ _); [| constructor].
    assert (Hinj : Inj (=) (=) (chunk_id_of (doc_id d))).
    { intros i j Hij. apply chunk_id_of_inj in Hij. by destruct Hij. }
    apply (NoDup_fmap_2 (chunk_id_of (doc_id d))), NoDup_seq.
  - intros x Hx Hx'. apply list_elem_of_In in Hx, Hx'.
    apply Hin in Hx. destruct Hx as (i & ->).
    apply in_concat in Hx'. destruct Hx' as (l & Hl & Hxl).
    apply in_map_iff in Hl. destruct Hl as (d' & <- & Hd').
    apply Hin in Hxl. destruct Hxl as (j & Hij).
    apply chunk_id_of_inj in Hij. destruct Hij as [Hd _].
    apply Hnotin. rewrite Hd. apply list_elem_of_In, in_map, Hd'.
Qed.

(** X15.  When the model gives one vector per text and
    [add_documents_batch] returns with a positive [batch_size], every
    document was chunked without error, two calls were made per document,
    and the result is, document after document, one id per chunk:
    [doc.id + "_chunk_" + str(i)] for [i] below the document's number of
    chunks.  These ids are pairwise distinct when the document ids are. *)
Theorem add_documents_batch_ids {S} (B : Backend S) docs chunk_size
    batch_size w ids w' :
  encode_one_per_text B ->
  0 < batch_size ->
  add_documents_batch B docs chunk_size batch_size w = (Ok ids, w') ->
  ids = concat (map (expected_ids chunk_size) docs) /\
  Forall (fun d => is_ok (process_document (doc_content d) chunk_size) = true)
    docs /\
  length (calls w') = (length (calls w) + 2 * length docs)%nat /\
  (NoDup (map doc_id docs) -> NoDup ids).
Proof.
  intros Hmodel Hb Hrun.
  rewrite add_documents_batch_sequential in Hrun by assumption.
  apply (for_each_batch_step_ids B Hmodel) in Hrun.
  destruct Hrun as (-> & Hall & Hcalls). simpl.
  repeat split; try assumption. apply expected_ids_distinct.
Qed.

Lemma add_documents_batch_ids_witness :
  [u "b_chunk_0"; u "a_chunk_0"]
    = concat (map (expected_ids 500) [Sample.doc_b; Sample.doc_a]) /\
  Forall (fun d => is_ok (process_document (doc_content d) 500) = true)
    [Sample.doc_b; Sample.doc_a] /\
  length (calls Sample.with_b_a)
    = (length (calls Ref.start) + 2 * length [Sample.doc_b; Sample.doc_a])%nat /\
  (NoDup (map doc_id [Sample.doc_b; Sample.doc_a]) ->
   NoDup [u "b_chunk_0"; u "a_chunk_0"]).
Proof.
  apply (add_documents_batch_ids (Ref.backend []) [Sample.doc_b; Sample.doc_a]
           500 100 Ref.start).
  - apply ref_encode_one_per_text.
  - lia.
  - vm_compute. reflexivity.
Defined.

(** ** Further facts about [delete_document] and [update_document] *)

Section StoreFacts.

Context {S : Type} (B : Backend S) (contents : S -> list stored).
Hypothesis store_ok : store_contract B contents.
Hypothesis store_up : store_available B.

(** What [delete_document] returns and leaves, over a collection that
    honours its contract and answers. *)
Lemma delete_document_contents d w :
  fst (delete_document B d w)
    = Ok (existsb (fun r => has_parent d (rec_metadata r)) (contents (env w))) /\
  contents (env (snd (delete_document B d w)))
    = List.filter (fun r => negb (bool_decide (rec_id r ∈ matching_ids d (contents (env w)))))
        (contents (env w)).
Proof.
  destruct store_ok as [Hget Hdel]. destruct store_up as [Hgok Hdok].
  rewrite delete_document_run. cbn zeta.
  specialize (Hgok {[ k_parent_doc_id := VStr d ]} (env w)).
  destruct (collection_get B _ (env w)) as [[ids | e] s1] eqn:Hg;
    [| discriminate].
  apply Hget in Hg. destruct Hg as [Hsame ->]. unfold matching_ids.
  destruct (List.filter (fun r => has_parent d (rec_metadata r))
              (contents (env w))) as [|r0 matching] eqn:Hf; simpl.
  - destruct (filter_nil_none _ _ Hf) as [Hex Hall].
    rewrite Hex. split; [reflexivity |]. rewrite Hsame.
    symmetry. apply forallb_filter_id, forallb_forall.
    intros r _. reflexivity.
  - specialize (Hdok (rec_id r0 :: map rec_id matching) s1).
    destruct (collection_delete B _ s1) as [[[] | e] s2] eqn:Hd;
      [| discriminate].
    apply Hdel in Hd. simpl.
    rewrite (filter_cons_some _ _ _ _ Hf). split; [reflexivity |].
    by rewrite Hd, Hsame.
Qed.

Lemma ids_of_member d s r :
  In r (contents s) -> has_parent d (rec_metadata r) = true ->
  rec_id r ∈ matching_ids d (contents s).
Proof.
  intros Hin Hp. unfold matching_ids. apply list_elem_of_In, in_map, filter_In.
  by split.
Qed.

Lemma delete_document_none_left d w :
  List.filter (fun r => has_parent d (rec_metadata r))
    (contents (env (snd (delete_document B d w)))) = [].
Proof.
  destruct (delete_document_contents d w) as [_ ->].
  destruct (List.filter _ (List.filter _ _)) as [|r l] eqn:Hf; [reflexivity |].
  assert (In r (r :: l)) as Hin by (by left).
  rewrite <- Hf in Hin. apply filter_In in Hin. destruct Hin as [Hin Hp].
  apply filter_In in Hin. destruct Hin as [Hin Hnot].
  apply negb_true_iff, bool_decide_eq_false in Hnot.
  exfalso. apply Hnot. by apply ids_of_member.
Qed.

End StoreFacts.

Lemma NoDup_map_eq {A B} (f : A -> B) (l : list A) x y :
  NoDup (map f l) -> In x l -> In y l -> f x = f y -> x = y.
Proof.
  induction l as [|a l IH]; intros Hnd Hx Hy Hf; [destruct Hx |].
  inversion Hnd as [|? ? Hnot Hnd']; subst.
  destruct Hx as [-> | Hx], Hy as [-> | Hy]; try reflexivity.
  - exfalso. apply Hnot. rewrite Hf. apply list_elem_of_In, in_map, Hy.
  - exfalso. apply Hnot. rewrite <- Hf. apply list_elem_of_In, in_map, Hx.
  - by apply IH.
Qed.

(** X16.  Deleting twice: over a collection that honours its contract and
    answers, a second [delete_document] for the same document returns
    [False] and leaves the stored records as the first one left them. *)
Theorem delete_document_twice {S} (B : Backend S) (contents : S -> list stored)
    d w :
  store_contract B contents ->
  store_available B ->
  fst (delete_document B d (snd (delete_document B d w))) = Ok false /\
  contents (env (snd (delete_document B d (snd (delete_document B d w)))))
    = contents (env (snd (delete_document B d w))).
Proof.
  intros Hc Ha.
  pose proof (delete_document_none_left B contents Hc Ha d w) as Hnone.
  destruct (delete_document_contents B contents Hc Ha d
              (snd (delete_document B d w))) as [-> ->].
  destruct (filter_nil_none _ _ Hnone) as [-> _]. split; [reflexivity |].
  unfold matching_ids. rewrite Hnone. simpl.
  apply forallb_filter_id, forallb_forall.
  intros r _. reflexivity.
Qed.

Lemma delete_document_twice_witness :
  fst (delete_document (Ref.backend []) (u "d1")
         (snd (delete_document (Ref.backend []) (u "d1") Sample.with_d1)))
    = Ok false /\
  Ref.records
    (env (snd (delete_document (Ref.backend []) (u "d1")
                 (snd (delete_document (Ref.backend []) (u "d1") Sample.with_d1)))))
    = Ref.records
        (env (snd (delete_document (Ref.backend []) (u "d1") Sample.with_d1))).
Proof.
  apply (delete_document_twice (Ref.backend []) Ref.records).
  - apply ref_store_contract.
  - apply ref_store_available.
Defined.

(** X17.  [delete_document] touches no other document: when the stored
    records have pairwise distinct ids, the records left are, in their
    order, exactly those whose [parent_doc_id] is not the deleted
    document's. *)
Theorem delete_document_keeps_others {S} (B : Backend S)
    (contents : S -> list stored) d w :
  store_contract B contents ->
  store_available B ->
  NoDup (map rec_id (contents (env w))) ->
  contents (env (snd (delete_document B d w)))
    = List.filter (fun r => negb (has_parent d (rec_metadata r)))
        (contents (env w)).
Proof.
  intros Hc Ha Hnd.
  destruct (delete_document_contents B contents Hc Ha d w) as [_ ->].
  apply filter_ext_in. intros r Hr. f_equal.
  destruct (has_parent d (rec_metadata r)) eqn:Hp.
  - apply bool_decide_eq_true. apply list_elem_of_In, in_map, filter_In.
    by split.
  - apply bool_decide_eq_false. intros Hin.
    apply list_elem_of_In, in_map_iff in Hin. destruct Hin as (r' & Hid & Hr').
    apply filter_In in Hr'. destruct Hr' as [Hr' Hp'].
    assert (r' = r) as -> by (by apply (NoDup_map_eq rec_id (contents (env w)))).
    congruence.
Qed.

Lemma delete_document_keeps_others_witness :
  Ref.records
    (env (snd (delete_document (Ref.backend []) (u "b") Sample.with_b_a)))
    = List.filter (fun r => negb (has_parent (u "b") (rec_metadata r)))
        (Ref.records (env Sample.with_b_a)).
Proof.
  apply (delete_document_keeps_others (Ref.backend []) Ref.records).
  - apply ref_store_contract.
  - apply ref_store_available.
  - vm_compute. repeat constructor; intros H; inversion H; subst;
      try discriminate; match goal with H' : _ ∈ [] |- _ => inversion H' end.
Defined.

(** In the sample with the documents [b] and [a], deleting [b] leaves the
    chunk of [a]. *)
Example delete_b_keeps_a :
  map rec_id
    (Ref.records
       (env (snd (delete_document (Ref.backend []) (u "b") Sample.with_b_a))))
    = [u "a_chunk_0"].
Proof. vm_compute. reflexivity. Qed.

(** ** How ingestion changes the stored records *)

Lemma zip4_same_length ids : forall docs embs metas,
  length docs = length ids -> length embs = length ids ->
  length metas = length ids ->
  map rec_id (records_of_batch ids docs embs metas) = ids /\
  map rec_document (records_of_batch ids docs embs metas) = docs /\
  map rec_metadata (records_of_batch ids docs embs metas) = metas.
Proof.
  unfold records_of_batch.
  induction ids as [|i ids IH]; intros [|d docs] [|e embs] [|m metas] H1 H2 H3;
    simpl in *; try discriminate; [done |].
  destruct (IH docs embs metas) as (Hi & Hd & Hm); try lia.
  by rewrite Hi, Hd, Hm.
Qed.

Section IngestFacts.

Context {S : Type} (B : Backend S) (contents : S -> list stored).
Hypothesis ingest_ok : ingest_contract B contents.

Lemma add_document_loop_keeps d meta n pairs : forall i b w b' w',
  for_each (enumerate_from i pairs) (add_document_step B d meta n) b w
    = (Ok b', w') ->
  contents (env w') = contents (env w).
Proof.
  induction pairs as [|[chunk emb] pairs IH]; intros i b w b' w' Hrun.
  - by inversion Hrun.
  - cbn [for_each enumerate_from] in Hrun. unfold bind at 1 in Hrun.
    rewrite add_document_step_run in Hrun. apply IH in Hrun.
    rewrite Hrun. simpl. apply (now_keeps B contents ingest_ok).
Qed.

(** A returning [add_document] appends the records of its batch to the
    stored ones. *)
Lemma add_document_contents content doc_id meta chunk_size w ids w' :
  add_document B content doc_id meta chunk_size w = (Ok ids, w') ->
  exists chunks embs s1 stamps,
    process_document content chunk_size = Ok chunks /\
    model_encode B chunks (env (after_id B doc_id w)) = (Ok embs, s1) /\
    length stamps = length (py_zip chunks embs) /\
    ids = chunk_ids (batch_of (resolved_id B doc_id w) (meta_or_empty meta)
                       chunks embs stamps) /\
    contents (env w')
      = contents (env w)
          ++ records_of_batch ids
               (map fst (py_zip chunks embs)) (map snd (py_zip chunks embs))
               (metas_of (meta_or_empty meta) (resolved_id B doc_id w)
                  (length chunks) 0 stamps).
Proof.
  unfold add_document. intros Hrun.
  assert (Hid :
    (match doc_id with None => fresh_uuid B | Some d => ret d end) w
    = (Ok (resolved_id B doc_id w), after_id B doc_id w)).
  { destruct doc_id; simpl; [reflexivity |].
    unfold fresh_uuid. by destruct (uuid4 B (env w)). }
  assert (Hcalls0 : calls (after_id B doc_id w) = calls w)
    by (by destruct doc_id).
  assert (Hcont0 : contents (env (after_id B doc_id w)) = contents (env w)).
  { destruct doc_id; [reflexivity |]. apply (uuid_keeps B contents ingest_ok). }
  unfold bind at 1 in Hrun. rewrite Hid in Hrun.
  unfold bind at 1 in Hrun. unfold lift at 1 in Hrun.
  destruct (process_document content chunk_size) as [chunks | e];
    [| discriminate].
  unfold bind at 1 in Hrun. unfold encode in Hrun.
  rewrite record_call_run in Hrun. rewrite Hcalls0 in Hrun.
  pose proof (encode_keeps B contents ingest_ok chunks
                (env (after_id B doc_id w))) as Hcont1.
  destruct (model_encode B chunks (env (after_id B doc_id w)))
    as [[embs | e] s1] eqn:Henc; [| discriminate].
  simpl fst in Hrun. simpl snd in Hrun, Hcont1. cbv iota beta in Hrun.
  unfold bind at 1 in Hrun.
  destruct (add_document_loop B (resolved_id B doc_id w)
              (match meta with None => ∅ | Some m => m end)
              (length chunks) (py_zip chunks embs) 0 empty_batch
              (mkWorld s1 (calls w ++ [CallEncode chunks])))
    as (stamps & w2 & Hloop & Hcalls2 & Hlen).
  pose proof (add_document_loop_keeps _ _ _ _ _ _ _ _ _ Hloop) as Hcont2.
  rewrite Hloop in Hrun. simpl app in Hrun.
  unfold bind at 1 in Hrun. unfold coll_add in Hrun.
  rewrite record_call_run in Hrun. cbn [chunk_ids chunk_documents
    chunk_embeddings chunk_metadata] in Hrun.
  exists chunks, embs, s1, stamps.
  split; [reflexivity |]. split; [exact Henc |]. split; [exact Hlen |].
  unfold batch_of, meta_or_empty. cbn [chunk_ids].
  match type of Hrun with
  | context [collection_add B ?a ?b ?c ?d ?s] =>
      destruct (collection_add B a b c d s) as [[[] | e] s3] eqn:Hadd
  end; simpl in Hrun; [| discriminate].
  inversion Hrun; subst. split; [reflexivity |]. cbn [env].
  apply (add_appends B contents ingest_ok) in Hadd. rewrite Hadd.
  f_equal. rewrite Hcont2. simpl. by rewrite Hcont1, Hcont0.
Qed.

End IngestFacts.

Lemma ref_ingest_contract down : ingest_contract (Ref.backend down) Ref.records.
Proof.
  split.
  - intros ids docs embs metas s s' H. simpl in H. unfold Ref.add in H.
    by inversion H.
  - intros texts s. simpl. unfold Ref.encode. by destruct (existsb _ texts).
  - reflexivity.
  - reflexivity.
Qed.

Section UpdateFacts.

Context {S : Type} (B : Backend S) (contents : S -> list stored).
Hypothesis store_ok : store_contract B contents.
Hypothesis ingest_ok : ingest_contract B contents.
Hypothesis store_up : store_available B.
Hypothesis model_ok : encode_one_per_text B.

(** The records a returning [add_document] appends: one per chunk, with
    the returned ids, the chunks as documents, and the document as
    parent. *)
Lemma add_document_new_records content d meta chunk_size w ids w' :
  add_document B content (Some d) meta chunk_size w = (Ok ids, w') ->
  exists chunks new,
    process_document content chunk_size = Ok chunks /\
    contents (env w') = contents (env w) ++ new /\
    map rec_id new = ids /\
    map rec_document new = chunks /\
    Forall (fun r => has_parent d (rec_metadata r) = true) new.
Proof.
  intros Hrun. apply (add_document_contents B contents ingest_ok) in Hrun.
  destruct Hrun as (chunks & embs & s1 & stamps & Hchunks & Henc & Hlen
                    & Hids & Hcont).
  apply model_ok in Henc.
  destruct (length_py_zip chunks embs) as (Hz & Hfst & Hsnd);
    [by rewrite Henc |].
  unfold batch_of in Hids. cbn [chunk_ids resolved_id] in Hids, Hcont.
  rewrite Hz, Hfst, Hsnd in *.
  destruct (zip4_same_length ids chunks embs
              (metas_of (meta_or_empty meta) d (length chunks) 0 stamps))
    as (Hi & Hd & Hm).
  { by rewrite Hids, length_map, length_seq. }
  { by rewrite Hids, length_map, length_seq. }
  { by rewrite length_metas_of, Hids, length_map, length_seq. }
  eexists chunks, _. split; [assumption |]. split; [exact Hcont |].
  split; [assumption |]. split; [assumption |].
  apply Forall_forall. intros r Hr.
  assert (Hmeta : rec_metadata r
                  ∈ metas_of (meta_or_empty meta) d (length chunks) 0 stamps).
  { rewrite <- Hm. apply list_elem_of_In, in_map.
    by apply list_elem_of_In. }
  assert (Hall : Forall (fun m => has_parent d m = true)
                   (metas_of (meta_or_empty meta) d (length chunks) 0 stamps)).
  { apply metas_of_Forall. intros i t. unfold has_parent.
    destruct (chunk_meta_of_lineage (meta_or_empty meta) d i (length chunks) t)
      as (-> & _ & _).
    by apply bool_decide_eq_true. }
  rewrite Forall_forall in Hall. by apply Hall.
Qed.

End UpdateFacts.

Lemma filter_all {A} (P : A -> bool) l :
  Forall (fun x => P x = true) l -> List.filter P l = l.
Proof.
  induction 1 as [|x l Hx _ IH]; simpl; [reflexivity |]. by rewrite Hx, IH.
Qed.

Lemma filter_none {A} (P : A -> bool) l :
  Forall (fun x => P x = false) l -> List.filter P l = [].
Proof.
  induction 1 as [|x l Hx _ IH]; simpl; [reflexivity |]. by rewrite Hx, IH.
Qed.

(** X18.  [update_document] replaces the chunks of a document: over
    collaborators that honour their contracts, when it returns, the stored
    records whose [parent_doc_id] is the document are exactly the new
    chunks, in order, under the returned ids. *)
Theorem update_document_replaces {S} (B : Backend S)
    (contents : S -> list stored) d content meta chunk_size w ids w' :
  store_contract B contents ->
  ingest_contract B contents ->
  store_available B ->
  encode_one_per_text B ->
  update_document B d content meta chunk_size w = (Ok ids, w') ->
  exists chunks,
    process_document content chunk_size = Ok chunks /\
    map rec_id
      (List.filter (fun r => has_parent d (rec_metadata r)) (contents (env w')))
      = ids /\
    map rec_document
      (List.filter (fun r => has_parent d (rec_metadata r)) (contents (env w')))
      = chunks.
Proof.
  intros Hstore Hingest Hup Hmodel Hrun.
  unfold update_document, bind in Hrun.
  pose proof (delete_document_none_left B contents Hstore Hup d w) as Hnone.
  destruct (delete_document B d w) as [[b | e] w1]; [| discriminate].
  simpl in Hnone.
  apply (add_document_new_records B contents Hingest Hmodel) in Hrun.
  destruct Hrun as (chunks & new & Hchunks & Hcont & Hids & Hdocs & Hpar).
  exists chunks. split; [assumption |].
  rewrite Hcont, List.filter_app, Hnone, (filter_all _ _ Hpar). by split.
Qed.

Lemma update_document_replaces_witness :
  exists chunks,
    process_document (u "one two") 500 = Ok chunks /\
    map rec_id
      (List.filter (fun r => has_parent (u "d1") (rec_metadata r))
         (Ref.records
            (env (snd (update_document (Ref.backend []) (u "d1") (u "one two")
                         None 500 Sample.with_d1)))))
      = [u "d1_chunk_0"] /\
    map rec_document
      (List.filter (fun r => has_parent (u "d1") (rec_metadata r))
         (Ref.records
            (env (snd (update_document (Ref.backend []) (u "d1") (u "one two")
                         None 500 Sample.with_d1)))))
      = chunks.
Proof.
  apply (update_document_replaces (Ref.backend []) Ref.records (u "d1")
           (u "one two") None 500 Sample.with_d1 [u "d1_chunk_0"]).
  - apply ref_store_contract.
  - apply ref_ingest_contract.
  - apply ref_store_available.
  - apply ref_encode_one_per_text.
  - vm_compute. reflexivity.
Defined.

(** X19.  Ingesting, then deleting: over collaborators that honour their
    contracts, when the collection holds no chunk of the document and none
    under the new ids, [delete_document] after a returning [add_document]
    returns [True] exactly when a chunk was stored, and puts the stored
    records back as they were. *)
Theorem add_then_delete_restores {S} (B : Backend S)
    (contents : S -> list stored) d content meta chunk_size w ids w' :
  store_contract B contents ->
  ingest_contract B contents ->
  store_available B ->
  encode_one_per_text B ->
  add_document B content (Some d) meta chunk_size w = (Ok ids, w') ->
  Forall (fun r => has_parent d (rec_metadata r) = false) (contents (env w)) ->
  Forall (fun r => rec_id r ∉ ids) (contents (env w)) ->
  fst (delete_document B d w') = Ok (truthy ids) /\
  contents (env (snd (delete_document B d w'))) = contents (env w).
Proof.
  intros Hstore Hingest Hup Hmodel Hrun Hfresh Hids.
  apply (add_document_new_records B contents Hingest Hmodel) in Hrun.
  destruct Hrun as (chunks & new & Hchunks & Hcont & Hnew & Hdocs & Hpar).
  destruct (delete_document_contents B contents Hstore Hup d w') as [-> ->].
  assert (Hmatch : matching_ids d (contents (env w')) = ids).
  { unfold matching_ids.
    by rewrite Hcont, List.filter_app, (filter_none _ _ Hfresh), (filter_all _ _ Hpar). }
  rewrite Hmatch, Hcont. split.
  - f_equal. rewrite existsb_app.
    destruct (filter_nil_none _ _ (filter_none _ _ Hfresh)) as [-> _]. simpl.
    rewrite <- Hnew. destruct new as [|r new]; [reflexivity |]. simpl.
    inversion Hpar as [|? ? Hr _]; subst. by rewrite Hr.
  - rewrite List.filter_app.
    rewrite (filter_all _ (contents (env w))).
    + rewrite filter_none; [by rewrite app_nil_r |].
      apply Forall_forall. intros r Hr.
      apply negb_false_iff, bool_decide_eq_true. rewrite <- Hnew.
      apply list_elem_of_In, in_map. by apply list_elem_of_In.
    + eapply Forall_impl; [exact Hids |]. intros r Hr. simpl in Hr.
      by apply negb_true_iff, bool_decide_eq_false.
Qed.

Lemma add_then_delete_restores_witness :
  fst (delete_document (Ref.backend []) (u "d1") Sample.with_d1)
    = Ok (truthy [u "d1_chunk_0"; u "d1_chunk_1"]) /\
  Ref.records
    (env (snd (delete_document (Ref.backend []) (u "d1") Sample.with_d1)))
    = Ref.records (env Ref.start).
Proof.
  apply (add_then_delete_restores (Ref.backend []) Ref.records (u "d1")
           (u "alpha beta gamma delta") (Some ∅) 52 Ref.start
           [u "d1_chunk_0"; u "d1_chunk_1"] Sample.with_d1).
  - apply ref_store_contract.
  - apply ref_ingest_contract.
  - apply ref_store_available.
  - apply ref_encode_one_per_text.
  - vm_compute. reflexivity.
  - constructor.
  - constructor.
Defined.

Section AddCallFacts.

Context {S : Type} (B : Backend S) (contents : S -> list stored).
Hypothesis model_keeps : forall texts s,
  contents (snd (model_encode B texts s)) = contents s.
Hypothesis clock_keeps : forall s,
  contents (snd (now_isoformat B s)) = contents s.

Lemma add_document_loop_records d meta n pairs : forall i b w b' w',
  for_each (enumerate_from i pairs) (add_document_step B d meta n) b w
    = (Ok b', w') ->
  contents (env w') = contents (env w).
Proof.
  induction pairs as [|[chunk emb] pairs IH]; intros i b w b' w' Hrun.
  - by inversion Hrun.
  - cbn [for_each enumerate_from] in Hrun. unfold bind at 1 in Hrun.
    rewrite add_document_step_run in Hrun. apply IH in Hrun.
    rewrite Hrun. simpl. apply clock_keeps.
Qed.

(** The call to [collection.add] of a returning [add_document] with a
    given id: what it is called with, and that the records are then
    still those of the start. *)
Lemma add_document_add_call content d meta chunk_size w ids w' :
  add_document B content (Some d) meta chunk_size w = (Ok ids, w') ->
  exists chunks docs embs metas s2,
    process_document content chunk_size = Ok chunks /\
    calls w' = calls w ++ [CallEncode chunks; CallAdd ids docs embs metas] /\
    contents s2 = contents (env w) /\
    collection_add B ids docs embs metas s2 = (Ok tt, env w').
Proof.
  unfold add_document. intros Hrun.
  unfold bind at 1 in Hrun. unfold ret at 1 in Hrun.
  unfold bind at 1 in Hrun. unfold lift at 1 in Hrun.
  destruct (process_document content chunk_size) as [chunks | e];
    [| discriminate].
  unfold bind at 1 in Hrun. unfold encode in Hrun.
  rewrite record_call_run in Hrun.
  pose proof (model_keeps chunks (env w)) as Hcont1.
  destruct (model_encode B chunks (env w)) as [[embs | e] s1];
    [| discriminate].
  simpl fst in Hrun. simpl snd in Hrun, Hcont1. cbv iota beta in Hrun.
  unfold bind at 1 in Hrun.
  destruct (add_document_loop B d
              (match meta with None => ∅ | Some m => m end)
              (length chunks) (py_zip chunks embs) 0 empty_batch
              (mkWorld s1 (calls w ++ [CallEncode chunks])))
    as (stamps & w2 & Hloop & Hcalls2 & Hlen).
  pose proof (add_document_loop_records _ _ _ _ _ _ _ _ _ Hloop) as Hcont2.
  rewrite Hloop in Hrun. simpl app in Hrun.
  unfold bind at 1 in Hrun. unfold coll_add in Hrun.
  rewrite record_call_run in Hrun. cbn [chunk_ids chunk_documents
    chunk_embeddings chunk_metadata] in Hrun.
  match type of Hrun with
  | context [collection_add B ?a ?b ?c ?m ?s] =>
      destruct (collection_add B a b c m s) as [[[] | e] s3] eqn:Hadd
  end; simpl in Hrun; [| discriminate].
  inversion Hrun; subst.
  exists chunks. do 3 eexists. exists (env w2).
  split; [reflexivity |]. split.
  - rewrite Hcalls2. cbn [calls]. by rewrite <- app_assoc.
  - split; [| exact Hadd]. rewrite Hcont2. simpl. exact Hcont1.
Qed.

End AddCallFacts.

Lemma failing_get_model_keeps texts s :
  Ref.records (snd (model_encode failing_get_backend texts s)) = Ref.records s.
Proof. simpl. unfold Ref.encode. by destruct (existsb _ texts). Qed.

(** X20.  [update_document] does not stop at a failing lookup.  When
    [collection.get] raises in the delete step and leaves the stored
    records alone, as the model and the clock do, a returning
    [update_document] has called [get], the model and [collection.add]
    with the returned ids, and never [delete]; [collection.add] was called
    on a store that still held every old record, the old chunks of the
    document included, and the state it left is the final one. *)
Theorem update_document_ignores_delete_failure {S} (B : Backend S)
    (contents : S -> list stored) d content meta chunk_size w e s1 ids w' :
  (forall texts s, contents (snd (model_encode B texts s)) = contents s) ->
  (forall s, contents (snd (now_isoformat B s)) = contents s) ->
  collection_get B {[ k_parent_doc_id := VStr d ]} (env w) = (Raise e, s1) ->
  contents s1 = contents (env w) ->
  update_document B d content meta chunk_size w = (Ok ids, w') ->
  exists chunks docs embs metas s2,
    process_document content chunk_size = Ok chunks /\
    calls w' = calls w ++ [CallGet {[ k_parent_doc_id := VStr d ]};
                           CallEncode chunks; CallAdd ids docs embs metas] /\
    contents s2 = contents (env w) /\
    collection_add B ids docs embs metas s2 = (Ok tt, env w').
Proof.
  intros Hmodel Hclock Hget Hkeep Hrun.
  unfold update_document, bind in Hrun.
  rewrite delete_document_run in Hrun. cbn zeta in Hrun. rewrite Hget in Hrun.
  apply (add_document_add_call B contents Hmodel Hclock) in Hrun.
  destruct Hrun as (chunks & docs & embs & metas & s2 & Hchunks & Hcalls
                    & Hcont & Hadd).
  exists chunks, docs, embs, metas, s2.
  split; [assumption |]. split.
  - rewrite Hcalls. cbn [calls]. by rewrite <- app_assoc.
  - split; [| assumption]. rewrite Hcont. exact Hkeep.
Qed.

Lemma update_document_ignores_delete_failure_witness :
  exists chunks docs embs metas s2,
    process_document (u "one two") 500 = Ok chunks /\
    calls (snd (update_document failing_get_backend (u "d1") (u "one two")
                  None 500 Sample.with_d1))
    = calls Sample.with_d1
        ++ [CallGet {[ k_parent_doc_id := VStr (u "d1") ]};
            CallEncode chunks; CallAdd [u "d1_chunk_0"] docs embs metas] /\
    Ref.records s2 = Ref.records (env Sample.with_d1) /\
    collection_add failing_get_backend [u "d1_chunk_0"] docs embs metas s2
    = (Ok tt,
       env (snd (update_document failing_get_backend (u "d1") (u "one two")
                   None 500 Sample.with_d1))).
Proof.
  apply (update_document_ignores_delete_failure failing_get_backend
           Ref.records (u "d1") (u "one two") None 500 Sample.with_d1
           (BackendError (u "store unavailable")) (env Sample.with_d1)
           [u "d1_chunk_0"]).
  - apply failing_get_model_keeps.
  - reflexivity.
  - reflexivity.
  - reflexivity.
  - vm_compute. reflexivity.
Defined.

(** In the reference store, which appends, the document then has three
    chunks: the two old ones and the new one, [d1_chunk_0] twice. *)
Example update_after_failed_lookup :
  map rec_id
    (Ref.records
       (env (snd (update_document failing_get_backend (u "d1") (u "one two")
                    None 500 Sample.with_d1))))
  = [u "d1_chunk_0"; u "d1_chunk_1"; u "d1_chunk_0"].
Proof. vm_compute. reflexivity. Qed.

(** ** More about [search] *)

Lemma bare_no_distances : no_distances bare_backend.
Proof.
  intros e n wh s r s' H. simpl in H. unfold bare_query in H.
  destruct (Ref.query e n wh s) as [[r0 | e0] s0]; [| discriminate].
  by inversion H.
Qed.

(** X21.  When the answer of [collection.query] has no ['distances'], every
    result of [search] has the score [0.0], so a positive [min_similarity]
    leaves no result at all. *)
Theorem search_without_distances {S} (B : Backend S) query n filter_metadata
    min_similarity w rs w' :
  no_distances B ->
  search B query n filter_metadata min_similarity w = (Ok rs, w') ->
  Forall (fun r => similarity_score r = 0%float) rs /\
  (PrimFloat.ltb 0 min_similarity = true -> rs = []).
Proof.
  intros Hbare Hrun. apply search_inv in Hrun.
  destruct Hrun as (embs & s1 & qe & resp & s2 & ids0 & hits & _ & _ & Hq
                    & _ & Hhits & -> & _).
  apply Hbare in Hq.
  assert (Hzero : Forall (fun r => similarity_score r = 0%float) hits).
  { apply Forall_lookup. intros i h Hi.
    destruct (traverse_lookup _ _ _ _ _ Hhits Hi) as (j & _ & Hj).
    apply hit_at_score in Hj. by rewrite Hq in Hj. }
  split.
  - apply Forall_forall. intros r Hr.
    apply list_elem_of_In, filter_In in Hr. destruct Hr as [Hr _].
    rewrite Forall_forall in Hzero. by apply Hzero, list_elem_of_In.
  - intros Hpos. apply ltb_not_leb in Hpos. apply filter_none.
    eapply Forall_impl; [exact Hzero |]. intros h Hh. simpl in Hh.
    by rewrite Hh.
Qed.

Lemma search_without_distances_witness :
  Forall (fun r => similarity_score r = 0%float)
    (match fst (search bare_backend (u "alpha") 2 None 0.5%float
                  Sample.with_d1) with
     | Ok rs => rs
     | Raise _ => [mkQueryResult [] [] 1%float ∅]
     end) /\
  (PrimFloat.ltb 0 0.5%float = true ->
   match fst (search bare_backend (u "alpha") 2 None 0.5%float
                Sample.with_d1) with
   | Ok rs => rs
   | Raise _ => [mkQueryResult [] [] 1%float ∅]
   end = []).
Proof.
  apply (search_without_distances bare_backend (u "alpha") 2 None 0.5%float
           Sample.with_d1 _
           (snd (search bare_backend (u "alpha") 2 None 0.5%float
                   Sample.with_d1))).
  - apply bare_no_distances.
  - vm_compute. reflexivity.
Defined.

(** Without distances and with the default threshold, the two chunks of the
    sample are both found, with score [0.0]. *)
Example search_bare_default :
  match fst (search bare_backend (u "alpha") 2 None 0%float Sample.with_d1) with
  | Ok rs => map (fun r => (document_id r, similarity_score r)) rs
  | Raise _ => []
  end = [(u "d1_chunk_0", 0%float); (u "d1_chunk_1", 0%float)].
Proof. vm_compute. reflexivity. Qed.

(** X22.  [search] catches nothing.  When it raises, either the model
    raised and the collection was not queried, or the model gave no vector
    ([IndexError]), or the collection raised, or its answer could not be
    read ([IndexError]); the collection is queried at most once. *)
Theorem search_raises_inv {S} (B : Backend S) query n filter_metadata
    min_similarity w e w' :
  search B query n filter_metadata min_similarity w = (Raise e, w') ->
  (exists s1,
     (model_encode B [query] (env w) = (Raise e, s1) \/
      model_encode B [query] (env w) = (Ok [], s1) /\
      e = IndexError (u "list index out of range")) /\
     w' = mkWorld s1 (calls w ++ [CallEncode [query]])) \/
  (exists qe rest s1 s2,
     model_encode B [query] (env w) = (Ok (qe :: rest), s1) /\
     (collection_query B qe n (where_clause_of filter_metadata) s1
        = (Raise e, s2) \/
      exists resp,
        collection_query B qe n (where_clause_of filter_metadata) s1
          = (Ok resp, s2) /\
        e = IndexError (u "list index out of range")) /\
     w' = mkWorld s2
            (calls w ++ [CallEncode [query];
                         CallQuery qe n (where_clause_of filter_metadata)])).
Proof.
  unfold search. intros Hrun.
  unfold bind at 1 in Hrun. unfold encode in Hrun.
  rewrite record_call_run in Hrun.
  destruct (model_encode B [query] (env w)) as [[embs | e0] s1] eqn:Henc;
    cbn [fst snd] in Hrun.
  2: { inversion Hrun; subst. left. exists s1. split; [by left | reflexivity]. }
  unfold bind at 1 in Hrun. unfold lift at 1 in Hrun.
  unfold Py.index at 1 in Hrun.
  destruct embs as [|qe rest]; simpl lookup in Hrun; cbv iota in Hrun.
  { inversion Hrun; subst. left. exists s1. split; [by right | reflexivity]. }
  right. exists qe, rest, s1.
  unfold bind at 1 in Hrun. unfold coll_query in Hrun.
  rewrite record_call_run in Hrun. cbn [env calls] in Hrun.
  destruct (collection_query B qe n (where_clause_of filter_metadata) s1)
    as [[resp | e0] s2] eqn:Hq; cbn [fst snd] in Hrun.
  2: { inversion Hrun; subst. exists s2. rewrite <- app_assoc.
       split; [reflexivity |]. split; [by left | reflexivity]. }
  exists s2. split; [reflexivity |].
  unfold bind at 1 in Hrun. unfold lift at 1 in Hrun.
  unfold Py.index at 1 in Hrun.
  destruct (qr_ids resp !! 0%nat) as [ids0 |] eqn:Hids.
  - rewrite search_loop in Hrun.
    destruct (traverse (hit_at resp) (seq 0 (length ids0))) as [hits | e1] eqn:Hh;
      [discriminate |].
    inversion Hrun; subst. rewrite <- app_assoc.
    split; [| reflexivity]. right. exists resp. split; [reflexivity |].
    clear - Hh. revert Hh. generalize (seq 0 (length ids0)).
    induction l as [|i l IH]; simpl; [discriminate |].
    destruct (hit_at resp i) as [h | e2] eqn:Hi; simpl.
    + destruct (traverse (hit_at resp) l); simpl; [discriminate |].
      intros H. inversion H; subst. by apply IH.
    + intros H. inversion H; subst. clear - Hi.
      unfold hit_at, rbind, Py.index in Hi.
      repeat match type of Hi with
             | context [match ?l !! ?k with _ => _ end] =>
                 destruct (l !! k); [| by inversion Hi]
             end.
      destruct (qr_distances resp) as [ds |]; [| discriminate].
      repeat match type of Hi with
             | context [match ?l !! ?k with _ => _ end] =>
                 destruct (l !! k); [| by inversion Hi]
             end.
      discriminate.
  - inversion Hrun; subst. rewrite <- app_assoc.
    split; [| reflexivity]. right. by exists resp.
Qed.

Lemma search_raises_inv_witness :
  (exists s1,
     (model_encode (Ref.backend [u "alpha"]) [u "alpha"] (env Sample.with_d1)
        = (Raise (BackendError (u "model unavailable")), s1) \/
      model_encode (Ref.backend [u "alpha"]) [u "alpha"] (env Sample.with_d1)
        = (Ok [], s1) /\
      BackendError (u "model unavailable")
        = IndexError (u "list index out of range")) /\
     snd (search (Ref.backend [u "alpha"]) (u "alpha") 2 None 0%float
            Sample.with_d1)
     = mkWorld s1 (calls Sample.with_d1 ++ [CallEncode [u "alpha"]])) \/
  (exists qe rest s1 s2,
     model_encode (Ref.backend [u "alpha"]) [u "alpha"] (env Sample.with_d1)
       = (Ok (qe :: rest), s1) /\
     (collection_query (Ref.backend [u "alpha"]) qe 2 (where_clause_of None) s1
        = (Raise (BackendError (u "model unavailable")), s2) \/
      exists resp,
        collection_query (Ref.backend [u "alpha"]) qe 2 (where_clause_of None) s1
          = (Ok resp, s2) /\
        BackendError (u "model unavailable")
          = IndexError (u "list index out of range")) /\
     snd (search (Ref.backend [u "alpha"]) (u "alpha") 2 None 0%float
            Sample.with_d1)
     = mkWorld s2
         (calls Sample.with_d1
            ++ [CallEncode [u "alpha"]; CallQuery qe 2 (where_clause_of None)])).
Proof.
  apply (search_raises_inv (Ref.backend [u "alpha"]) (u "alpha") 2 None 0%float
           Sample.with_d1).
  vm_compute. reflexivity.
Defined.

(** ** More about [semantic_search_with_reranking] *)

Section RerankCalls.

Context {S : Type} (B : Backend S).

Lemma rerank_step_calls qe acc r w out w' :
  rerank_step B qe acc r w = (Ok out, w') ->
  calls w' = calls w ++ [CallEncode [content r]].
Proof.
  unfold rerank_step, bind, encode, lift, compute_similarity, ret.
  rewrite record_call_run.
  destruct (model_encode B [content r] (env w)) as [[embs | e] s1];
    simpl; [| discriminate].
  destruct (Py.index embs 0) as [de | e]; [| discriminate].
  destruct (cosine_similarity B qe de) as [sim | e]; [| discriminate].
  intros H. by inversion H.
Qed.

Lemma rerank_loop_calls qe initial : forall acc w out w',
  for_each initial (rerank_step B qe) acc w = (Ok out, w') ->
  calls w' = calls w ++ map (fun r => CallEncode [content r]) initial.
Proof.
  induction initial as [|r initial IH]; intros acc w out w' H.
  - inversion H; subst. by rewrite app_nil_r.
  - cbn [for_each] in H. unfold bind at 1 in H.
    destruct (rerank_step B qe acc r w) as [[acc1 | e] w1] eqn:Hstep;
      [| discriminate].
    apply rerank_step_calls in Hstep. apply IH in H.
    rewrite H, Hstep, <- app_assoc. reflexivity.
Qed.

(** Every run of [semantic_search_with_reranking] that returns. *)
Lemma rerank_inv query n top_k w out w' :
  semantic_search_with_reranking B query n top_k w = (Ok out, w') ->
  exists initial w1,
    search B query n None 0%float w = (Ok initial, w1) /\
    (initial = [] /\ out = [] /\ w' = w1 \/
     initial <> [] /\
     exists qe rescored,
       Forall2 (rescored_from B qe) initial rescored /\
       out = Py.slice (sort_desc similarity_score rescored) 0 top_k /\
       calls w'
       = calls w1 ++ CallEncode [query]
                       :: map (fun r => CallEncode [content r]) initial).
Proof.
  unfold semantic_search_with_reranking. intros Hrun.
  unfold bind at 1 in Hrun.
  destruct (search B query n None 0%float w) as [[initial | e] w1] eqn:Hsearch;
    [| discriminate].
  exists initial, w1. split; [reflexivity |].
  destruct initial as [|r0 initial]; unfold truthy in Hrun; cbv iota in Hrun.
  - inversion Hrun; subst. by left.
  - right. split; [discriminate |].
    unfold bind at 1 in Hrun. unfold encode in Hrun.
    rewrite record_call_run in Hrun.
    destruct (model_encode B [query] (env w1)) as [[embs | e] s2] eqn:Henc;
      [| discriminate].
    cbn [fst snd] in Hrun. unfold bind at 1 in Hrun. unfold lift at 1 in Hrun.
    unfold Py.index at 1 in Hrun.
    destruct (embs !! 0%nat) as [qe |] eqn:Hqe; [| discriminate].
    unfold bind at 1 in Hrun.
    match type of Hrun with
    | context [for_each ?l ?f ?a ?w0] =>
        destruct (for_each l f a w0) as [[reranked | e] w3] eqn:Hloop;
          [| discriminate]
    end.
    pose proof (rerank_loop_calls _ _ _ _ _ _ Hloop) as Hcalls.
    apply rerank_loop in Hloop. destruct Hloop as (rescored & Hall & ->).
    inversion Hrun; subst. simpl app.
    exists qe, rescored. split; [assumption |]. split; [reflexivity |].
    rewrite Hcalls. cbn [calls]. by rewrite <- app_assoc.
Qed.

End RerankCalls.

Lemma slice_from_start {A} (l : list A) k :
  Py.slice l 0 k = take (Py.slice_bound (length l) k) l.
Proof.
  unfold Py.slice.
  assert (H0 : Py.slice_bound (length l) 0 = 0%nat)
    by (unfold Py.slice_bound; simpl; lia).
  by rewrite H0, Nat.sub_0_r, drop_0.
Qed.

Lemma length_slice_from_start {A} (l : list A) k :
  Z.of_nat (length (Py.slice l 0 k))
  = if k <? 0 then Z.max 0 (Z.of_nat (length l) + k)
    else Z.min k (Z.of_nat (length l)).
Proof.
  rewrite slice_from_start, length_take. unfold Py.slice_bound.
  destruct (Z.ltb_spec k 0); lia.
Qed.

Lemma rescored_unscored {S} (B : Backend S) qe initial rescored :
  Forall2 (rescored_from B qe) initial rescored ->
  map unscored rescored = map unscored initial.
Proof.
  induction 1 as [|r r' initial rescored Hr _ IH]; [reflexivity |].
  simpl. rewrite IH. f_equal.
  destruct Hr as (s & s' & embs & de & sim & _ & _ & _ & ->). reflexivity.
Qed.

(** X23.  How many results reranking returns: with [k] candidates from the
    first search (at most [n_results] when the collection respects it), the
    result has [min(rerank_top_k, k)] elements for [rerank_top_k >= 0]; a
    negative [rerank_top_k] does not give an empty list but cuts the
    [|rerank_top_k|] lowest-scored candidates off. *)
Theorem rerank_length {S} (B : Backend S) query n top_k w out w' :
  query_bounded B ->
  semantic_search_with_reranking B query n top_k w = (Ok out, w') ->
  exists initial w1,
    search B query n None 0%float w = (Ok initial, w1) /\
    Z.of_nat (length initial) <= n /\
    Z.of_nat (length out)
    = if top_k <? 0 then Z.max 0 (Z.of_nat (length initial) + top_k)
      else Z.min top_k (Z.of_nat (length initial)).
Proof.
  intros Hbound Hrun. apply rerank_inv in Hrun.
  destruct Hrun as (initial & w1 & Hsearch & Hcases).
  exists initial, w1. split; [assumption |]. split.
  - apply search_inv in Hsearch.
    destruct Hsearch as (embs & s1 & qe & resp & s2 & ids0 & hits & _ & _ & Hq
                         & Hids & Hhits & -> & _).
    pose proof (Hbound _ _ _ _ _ _ _ Hq Hids) as Hn.
    apply traverse_length in Hhits. rewrite length_seq in Hhits.
    pose proof (filter_length_le
                  (fun h => PrimFloat.leb 0 (similarity_score h)) hits).
    lia.
  - destruct Hcases as [(-> & -> & _) | (_ & qe & rescored & Hall & -> & _)].
    + simpl. destruct (Z.ltb_spec top_k 0); lia.
    + rewrite length_slice_from_start.
      rewrite (Permutation_length (sort_desc_perm similarity_score rescored)).
      by rewrite <- (Forall2_length _ _ _ Hall).
Qed.

Lemma rerank_length_witness :
  exists initial w1,
    search (Ref.backend []) (u "x") 2 None 0%float Sample.with_b_a
      = (Ok initial, w1) /\
    Z.of_nat (length initial) <= 2 /\
    Z.of_nat
      (length
         (match fst (semantic_search_with_reranking (Ref.backend []) (u "x") 2
                       (-1) Sample.with_b_a) with
          | Ok rs => rs
          | Raise _ => []
          end))
    = if -1 <? 0 then Z.max 0 (Z.of_nat (length initial) + -1)
      else Z.min (-1) (Z.of_nat (length initial)).
Proof.
  apply (rerank_length (Ref.backend []) (u "x") 2 (-1) Sample.with_b_a _
           (snd (semantic_search_with_reranking (Ref.backend []) (u "x") 2
                   (-1) Sample.with_b_a))).
  - apply ref_query_bounded.
  - vm_compute. reflexivity.
Defined.

(** With [rerank_top_k = -1], one of the two candidates of the sample is
    returned. *)
Example rerank_negative_top_k :
  match fst (semantic_search_with_reranking (Ref.backend []) (u "x") 2 (-1)
               Sample.with_b_a) with
  | Ok rs => map document_id rs
  | Raise _ => []
  end = [u "b_chunk_0"].
Proof. vm_compute. reflexivity. Qed.

(** X24.  The calls of a returning [semantic_search_with_reranking]: one
    call to the model and one query for the first search, then, when there
    are candidates, the query is embedded a second time and the text of
    each candidate once, in the order of the first search; with no
    candidate nothing more is called. *)
Theorem rerank_calls {S} (B : Backend S) query n top_k w out w' :
  semantic_search_with_reranking B query n top_k w = (Ok out, w') ->
  exists initial w1 qe,
    search B query n None 0%float w = (Ok initial, w1) /\
    calls w'
    = calls w ++ [CallEncode [query]; CallQuery qe n None]
        ++ (if truthy initial
            then CallEncode [query]
                   :: map (fun r => CallEncode [content r]) initial
            else []).
Proof.
  intros Hrun. apply rerank_inv in Hrun.
  destruct Hrun as (initial & w1 & Hsearch & Hcases).
  pose proof Hsearch as Hinv. apply search_inv in Hinv.
  destruct Hinv as (embs & s1 & qe & resp & s2 & ids0 & hits & _ & _ & _
                    & _ & _ & _ & Hw1).
  exists initial, w1, qe. split; [assumption |].
  change (where_clause_of None) with (@None metadata) in Hw1.
  destruct Hcases as [(-> & -> & ->) | (Hne & qe' & rescored & _ & _ & ->)].
  - rewrite Hw1. reflexivity.
  - rewrite Hw1. cbn [calls]. destruct initial; [done |].
    unfold truthy. cbv iota. by rewrite <- app_assoc.
Qed.

Lemma rerank_calls_witness :
  exists initial w1 qe,
    search (Ref.backend []) (u "x") 2 None 0%float Sample.with_b_a
      = (Ok initial, w1) /\
    calls (snd (semantic_search_with_reranking (Ref.backend []) (u "x") 2 2
                  Sample.with_b_a))
    = calls Sample.with_b_a ++ [CallEncode [u "x"]; CallQuery qe 2 None]
        ++ (if truthy initial
            then CallEncode [u "x"]
                   :: map (fun r => CallEncode [content r]) initial
            else []).
Proof.
  apply (rerank_calls (Ref.backend []) (u "x") 2 2 Sample.with_b_a
           Sample.reranked).
  vm_compute. reflexivity.
Defined.

(** X25.  Reranking invents and loses nothing but scores: the returned
    results, followed by the ones cut off, are the candidates of the first
    search in some order, each with its id, text and metadata unchanged;
    when [rerank_top_k] is at least the number of candidates, none is cut
    off. *)
Theorem rerank_returns_candidates {S} (B : Backend S) query n top_k w out w' :
  semantic_search_with_reranking B query n top_k w = (Ok out, w') ->
  exists initial w1 cut,
    search B query n None 0%float w = (Ok initial, w1) /\
    Permutation (map unscored (out ++ cut)) (map unscored initial) /\
    (Z.of_nat (length initial) <= top_k -> cut = []).
Proof.
  intros Hrun. apply rerank_inv in Hrun.
  destruct Hrun as (initial & w1 & Hsearch & Hcases).
  exists initial, w1.
  destruct Hcases as [(-> & -> & _) | (_ & qe & rescored & Hall & -> & _)].
  - exists []. by repeat split.
  - exists (drop (Py.slice_bound (length (sort_desc similarity_score rescored))
                    top_k)
              (sort_desc similarity_score rescored)).
    split; [assumption |]. rewrite slice_from_start, take_drop. split.
    + rewrite <- (rescored_unscored B qe initial rescored Hall).
      apply Permutation_map, sort_desc_perm.
    + intros Hk. apply drop_ge.
      rewrite (Permutation_length (sort_desc_perm similarity_score rescored)).
      rewrite <- (Forall2_length _ _ _ Hall). unfold Py.slice_bound.
      destruct (Z.ltb_spec top_k 0); lia.
Qed.

Lemma rerank_returns_candidates_witness :
  exists initial w1 cut,
    search (Ref.backend []) (u "x") 2 None 0%float Sample.with_b_a
      = (Ok initial, w1) /\
    Permutation
      (map unscored
         (match fst (semantic_search_with_reranking (Ref.backend []) (u "x") 2 1
                       Sample.with_b_a) with
          | Ok rs => rs
          | Raise _ => []
          end ++ cut))
      (map unscored initial) /\
    (Z.of_nat (length initial) <= 1 -> cut = []).
Proof.
  apply (rerank_returns_candidates (Ref.backend []) (u "x") 2 1
           Sample.with_b_a _
           (snd (semantic_search_with_reranking (Ref.backend []) (u "x") 2 1
                   Sample.with_b_a))).
  vm_compute. reflexivity.
Defined.
